(** * imin: pixel sampling, displacement and rescaling

    A shallow embedding of the Python package [imin]
    ([imin/__init__.py], [imin/displace.py], [imin/rescale.py]), of the
    older modules [scalers/bilinear.py] and [scalers/barycentric.py] the
    viewer calls, and of the list conversions of [pypng/pnglpng.py] (the
    PyPNG reader and writer themselves are outside).

    Modelling conventions.
    - An image is a nested list [list (list (list Z))]: rows, pixels,
      channel samples (Python [list[list[list[int]]]]).
    - A Python [float] is the rational [Q] it stands for; an [int]
      coordinate is the rational [inject_Z n].  Coordinates are finite.
    - The modules [Imin], [Displace], [Rescale] and the two [Scalers]
      modules compute with exact rationals.  They give the values of the
      code wherever its arithmetic is exact: at direct hits, with weights
      0 and 1, on zero samples, on dyadic values, and for all that concerns
      sizes, errors and the choice of cells.
    - The modules [Imin64], [Displace64] and [Rescale64] round every float
      operation to binary64 ([binary64]: 53 significant bits, round to
      nearest, ties to even; an [int] operand is converted first).  They
      are used for what depends on rounding.  Overflow to infinity is left
      out: magnitudes stay far below [2^1024] in everything stated here.
    - The coordinate functions [fx] and [fy] of [displace] are total
      functions from the two integer counters to a coordinate.
    - [int(v)] truncates toward zero ([Z.quot]); [a % b] is the Python
      modulo, whose sign follows the divisor ([Z.modulo]).
    - Exceptions are values of [result]: indexing outside a list raises
      [IndexError], dividing by zero [ZeroDivisionError], and the drivers
      raise [ValueError] on an unknown method.
    - [edge] and [method] have the Python type [int | str].
    - The [functools.lru_cache] wrappers memoise a function that only reads
      the source image, so a wrapped function is modelled by the function
      it wraps. *)

From Stdlib Require Import ZArith QArith Qround Qabs Qpower.
From Stdlib Require Import List String Bool Lia Lqa.
Import ListNotations.

Local Open Scope Z_scope.

(** ** Python values and exceptions *)

Inductive pyexc : Type :=
| IndexError
| ZeroDivisionError
| ValueError (msg : string).

Inductive result (A : Type) : Type :=
| Ok (a : A)
| Raise (e : pyexc).

Arguments Ok {A} a.
Arguments Raise {A} e.

Definition bind {A B : Type} (r : result A) (k : A -> result B) : result B :=
  match r with
  | Ok a => k a
  | Raise e => Raise e
  end.

Notation "x <- r ;; k" := (bind r (fun x => k))
  (at level 61, r at next level, right associativity).

(** A value of type [int | str]. *)
Inductive pyarg : Type :=
| PyInt (n : Z)
| PyStr (s : string).

(** [a == n] and [a == s] for an [int | str] value. *)
Definition eq_int (a : pyarg) (n : Z) : bool :=
  match a with
  | PyInt m => m =? n
  | PyStr _ => false
  end.

Definition eq_str (a : pyarg) (s : string) : bool :=
  match a with
  | PyInt _ => false
  | PyStr t => String.eqb t s
  end.

Abbreviation pixel_t := (list Z) (only parsing).
Abbreviation image := (list (list (list Z))) (only parsing).

(** ** Python primitives *)

Definition len {A : Type} (l : list A) : Z := Z.of_nat (List.length l).

(** [l[i]]: negative indices count from the end. *)
Definition index {A : Type} (l : list A) (i : Z) : result A :=
  let j := if i <? 0 then i + len l else i in
  if (j <? 0) || (len l <=? j) then Raise IndexError
  else match nth_error l (Z.to_nat j) with
       | Some a => Ok a
       | None => Raise IndexError
       end.

(** [l[:k]]. *)
Definition slice_to {A : Type} (l : list A) (k : Z) : list A :=
  if k <? 0 then firstn (Z.to_nat (len l + k)) l else firstn (Z.to_nat k) l.

(** [sum(l)]. *)
Definition sum (l : list Z) : Z := fold_left Z.add l 0.

(** [int(v)] for a float [v]. *)
Definition int (v : Q) : Z := Z.quot (Qnum v) (Zpos (Qden v)).

(** [a % b] on integers. *)
Definition pymod (a b : Z) : result Z :=
  if b =? 0 then Raise ZeroDivisionError else Ok (a mod b).

(** [a / b] on integers (true division). *)
Definition truediv (a b : Z) : result Q :=
  if b =? 0 then Raise ZeroDivisionError else Ok (inject_Z a / inject_Z b)%Q.

Definition Qltb (a b : Q) : bool := negb (Qle_bool b a).

(** [range(n)]. *)
Definition range (n : Z) : list Z := map Z.of_nat (seq 0 (Z.to_nat n)).

(** A list comprehension whose body may raise. *)
Fixpoint comprehension {A B : Type} (f : A -> result B) (l : list A)
  : result (list B) :=
  match l with
  | [] => Ok []
  | a :: t => b <- f a ;; bs <- comprehension f t ;; Ok (b :: bs)
  end.

(** [(w,) * n]. *)
Definition tuple_of (w : Q) (n : Z) : list Q := repeat w (Z.to_nat n).

(** [[*map(mul, p, wt)]]: stops at the shorter argument. *)
Fixpoint map_mul (p : list Z) (wt : list Q) : list Q :=
  match p, wt with
  | v :: p', w :: wt' => (inject_Z v * w)%Q :: map_mul p' wt'
  | _, _ => []
  end.

Fixpoint map2 {A B : Type} (f : A -> A -> B) (l1 l2 : list A) : list B :=
  match l1, l2 with
  | a :: t1, b :: t2 => f a b :: map2 f t1 t2
  | _, _ => []
  end.

Fixpoint map3 {A B : Type} (f : A -> A -> A -> B) (l1 l2 l3 : list A)
  : list B :=
  match l1, l2, l3 with
  | a :: t1, b :: t2, c :: t3 => f a b c :: map3 f t1 t2 t3
  | _, _, _ => []
  end.

Fixpoint map4 {A B : Type} (f : A -> A -> A -> A -> B)
  (l1 l2 l3 l4 : list A) : list B :=
  match l1, l2, l3, l4 with
  | a :: t1, b :: t2, c :: t3, d :: t4 => f a b c d :: map4 f t1 t2 t3 t4
  | _, _, _, _ => []
  end.

(** Negative fractional coordinates: the kernels take [int(x) - 1] as the
    lower cell when [x < 0]. *)
Definition lower_cell (x : Q) : Z :=
  if Qle_bool 0 x then int x else int x - 1.

(** ** binary64 arithmetic *)

(** The largest [l] with [2^l <= q], for a positive [q]. *)
Definition Qlog2 (q : Q) : Z :=
  let l := Z.log2 (Qnum q) - Z.log2 (Zpos (Qden q)) in
  if Qle_bool (2 ^ l) q then l else l - 1.

(** The nearest integer, a tie going to the even one. *)
Definition round_even (q : Q) : Z :=
  let f := Qfloor q in
  match (q - inject_Z f ?= 1 # 2)%Q with
  | Lt => f
  | Gt => f + 1
  | Eq => if Z.even f then f else f + 1
  end.

(** The binary64 value nearest to [q], a tie going to the even significand:
    53 significant bits, and no bit below [2^-1074]. *)
Definition binary64 (q : Q) : Q :=
  if Qeq_bool q 0 then 0%Q
  else
    let e := Z.max (Qlog2 (Qabs q) - 52) (-1074) in
    (inject_Z (round_even (q / 2 ^ e)) * 2 ^ e)%Q.

(** An [int] operand of a float operation is converted first. *)
Definition float (v : Z) : Q := binary64 (inject_Z v).

(** [a - b], [a * b], [a + b] on floats; [a / b] on integers. *)
Definition fsub (a b : Q) : Q := binary64 (a - b).
Definition fmul (a b : Q) : Q := binary64 (a * b).
Definition fadd (a b : Q) : Q := binary64 (a + b).
Definition fdiv (a b : Z) : result Q :=
  if b =? 0 then Raise ZeroDivisionError
  else Ok (binary64 (inject_Z a / inject_Z b)).

(** [[*map(mul, p, wt)]] on binary64 weights. *)
Fixpoint map_fmul (p : list Z) (wt : list Q) : list Q :=
  match p, wt with
  | v :: p', w :: wt' => fmul (float v) w :: map_fmul p' wt'
  | _, _ => []
  end.

(** ** imin/__init__.py *)

Module Imin.

(** [src]: whole pixel, nearest neighbour, with the edge modes. *)
Definition src (source_image : image) (x y : Q) (edge : pyarg)
  : result pixel_t :=
  row0 <- index source_image 0 ;;
  px0 <- index row0 0 ;;
  let Y := len source_image in
  let X := len row0 in
  let Zn := len px0 in
  if eq_int edge 1 || eq_str edge "repeat" then
    let cx := Z.min (X - 1) (Z.max 0 (int x)) in
    let cy := Z.min (Y - 1) (Z.max 0 (int y)) in
    row <- index source_image cy ;;
    index row cx
  else if eq_int edge 2 || eq_str edge "wrap" then
    cx <- pymod (int x) X ;;
    cy <- pymod (int y) Y ;;
    row <- index source_image cy ;;
    index row cx
  else
    if Qltb x 0 || Qltb y 0
       || Qltb (inject_Z (X - 1)) x || Qltb (inject_Z (Y - 1)) y
    then Ok (repeat 0 (Z.to_nat Zn))
    else
      row <- index source_image (int y) ;;
      index row (int x).

Definition intaddup4 (a b c d : Q) : Z := int (a + b + c + d)%Q.
Definition intaddup3 (a b c : Q) : Z := int (a + b + c)%Q.

(** [blin]: bilinear interpolation. *)
Definition blin (source_image : image) (x y : Q) (edge : pyarg)
  : result pixel_t :=
  row0 <- index source_image 0 ;;
  px0 <- index row0 0 ;;
  let Zn := len px0 in
  let x0 := lower_cell x in
  let y0 := lower_cell y in
  if Qeq_bool x (inject_Z x0) && Qeq_bool y (inject_Z y0) then
    src source_image (inject_Z x0) (inject_Z y0) edge
  else
    let x1 := x0 + 1 in
    let y1 := y0 + 1 in
    let w00 := ((inject_Z x1 - x) * (inject_Z y1 - y))%Q in
    let w01 := ((inject_Z x1 - x) * (y - inject_Z y0))%Q in
    let w10 := ((x - inject_Z x0) * (inject_Z y1 - y))%Q in
    let w11 := ((x - inject_Z x0) * (y - inject_Z y0))%Q in
    let wt00 := tuple_of w00 Zn in
    let wt01 := tuple_of w01 Zn in
    let wt10 := tuple_of w10 Zn in
    let wt11 := tuple_of w11 Zn in
    p00 <- src source_image (inject_Z x0) (inject_Z y0) edge ;;
    let norm00 := map_mul p00 wt00 in
    p01 <- src source_image (inject_Z x0) (inject_Z y1) edge ;;
    let norm01 := map_mul p01 wt01 in
    p10 <- src source_image (inject_Z x1) (inject_Z y0) edge ;;
    let norm10 := map_mul p10 wt10 in
    p11 <- src source_image (inject_Z x1) (inject_Z y1) edge ;;
    let norm11 := map_mul p11 wt11 in
    Ok (map4 intaddup4 norm00 norm01 norm10 norm11).

(** [baryc]: barycentric interpolation. *)
Definition baryc (source_image : image) (x y : Q) (edge : pyarg)
  : result pixel_t :=
  row0 <- index source_image 0 ;;
  px0 <- index row0 0 ;;
  let Zn := len px0 in
  let Z_COLOR := if (Zn =? 1) || (Zn =? 3) then Zn else Z.min (Zn - 1) 3 in
  let x1 := lower_cell x in
  let y1 := lower_cell y in
  let x2 := x1 + 1 in
  let y2 := y1 in
  let x3 := x2 in
  let y3 := y1 + 1 in
  let x4 := x1 in
  let y4 := y3 in
  p1 <- src source_image (inject_Z x1) (inject_Z y1) edge ;;
  if Qeq_bool x (inject_Z x1) && Qeq_bool y (inject_Z y1) then Ok p1
  else
    p2 <- src source_image (inject_Z x2) (inject_Z y2) edge ;;
    p3 <- src source_image (inject_Z x3) (inject_Z y3) edge ;;
    p4 <- src source_image (inject_Z x4) (inject_Z y4) edge ;;
    if Z.abs (sum (slice_to p1 Z_COLOR) - sum (slice_to p3 Z_COLOR))
       <? Z.abs (sum (slice_to p2 Z_COLOR) - sum (slice_to p4 Z_COLOR))
    then
      if Qltb (x - inject_Z x1) (y - inject_Z y1) then
        let a := (x - inject_Z x1)%Q in
        let b := (inject_Z y4 - y)%Q in
        let c := (1 - (a + b))%Q in
        let norm3 := map_mul p3 (tuple_of a Zn) in
        let norm1 := map_mul p1 (tuple_of b Zn) in
        let norm4 := map_mul p4 (tuple_of c Zn) in
        Ok (map3 intaddup3 norm1 norm3 norm4)
      else
        let a := (inject_Z x2 - x)%Q in
        let b := (y - inject_Z y1)%Q in
        let c := (1 - (a + b))%Q in
        let norm1 := map_mul p1 (tuple_of a Zn) in
        let norm3 := map_mul p3 (tuple_of b Zn) in
        let norm2 := map_mul p2 (tuple_of c Zn) in
        Ok (map3 intaddup3 norm1 norm3 norm2)
    else
      if Qltb (x - inject_Z x1) (inject_Z y3 - y) then
        let a := (x - inject_Z x1)%Q in
        let b := (y - inject_Z y1)%Q in
        let c := (1 - (a + b))%Q in
        let norm2 := map_mul p2 (tuple_of a Zn) in
        let norm4 := map_mul p4 (tuple_of b Zn) in
        let norm1 := map_mul p1 (tuple_of c Zn) in
        Ok (map3 intaddup3 norm1 norm2 norm4)
      else
        let a := (inject_Z x3 - x)%Q in
        let b := (inject_Z y4 - y)%Q in
        let c := (1 - (a + b))%Q in
        let norm4 := map_mul p4 (tuple_of a Zn) in
        let norm2 := map_mul p2 (tuple_of b Zn) in
        let norm3 := map_mul p3 (tuple_of c Zn) in
        Ok (map3 intaddup3 norm2 norm3 norm4).

(** [pixel]: the general entry point. *)
Definition pixel (source_image : image) (x y : Q) (edge method : pyarg)
  : result pixel_t :=
  if eq_int method 1 || eq_str method "bilinear" then
    blin source_image x y edge
  else if eq_int method 2 || eq_str method "barycentric" then
    baryc source_image x y edge
  else if eq_int method 0 || eq_str method "nearest" then
    src source_image x y edge
  else Raise (ValueError "Allowed methods are 0, 1, 2").

End Imin.

(** ** imin/displace.py *)

Module Displace.

(** [_src]: the local copy of the pixel reader. *)
Definition _src (image3d : image) (x y : Q) (edge : pyarg)
  : result pixel_t :=
  row0 <- index image3d 0 ;;
  px0 <- index row0 0 ;;
  let Y := len image3d in
  let X := len row0 in
  let Zn := len px0 in
  if eq_int edge 1 || eq_str edge "repeat" then
    let cx := Z.min (X - 1) (Z.max 0 (int x)) in
    let cy := Z.min (Y - 1) (Z.max 0 (int y)) in
    row <- index image3d cy ;;
    index row cx
  else if eq_int edge 2 || eq_str edge "wrap" then
    cx <- pymod (int x) X ;;
    cy <- pymod (int y) Y ;;
    row <- index image3d cy ;;
    index row cx
  else
    if Qltb x 0 || Qltb y 0
       || Qltb (inject_Z (X - 1)) x || Qltb (inject_Z (Y - 1)) y
    then Ok (repeat 0 (Z.to_nat Zn))
    else
      row <- index image3d (int y) ;;
      index row (int x).

(** [_pixel]: [_src] on the source image of the call, behind [lru_cache]. *)
Definition _pixel (source_image : image) (x y : Z) (edge : pyarg)
  : result pixel_t :=
  _src source_image (inject_Z x) (inject_Z y) edge.

Definition _intaddup4 (a b c d : Q) : Z := int (a + b + c + d)%Q.
Definition _intaddup3 (a b c : Q) : Z := int (a + b + c)%Q.

(** [_blin], local to [bilinear]; [Zn] is the channel count found there. *)
Definition _blin (source_image : image) (Zn : Z) (x y : Q) (edge : pyarg)
  : result pixel_t :=
  let x0 := lower_cell x in
  let y0 := lower_cell y in
  if Qeq_bool x (inject_Z x0) && Qeq_bool y (inject_Z y0) then
    _pixel source_image x0 y0 edge
  else
    let x1 := x0 + 1 in
    let y1 := y0 + 1 in
    let wt00 := tuple_of ((inject_Z x1 - x) * (inject_Z y1 - y))%Q Zn in
    let wt01 := tuple_of ((inject_Z x1 - x) * (y - inject_Z y0))%Q Zn in
    let wt10 := tuple_of ((x - inject_Z x0) * (inject_Z y1 - y))%Q Zn in
    let wt11 := tuple_of ((x - inject_Z x0) * (y - inject_Z y0))%Q Zn in
    p00 <- _pixel source_image x0 y0 edge ;;
    let norm00 := map_mul p00 wt00 in
    p01 <- _pixel source_image x0 y1 edge ;;
    let norm01 := map_mul p01 wt01 in
    p10 <- _pixel source_image x1 y0 edge ;;
    let norm10 := map_mul p10 wt10 in
    p11 <- _pixel source_image x1 y1 edge ;;
    let norm11 := map_mul p11 wt11 in
    Ok (map4 _intaddup4 norm00 norm01 norm10 norm11).

(** [bilinear]: single pass displacement. *)
Definition bilinear (source_image : image) (fx fy : Z -> Z -> Q)
  (XNEW YNEW : Z) (edge : pyarg) : result image :=
  row0 <- index source_image 0 ;;
  px0 <- index row0 0 ;;
  let Zn := len px0 in
  comprehension
    (fun y => comprehension
                (fun x => _blin source_image Zn (fx x y) (fy x y) edge)
                (range XNEW))
    (range YNEW).

(** [_baryc], local to [barycentric]. *)
Definition _baryc (source_image : image) (Zn : Z) (x y : Q) (edge : pyarg)
  : result pixel_t :=
  let Z_COLOR := if (Zn =? 1) || (Zn =? 3) then Zn else Z.min (Zn - 1) 3 in
  let x1 := lower_cell x in
  let y1 := lower_cell y in
  let x2 := x1 + 1 in
  let y2 := y1 in
  let x3 := x2 in
  let y3 := y1 + 1 in
  let x4 := x1 in
  let y4 := y3 in
  p1 <- _pixel source_image x1 y1 edge ;;
  if Qeq_bool x (inject_Z x1) && Qeq_bool y (inject_Z y1) then Ok p1
  else
    p2 <- _pixel source_image x2 y2 edge ;;
    p3 <- _pixel source_image x3 y3 edge ;;
    p4 <- _pixel source_image x4 y4 edge ;;
    if Z.abs (sum (slice_to p1 Z_COLOR) - sum (slice_to p3 Z_COLOR))
       <? Z.abs (sum (slice_to p2 Z_COLOR) - sum (slice_to p4 Z_COLOR))
    then
      if Qltb (x - inject_Z x1) (y - inject_Z y1) then
        let a := (x - inject_Z x1)%Q in
        let b := (inject_Z y4 - y)%Q in
        let c := (1 - (a + b))%Q in
        let norm3 := map_mul p3 (tuple_of a Zn) in
        let norm1 := map_mul p1 (tuple_of b Zn) in
        let norm4 := map_mul p4 (tuple_of c Zn) in
        Ok (map3 _intaddup3 norm1 norm3 norm4)
      else
        let a := (inject_Z x2 - x)%Q in
        let b := (y - inject_Z y1)%Q in
        let c := (1 - (a + b))%Q in
        let norm1 := map_mul p1 (tuple_of a Zn) in
        let norm3 := map_mul p3 (tuple_of b Zn) in
        let norm2 := map_mul p2 (tuple_of c Zn) in
        Ok (map3 _intaddup3 norm1 norm3 norm2)
    else
      if Qltb (x - inject_Z x1) (inject_Z y3 - y) then
        let a := (x - inject_Z x1)%Q in
        let b := (y - inject_Z y1)%Q in
        let c := (1 - (a + b))%Q in
        let norm2 := map_mul p2 (tuple_of a Zn) in
        let norm4 := map_mul p4 (tuple_of b Zn) in
        let norm1 := map_mul p1 (tuple_of c Zn) in
        Ok (map3 _intaddup3 norm1 norm2 norm4)
      else
        let a := (inject_Z x3 - x)%Q in
        let b := (inject_Z y4 - y)%Q in
        let c := (1 - (a + b))%Q in
        let norm4 := map_mul p4 (tuple_of a Zn) in
        let norm2 := map_mul p2 (tuple_of b Zn) in
        let norm3 := map_mul p3 (tuple_of c Zn) in
        Ok (map3 _intaddup3 norm2 norm3 norm4).

(** [barycentric]: single pass displacement. *)
Definition barycentric (source_image : image) (fx fy : Z -> Z -> Q)
  (XNEW YNEW : Z) (edge : pyarg) : result image :=
  row0 <- index source_image 0 ;;
  px0 <- index row0 0 ;;
  let Zn := len px0 in
  comprehension
    (fun y => comprehension
                (fun x => _baryc source_image Zn (fx x y) (fy x y) edge)
                (range XNEW))
    (range YNEW).

(** [displace]: the general entry point. *)
Definition displace (source_image : image) (fx fy : Z -> Z -> Q)
  (XNEW YNEW : Z) (edge method : pyarg) : result image :=
  if eq_int method 1 || eq_str method "bilinear" then
    bilinear source_image fx fy XNEW YNEW edge
  else if eq_int method 2 || eq_str method "barycentric" then
    barycentric source_image fx fy XNEW YNEW edge
  else Raise (ValueError "Allowed methods are 1 and 2").

End Displace.

(** ** imin/rescale.py *)

Module Rescale.

(** [_src]: the local copy of the pixel reader. *)
Definition _src (source_image : image) (x y : Q) (edge : pyarg)
  : result pixel_t :=
  row0 <- index source_image 0 ;;
  px0 <- index row0 0 ;;
  let Y := len source_image in
  let X := len row0 in
  let Zn := len px0 in
  if eq_int edge 1 || eq_str edge "repeat" then
    let cx := Z.min (X - 1) (Z.max 0 (int x)) in
    let cy := Z.min (Y - 1) (Z.max 0 (int y)) in
    row <- index source_image cy ;;
    index row cx
  else if eq_int edge 2 || eq_str edge "wrap" then
    cx <- pymod (int x) X ;;
    cy <- pymod (int y) Y ;;
    row <- index source_image cy ;;
    index row cx
  else
    if Qltb x 0 || Qltb y 0
       || Qltb (inject_Z (X - 1)) x || Qltb (inject_Z (Y - 1)) y
    then Ok (repeat 0 (Z.to_nat Zn))
    else
      row <- index source_image (int y) ;;
      index row (int x).

(** [_pixel_1] reads the source image (behind [lru_cache]), [_pixel_2] the
    intermediate image. *)
Definition _pixel_1 (source_image : image) (x y : Z) (edge : pyarg)
  : result pixel_t :=
  _src source_image (inject_Z x) (inject_Z y) edge.

Definition _pixel_2 (intermediate_image : image) (x y : Z) (edge : pyarg)
  : result pixel_t :=
  _src intermediate_image (inject_Z x) (inject_Z y) edge.

Definition _intaddup2 (a b : Q) : Z := int (a + b)%Q.
Definition _intaddup3 (a b c : Q) : Z := int (a + b + c)%Q.

(** [_xlin]: linear interpolation along x. *)
Definition _xlin (source_image : image) (Zn : Z) (x : Q) (y : Z)
  (edge : pyarg) : result pixel_t :=
  let x0 := lower_cell x in
  let x1 := int x + 1 in
  if Qeq_bool x (inject_Z x0) then _pixel_1 source_image x0 y edge
  else
    let w0 := (inject_Z x1 - x)%Q in
    let w1 := (x - inject_Z x0)%Q in
    let wt0 := tuple_of w0 Zn in
    let wt1 := tuple_of w1 Zn in
    px0 <- _pixel_1 source_image x0 y edge ;;
    px1 <- _pixel_1 source_image x1 y edge ;;
    let norm0 := map_mul px0 wt0 in
    let norm1 := map_mul px1 wt1 in
    Ok (map2 _intaddup2 norm0 norm1).

(** [_ylin]: linear interpolation along y. *)
Definition _ylin (intermediate_image : image) (Zn : Z) (x : Z) (y : Q)
  (edge : pyarg) : result pixel_t :=
  let y0 := lower_cell y in
  let y1 := int y + 1 in
  if Qeq_bool y (inject_Z y0) then _pixel_2 intermediate_image x y0 edge
  else
    let w0 := (inject_Z y1 - y)%Q in
    let w1 := (y - inject_Z y0)%Q in
    let wt0 := tuple_of w0 Zn in
    let wt1 := tuple_of w1 Zn in
    px0 <- _pixel_2 intermediate_image x y0 edge ;;
    px1 <- _pixel_2 intermediate_image x y1 edge ;;
    let norm0 := map_mul px0 wt0 in
    let norm1 := map_mul px1 wt1 in
    Ok (map2 _intaddup2 norm0 norm1).

(** [bilinear]: two subsequent 1D passes. *)
Definition bilinear (source_image : image) (XNEW YNEW : Z) (edge : pyarg)
  : result image :=
  row0 <- index source_image 0 ;;
  px0 <- index row0 0 ;;
  let Y := len source_image in
  let X := len row0 in
  let Zn := len px0 in
  x_resize <- truediv (X - 1) (XNEW - 1) ;;
  y_resize <- truediv (Y - 1) (YNEW - 1) ;;
  intermediate_image <-
    (if XNEW =? X then Ok source_image
     else comprehension
            (fun y => comprehension
                        (fun x => _xlin source_image Zn
                                    (x_resize * inject_Z x)%Q y edge)
                        (range XNEW))
            (range Y)) ;;
  if YNEW =? Y then Ok intermediate_image
  else comprehension
         (fun y => comprehension
                     (fun x => _ylin intermediate_image Zn x
                                 (y_resize * inject_Z y)%Q edge)
                     (range XNEW))
         (range YNEW).

(** [_pixel]: [_src] on the source image, behind [lru_cache]. *)
Definition _pixel (source_image : image) (x y : Z) (edge : pyarg)
  : result pixel_t :=
  _src source_image (inject_Z x) (inject_Z y) edge.

(** [_baryc], local to [barycentric]. *)
Definition _baryc (source_image : image) (Zn : Z) (x y : Q) (edge : pyarg)
  : result pixel_t :=
  let Z_COLOR := if (Zn =? 1) || (Zn =? 3) then Zn else Z.min (Zn - 1) 3 in
  let x1 := lower_cell x in
  let y1 := lower_cell y in
  let x2 := x1 + 1 in
  let y2 := y1 in
  let x3 := x2 in
  let y3 := y1 + 1 in
  let x4 := x1 in
  let y4 := y3 in
  p1 <- _pixel source_image x1 y1 edge ;;
  if Qeq_bool x (inject_Z x1) && Qeq_bool y (inject_Z y1) then Ok p1
  else
    p2 <- _pixel source_image x2 y2 edge ;;
    p3 <- _pixel source_image x3 y3 edge ;;
    p4 <- _pixel source_image x4 y4 edge ;;
    if Z.abs (sum (slice_to p1 Z_COLOR) - sum (slice_to p3 Z_COLOR))
       <? Z.abs (sum (slice_to p2 Z_COLOR) - sum (slice_to p4 Z_COLOR))
    then
      if Qltb (x - inject_Z x1) (y - inject_Z y1) then
        let a := (x - inject_Z x1)%Q in
        let b := (inject_Z y4 - y)%Q in
        let c := (1 - (a + b))%Q in
        let norm3 := map_mul p3 (tuple_of a Zn) in
        let norm1 := map_mul p1 (tuple_of b Zn) in
        let norm4 := map_mul p4 (tuple_of c Zn) in
        Ok (map3 _intaddup3 norm1 norm3 norm4)
      else
        let a := (inject_Z x2 - x)%Q in
        let b := (y - inject_Z y1)%Q in
        let c := (1 - (a + b))%Q in
        let norm1 := map_mul p1 (tuple_of a Zn) in
        let norm3 := map_mul p3 (tuple_of b Zn) in
        let norm2 := map_mul p2 (tuple_of c Zn) in
        Ok (map3 _intaddup3 norm1 norm3 norm2)
    else
      if Qltb (x - inject_Z x1) (inject_Z y3 - y) then
        let a := (x - inject_Z x1)%Q in
        let b := (y - inject_Z y1)%Q in
        let c := (1 - (a + b))%Q in
        let norm2 := map_mul p2 (tuple_of a Zn) in
        let norm4 := map_mul p4 (tuple_of b Zn) in
        let norm1 := map_mul p1 (tuple_of c Zn) in
        Ok (map3 _intaddup3 norm1 norm2 norm4)
      else
        let a := (inject_Z x3 - x)%Q in
        let b := (inject_Z y4 - y)%Q in
        let c := (1 - (a + b))%Q in
        let norm4 := map_mul p4 (tuple_of a Zn) in
        let norm2 := map_mul p2 (tuple_of b Zn) in
        let norm3 := map_mul p3 (tuple_of c Zn) in
        Ok (map3 _intaddup3 norm2 norm3 norm4).

(** [barycentric]: single pass rescaling. *)
Definition barycentric (source_image : image) (XNEW YNEW : Z) (edge : pyarg)
  : result image :=
  row0 <- index source_image 0 ;;
  px0 <- index row0 0 ;;
  let Y := len source_image in
  let X := len row0 in
  let Zn := len px0 in
  x_resize <- truediv (X - 1) (XNEW - 1) ;;
  y_resize <- truediv (Y - 1) (YNEW - 1) ;;
  comprehension
    (fun y => comprehension
                (fun x => _baryc source_image Zn (x_resize * inject_Z x)%Q
                            (y_resize * inject_Z y)%Q edge)
                (range XNEW))
    (range YNEW).

(** [rescale]: the general entry point. *)
Definition rescale (source_image : image) (XNEW YNEW : Z)
  (edge method : pyarg) : result image :=
  if eq_int method 1 || eq_str method "bilinear" then
    bilinear source_image XNEW YNEW edge
  else if eq_int method 2 || eq_str method "barycentric" then
    barycentric source_image XNEW YNEW edge
  else Raise (ValueError "Allowed methods are 1 and 2").

End Rescale.

(** ** imin/__init__.py in binary64 *)

Module Imin64.

Definition intaddup4 (a b c d : Q) : Z := int (fadd (fadd (fadd a b) c) d).
Definition intaddup3 (a b c : Q) : Z := int (fadd (fadd a b) c).

(** [blin]: every float operation rounded. *)
Definition blin (source_image : image) (x y : Q) (edge : pyarg)
  : result pixel_t :=
  row0 <- index source_image 0 ;;
  px0 <- index row0 0 ;;
  let Zn := len px0 in
  let x0 := lower_cell x in
  let y0 := lower_cell y in
  if Qeq_bool x (inject_Z x0) && Qeq_bool y (inject_Z y0) then
    Imin.src source_image (inject_Z x0) (inject_Z y0) edge
  else
    let x1 := x0 + 1 in
    let y1 := y0 + 1 in
    let w00 := fmul (fsub (float x1) x) (fsub (float y1) y) in
    let w01 := fmul (fsub (float x1) x) (fsub y (float y0)) in
    let w10 := fmul (fsub x (float x0)) (fsub (float y1) y) in
    let w11 := fmul (fsub x (float x0)) (fsub y (float y0)) in
    let wt00 := tuple_of w00 Zn in
    let wt01 := tuple_of w01 Zn in
    let wt10 := tuple_of w10 Zn in
    let wt11 := tuple_of w11 Zn in
    p00 <- Imin.src source_image (inject_Z x0) (inject_Z y0) edge ;;
    let norm00 := map_fmul p00 wt00 in
    p01 <- Imin.src source_image (inject_Z x0) (inject_Z y1) edge ;;
    let norm01 := map_fmul p01 wt01 in
    p10 <- Imin.src source_image (inject_Z x1) (inject_Z y0) edge ;;
    let norm10 := map_fmul p10 wt10 in
    p11 <- Imin.src source_image (inject_Z x1) (inject_Z y1) edge ;;
    let norm11 := map_fmul p11 wt11 in
    Ok (map4 intaddup4 norm00 norm01 norm10 norm11).

(** [baryc]: every float operation rounded. *)
Definition baryc (source_image : image) (x y : Q) (edge : pyarg)
  : result pixel_t :=
  row0 <- index source_image 0 ;;
  px0 <- index row0 0 ;;
  let Zn := len px0 in
  let Z_COLOR := if (Zn =? 1) || (Zn =? 3) then Zn else Z.min (Zn - 1) 3 in
  let x1 := lower_cell x in
  let y1 := lower_cell y in
  let x2 := x1 + 1 in
  let y2 := y1 in
  let x3 := x2 in
  let y3 := y1 + 1 in
  let x4 := x1 in
  let y4 := y3 in
  p1 <- Imin.src source_image (inject_Z x1) (inject_Z y1) edge ;;
  if Qeq_bool x (inject_Z x1) && Qeq_bool y (inject_Z y1) then Ok p1
  else
    p2 <- Imin.src source_image (inject_Z x2) (inject_Z y2) edge ;;
    p3 <- Imin.src source_image (inject_Z x3) (inject_Z y3) edge ;;
    p4 <- Imin.src source_image (inject_Z x4) (inject_Z y4) edge ;;
    if Z.abs (sum (slice_to p1 Z_COLOR) - sum (slice_to p3 Z_COLOR))
       <? Z.abs (sum (slice_to p2 Z_COLOR) - sum (slice_to p4 Z_COLOR))
    then
      if Qltb (fsub x (float x1)) (fsub y (float y1)) then
        let a := fsub x (float x1) in
        let b := fsub (float y4) y in
        let c := fsub 1 (fadd a b) in
        let norm3 := map_fmul p3 (tuple_of a Zn) in
        let norm1 := map_fmul p1 (tuple_of b Zn) in
        let norm4 := map_fmul p4 (tuple_of c Zn) in
        Ok (map3 intaddup3 norm1 norm3 norm4)
      else
        let a := fsub (float x2) x in
        let b := fsub y (float y1) in
        let c := fsub 1 (fadd a b) in
        let norm1 := map_fmul p1 (tuple_of a Zn) in
        let norm3 := map_fmul p3 (tuple_of b Zn) in
        let norm2 := map_fmul p2 (tuple_of c Zn) in
        Ok (map3 intaddup3 norm1 norm3 norm2)
    else
      if Qltb (fsub x (float x1)) (fsub (float y3) y) then
        let a := fsub x (float x1) in
        let b := fsub y (float y1) in
        let c := fsub 1 (fadd a b) in
        let norm2 := map_fmul p2 (tuple_of a Zn) in
        let norm4 := map_fmul p4 (tuple_of b Zn) in
        let norm1 := map_fmul p1 (tuple_of c Zn) in
        Ok (map3 intaddup3 norm1 norm2 norm4)
      else
        let a := fsub (float x3) x in
        let b := fsub (float y4) y in
        let c := fsub 1 (fadd a b) in
        let norm4 := map_fmul p4 (tuple_of a Zn) in
        let norm2 := map_fmul p2 (tuple_of b Zn) in
        let norm3 := map_fmul p3 (tuple_of c Zn) in
        Ok (map3 intaddup3 norm2 norm3 norm4).

(** [pixel]: the general entry point. *)
Definition pixel (source_image : image) (x y : Q) (edge method : pyarg)
  : result pixel_t :=
  if eq_int method 1 || eq_str method "bilinear" then
    blin source_image x y edge
  else if eq_int method 2 || eq_str method "barycentric" then
    baryc source_image x y edge
  else if eq_int method 0 || eq_str method "nearest" then
    Imin.src source_image x y edge
  else Raise (ValueError "Allowed methods are 0, 1, 2").

End Imin64.

(** ** imin/displace.py in binary64 *)

Module Displace64.

Definition _intaddup4 (a b c d : Q) : Z := int (fadd (fadd (fadd a b) c) d).
Definition _intaddup3 (a b c : Q) : Z := int (fadd (fadd a b) c).

(** [_blin], local to [bilinear]. *)
Definition _blin (source_image : image) (Zn : Z) (x y : Q) (edge : pyarg)
  : result pixel_t :=
  let x0 := lower_cell x in
  let y0 := lower_cell y in
  if Qeq_bool x (inject_Z x0) && Qeq_bool y (inject_Z y0) then
    Displace._pixel source_image x0 y0 edge
  else
    let x1 := x0 + 1 in
    let y1 := y0 + 1 in
    let wt00 := tuple_of (fmul (fsub (float x1) x) (fsub (float y1) y)) Zn in
    let wt01 := tuple_of (fmul (fsub (float x1) x) (fsub y (float y0))) Zn in
    let wt10 := tuple_of (fmul (fsub x (float x0)) (fsub (float y1) y)) Zn in
    let wt11 := tuple_of (fmul (fsub x (float x0)) (fsub y (float y0))) Zn in
    p00 <- Displace._pixel source_image x0 y0 edge ;;
    let norm00 := map_fmul p00 wt00 in
    p01 <- Displace._pixel source_image x0 y1 edge ;;
    let norm01 := map_fmul p01 wt01 in
    p10 <- Displace._pixel source_image x1 y0 edge ;;
    let norm10 := map_fmul p10 wt10 in
    p11 <- Displace._pixel source_image x1 y1 edge ;;
    let norm11 := map_fmul p11 wt11 in
    Ok (map4 _intaddup4 norm00 norm01 norm10 norm11).

(** [bilinear]: single pass displacement. *)
Definition bilinear (source_image : image) (fx fy : Z -> Z -> Q)
  (XNEW YNEW : Z) (edge : pyarg) : result image :=
  row0 <- index source_image 0 ;;
  px0 <- index row0 0 ;;
  let Zn := len px0 in
  comprehension
    (fun y => comprehension
                (fun x => _blin source_image Zn (fx x y) (fy x y) edge)
                (range XNEW))
    (range YNEW).

(** [_baryc], local to [barycentric]. *)
Definition _baryc (source_image : image) (Zn : Z) (x y : Q) (edge : pyarg)
  : result pixel_t :=
  let Z_COLOR := if (Zn =? 1) || (Zn =? 3) then Zn else Z.min (Zn - 1) 3 in
  let x1 := lower_cell x in
  let y1 := lower_cell y in
  let x2 := x1 + 1 in
  let y2 := y1 in
  let x3 := x2 in
  let y3 := y1 + 1 in
  let x4 := x1 in
  let y4 := y3 in
  p1 <- Displace._pixel source_image x1 y1 edge ;;
  if Qeq_bool x (inject_Z x1) && Qeq_bool y (inject_Z y1) then Ok p1
  else
    p2 <- Displace._pixel source_image x2 y2 edge ;;
    p3 <- Displace._pixel source_image x3 y3 edge ;;
    p4 <- Displace._pixel source_image x4 y4 edge ;;
    if Z.abs (sum (slice_to p1 Z_COLOR) - sum (slice_to p3 Z_COLOR))
       <? Z.abs (sum (slice_to p2 Z_COLOR) - sum (slice_to p4 Z_COLOR))
    then
      if Qltb (fsub x (float x1)) (fsub y (float y1)) then
        let a := fsub x (float x1) in
        let b := fsub (float y4) y in
        let c := fsub 1 (fadd a b) in
        let norm3 := map_fmul p3 (tuple_of a Zn) in
        let norm1 := map_fmul p1 (tuple_of b Zn) in
        let norm4 := map_fmul p4 (tuple_of c Zn) in
        Ok (map3 _intaddup3 norm1 norm3 norm4)
      else
        let a := fsub (float x2) x in
        let b := fsub y (float y1) in
        let c := fsub 1 (fadd a b) in
        let norm1 := map_fmul p1 (tuple_of a Zn) in
        let norm3 := map_fmul p3 (tuple_of b Zn) in
        let norm2 := map_fmul p2 (tuple_of c Zn) in
        Ok (map3 _intaddup3 norm1 norm3 norm2)
    else
      if Qltb (fsub x (float x1)) (fsub (float y3) y) then
        let a := fsub x (float x1) in
        let b := fsub y (float y1) in
        let c := fsub 1 (fadd a b) in
        let norm2 := map_fmul p2 (tuple_of a Zn) in
        let norm4 := map_fmul p4 (tuple_of b Zn) in
        let norm1 := map_fmul p1 (tuple_of c Zn) in
        Ok (map3 _intaddup3 norm1 norm2 norm4)
      else
        let a := fsub (float x3) x in
        let b := fsub (float y4) y in
        let c := fsub 1 (fadd a b) in
        let norm4 := map_fmul p4 (tuple_of a Zn) in
        let norm2 := map_fmul p2 (tuple_of b Zn) in
        let norm3 := map_fmul p3 (tuple_of c Zn) in
        Ok (map3 _intaddup3 norm2 norm3 norm4).

(** [barycentric]: single pass displacement. *)
Definition barycentric (source_image : image) (fx fy : Z -> Z -> Q)
  (XNEW YNEW : Z) (edge : pyarg) : result image :=
  row0 <- index source_image 0 ;;
  px0 <- index row0 0 ;;
  let Zn := len px0 in
  comprehension
    (fun y => comprehension
                (fun x => _baryc source_image Zn (fx x y) (fy x y) edge)
                (range XNEW))
    (range YNEW).

(** [displace]: the general entry point. *)
Definition displace (source_image : image) (fx fy : Z -> Z -> Q)
  (XNEW YNEW : Z) (edge method : pyarg) : result image :=
  if eq_int method 1 || eq_str method "bilinear" then
    bilinear source_image fx fy XNEW YNEW edge
  else if eq_int method 2 || eq_str method "barycentric" then
    barycentric source_image fx fy XNEW YNEW edge
  else Raise (ValueError "Allowed methods are 1 and 2").

End Displace64.

(** ** imin/rescale.py in binary64 *)

Module Rescale64.

Definition _intaddup2 (a b : Q) : Z := int (fadd a b).
Definition _intaddup3 (a b c : Q) : Z := int (fadd (fadd a b) c).

(** [_xlin]: linear interpolation along x. *)
Definition _xlin (source_image : image) (Zn : Z) (x : Q) (y : Z)
  (edge : pyarg) : result pixel_t :=
  let x0 := lower_cell x in
  let x1 := int x + 1 in
  if Qeq_bool x (inject_Z x0) then Rescale._pixel_1 source_image x0 y edge
  else
    let w0 := fsub (float x1) x in
    let w1 := fsub x (float x0) in
    let wt0 := tuple_of w0 Zn in
    let wt1 := tuple_of w1 Zn in
    px0 <- Rescale._pixel_1 source_image x0 y edge ;;
    px1 <- Rescale._pixel_1 source_image x1 y edge ;;
    let norm0 := map_fmul px0 wt0 in
    let norm1 := map_fmul px1 wt1 in
    Ok (map2 _intaddup2 norm0 norm1).

(** [_ylin]: linear interpolation along y. *)
Definition _ylin (intermediate_image : image) (Zn : Z) (x : Z) (y : Q)
  (edge : pyarg) : result pixel_t :=
  let y0 := lower_cell y in
  let y1 := int y + 1 in
  if Qeq_bool y (inject_Z y0) then
    Rescale._pixel_2 intermediate_image x y0 edge
  else
    let w0 := fsub (float y1) y in
    let w1 := fsub y (float y0) in
    let wt0 := tuple_of w0 Zn in
    let wt1 := tuple_of w1 Zn in
    px0 <- Rescale._pixel_2 intermediate_image x y0 edge ;;
    px1 <- Rescale._pixel_2 intermediate_image x y1 edge ;;
    let norm0 := map_fmul px0 wt0 in
    let norm1 := map_fmul px1 wt1 in
    Ok (map2 _intaddup2 norm0 norm1).

(** [bilinear]: two subsequent 1D passes. *)
Definition bilinear (source_image : image) (XNEW YNEW : Z) (edge : pyarg)
  : result image :=
  row0 <- index source_image 0 ;;
  px0 <- index row0 0 ;;
  let Y := len source_image in
  let X := len row0 in
  let Zn := len px0 in
  x_resize <- fdiv (X - 1) (XNEW - 1) ;;
  y_resize <- fdiv (Y - 1) (YNEW - 1) ;;
  intermediate_image <-
    (if XNEW =? X then Ok source_image
     else comprehension
            (fun y => comprehension
                        (fun x => _xlin source_image Zn
                                    (fmul x_resize (float x)) y edge)
                        (range XNEW))
            (range Y)) ;;
  if YNEW =? Y then Ok intermediate_image
  else comprehension
         (fun y => comprehension
                     (fun x => _ylin intermediate_image Zn x
                                 (fmul y_resize (float y)) edge)
                     (range XNEW))
         (range YNEW).

(** [_baryc], local to [barycentric]. *)
Definition _baryc (source_image : image) (Zn : Z) (x y : Q) (edge : pyarg)
  : result pixel_t :=
  let Z_COLOR := if (Zn =? 1) || (Zn =? 3) then Zn else Z.min (Zn - 1) 3 in
  let x1 := lower_cell x in
  let y1 := lower_cell y in
  let x2 := x1 + 1 in
  let y2 := y1 in
  let x3 := x2 in
  let y3 := y1 + 1 in
  let x4 := x1 in
  let y4 := y3 in
  p1 <- Rescale._pixel source_image x1 y1 edge ;;
  if Qeq_bool x (inject_Z x1) && Qeq_bool y (inject_Z y1) then Ok p1
  else
    p2 <- Rescale._pixel source_image x2 y2 edge ;;
    p3 <- Rescale._pixel source_image x3 y3 edge ;;
    p4 <- Rescale._pixel source_image x4 y4 edge ;;
    if Z.abs (sum (slice_to p1 Z_COLOR) - sum (slice_to p3 Z_COLOR))
       <? Z.abs (sum (slice_to p2 Z_COLOR) - sum (slice_to p4 Z_COLOR))
    then
      if Qltb (fsub x (float x1)) (fsub y (float y1)) then
        let a := fsub x (float x1) in
        let b := fsub (float y4) y in
        let c := fsub 1 (fadd a b) in
        let norm3 := map_fmul p3 (tuple_of a Zn) in
        let norm1 := map_fmul p1 (tuple_of b Zn) in
        let norm4 := map_fmul p4 (tuple_of c Zn) in
        Ok (map3 _intaddup3 norm1 norm3 norm4)
      else
        let a := fsub (float x2) x in
        let b := fsub y (float y1) in
        let c := fsub 1 (fadd a b) in
        let norm1 := map_fmul p1 (tuple_of a Zn) in
        let norm3 := map_fmul p3 (tuple_of b Zn) in
        let norm2 := map_fmul p2 (tuple_of c Zn) in
        Ok (map3 _intaddup3 norm1 norm3 norm2)
    else
      if Qltb (fsub x (float x1)) (fsub (float y3) y) then
        let a := fsub x (float x1) in
        let b := fsub y (float y1) in
        let c := fsub 1 (fadd a b) in
        let norm2 := map_fmul p2 (tuple_of a Zn) in
        let norm4 := map_fmul p4 (tuple_of b Zn) in
        let norm1 := map_fmul p1 (tuple_of c Zn) in
        Ok (map3 _intaddup3 norm1 norm2 norm4)
      else
        let a := fsub (float x3) x in
        let b := fsub (float y4) y in
        let c := fsub 1 (fadd a b) in
        let norm4 := map_fmul p4 (tuple_of a Zn) in
        let norm2 := map_fmul p2 (tuple_of b Zn) in
        let norm3 := map_fmul p3 (tuple_of c Zn) in
        Ok (map3 _intaddup3 norm2 norm3 norm4).

(** [barycentric]: single pass rescaling. *)
Definition barycentric (source_image : image) (XNEW YNEW : Z) (edge : pyarg)
  : result image :=
  row0 <- index source_image 0 ;;
  px0 <- index row0 0 ;;
  let Y := len source_image in
  let X := len row0 in
  let Zn := len px0 in
  x_resize <- fdiv (X - 1) (XNEW - 1) ;;
  y_resize <- fdiv (Y - 1) (YNEW - 1) ;;
  comprehension
    (fun y => comprehension
                (fun x => _baryc source_image Zn (fmul x_resize (float x))
                            (fmul y_resize (float y)) edge)
                (range XNEW))
    (range YNEW).

(** [rescale]: the general entry point. *)
Definition rescale (source_image : image) (XNEW YNEW : Z)
  (edge method : pyarg) : result image :=
  if eq_int method 1 || eq_str method "bilinear" then
    bilinear source_image XNEW YNEW edge
  else if eq_int method 2 || eq_str method "barycentric" then
    barycentric source_image XNEW YNEW edge
  else Raise (ValueError "Allowed methods are 1 and 2").

End Rescale64.

(** ** scalers/bilinear.py *)

Module Scalers_bilinear.

(** [pixel]: whole pixel, nearest neighbour; the edge is an [int]. *)
Definition pixel (image3d : image) (x y : Q) (edge : pyarg)
  : result pixel_t :=
  row0 <- index image3d 0 ;;
  px0 <- index row0 0 ;;
  let Y := len image3d in
  let X := len row0 in
  let Zn := len px0 in
  if eq_int edge 1 then
    let cx := Z.min (X - 1) (Z.max 0 (int x)) in
    let cy := Z.min (Y - 1) (Z.max 0 (int y)) in
    row <- index image3d cy ;;
    index row cx
  else if eq_int edge 2 then
    cx <- pymod (int x) X ;;
    cy <- pymod (int y) Y ;;
    row <- index image3d cy ;;
    index row cx
  else
    if Qltb x 0 || Qltb y 0
       || Qltb (inject_Z (X - 1)) x || Qltb (inject_Z (Y - 1)) y
    then Ok (repeat 0 (Z.to_nat Zn))
    else
      row <- index image3d (int y) ;;
      index row (int x).

Definition intaddup4 (a b c d : Q) : Z := int (a + b + c + d)%Q.

(** [blin]: bilinear interpolation. *)
Definition blin (image3d : image) (x y : Q) (edge : pyarg)
  : result pixel_t :=
  row0 <- index image3d 0 ;;
  px0 <- index row0 0 ;;
  let Zn := len px0 in
  let x0 := lower_cell x in
  let y0 := lower_cell y in
  if Qeq_bool x (inject_Z x0) && Qeq_bool y (inject_Z y0) then
    pixel image3d (inject_Z x0) (inject_Z y0) edge
  else
    let x1 := x0 + 1 in
    let y1 := y0 + 1 in
    let wt00 := tuple_of ((inject_Z x1 - x) * (inject_Z y1 - y))%Q Zn in
    let wt01 := tuple_of ((inject_Z x1 - x) * (y - inject_Z y0))%Q Zn in
    let wt10 := tuple_of ((x - inject_Z x0) * (inject_Z y1 - y))%Q Zn in
    let wt11 := tuple_of ((x - inject_Z x0) * (y - inject_Z y0))%Q Zn in
    p00 <- pixel image3d (inject_Z x0) (inject_Z y0) edge ;;
    let norm00 := map_mul p00 wt00 in
    p01 <- pixel image3d (inject_Z x0) (inject_Z y1) edge ;;
    let norm01 := map_mul p01 wt01 in
    p10 <- pixel image3d (inject_Z x1) (inject_Z y0) edge ;;
    let norm10 := map_mul p10 wt10 in
    p11 <- pixel image3d (inject_Z x1) (inject_Z y1) edge ;;
    let norm11 := map_mul p11 wt11 in
    Ok (map4 intaddup4 norm00 norm01 norm10 norm11).

(** [_pixel_1] reads the source image (behind [lru_cache]), [_pixel_2] the
    intermediate image. *)
Definition _pixel_1 (source_image : image) (x y : Z) (edge : pyarg)
  : result pixel_t :=
  pixel source_image (inject_Z x) (inject_Z y) edge.

Definition _pixel_2 (intermediate_image : image) (x y : Z) (edge : pyarg)
  : result pixel_t :=
  pixel intermediate_image (inject_Z x) (inject_Z y) edge.

Definition _intaddup2 (a b : Q) : Z := int (a + b)%Q.

(** [_xlin]: linear interpolation along x. *)
Definition _xlin (source_image : image) (Zn : Z) (x : Q) (y : Z)
  (edge : pyarg) : result pixel_t :=
  let x0 := lower_cell x in
  let x1 := int x + 1 in
  if Qeq_bool x (inject_Z x0) then _pixel_1 source_image x0 y edge
  else
    let w0 := (inject_Z x1 - x)%Q in
    let w1 := (x - inject_Z x0)%Q in
    let wt0 := tuple_of w0 Zn in
    let wt1 := tuple_of w1 Zn in
    px0 <- _pixel_1 source_image x0 y edge ;;
    px1 <- _pixel_1 source_image x1 y edge ;;
    let norm0 := map_mul px0 wt0 in
    let norm1 := map_mul px1 wt1 in
    Ok (map2 _intaddup2 norm0 norm1).

(** [_ylin]: linear interpolation along y. *)
Definition _ylin (intermediate_image : image) (Zn : Z) (x : Z) (y : Q)
  (edge : pyarg) : result pixel_t :=
  let y0 := lower_cell y in
  let y1 := int y + 1 in
  if Qeq_bool y (inject_Z y0) then _pixel_2 intermediate_image x y0 edge
  else
    let w0 := (inject_Z y1 - y)%Q in
    let w1 := (y - inject_Z y0)%Q in
    let wt0 := tuple_of w0 Zn in
    let wt1 := tuple_of w1 Zn in
    px0 <- _pixel_2 intermediate_image x y0 edge ;;
    px1 <- _pixel_2 intermediate_image x y1 edge ;;
    let norm0 := map_mul px0 wt0 in
    let norm1 := map_mul px1 wt1 in
    Ok (map2 _intaddup2 norm0 norm1).

(** [scale]: two subsequent 1D passes. *)
Definition scale (source_image : image) (XNEW YNEW : Z) (edge : pyarg)
  : result image :=
  row0 <- index source_image 0 ;;
  px0 <- index row0 0 ;;
  let Y := len source_image in
  let X := len row0 in
  let Zn := len px0 in
  x_resize <- truediv (X - 1) (XNEW - 1) ;;
  y_resize <- truediv (Y - 1) (YNEW - 1) ;;
  intermediate_image <-
    (if XNEW =? X then Ok source_image
     else comprehension
            (fun y => comprehension
                        (fun x => _xlin source_image Zn
                                    (x_resize * inject_Z x)%Q y edge)
                        (range XNEW))
            (range Y)) ;;
  if YNEW =? Y then Ok intermediate_image
  else comprehension
         (fun y => comprehension
                     (fun x => _ylin intermediate_image Zn x
                                 (y_resize * inject_Z y)%Q edge)
                     (range XNEW))
         (range YNEW).

End Scalers_bilinear.

(** ** scalers/barycentric.py *)

Module Scalers_barycentric.

(** [pixel]: whole pixel, nearest neighbour; the edge is an [int]. *)
Definition pixel (image3d : image) (x y : Q) (edge : pyarg)
  : result pixel_t :=
  row0 <- index image3d 0 ;;
  px0 <- index row0 0 ;;
  let Y := len image3d in
  let X := len row0 in
  let Zn := len px0 in
  if eq_int edge 1 then
    let cx := Z.min (X - 1) (Z.max 0 (int x)) in
    let cy := Z.min (Y - 1) (Z.max 0 (int y)) in
    row <- index image3d cy ;;
    index row cx
  else if eq_int edge 2 then
    cx <- pymod (int x) X ;;
    cy <- pymod (int y) Y ;;
    row <- index image3d cy ;;
    index row cx
  else
    if Qltb x 0 || Qltb y 0
       || Qltb (inject_Z (X - 1)) x || Qltb (inject_Z (Y - 1)) y
    then Ok (repeat 0 (Z.to_nat Zn))
    else
      row <- index image3d (int y) ;;
      index row (int x).

Definition intaddup3 (a b c : Q) : Z := int (a + b + c)%Q.

(** [baryc]: barycentric interpolation. *)
Definition baryc (image3d : image) (x y : Q) (edge : pyarg)
  : result pixel_t :=
  row0 <- index image3d 0 ;;
  px0 <- index row0 0 ;;
  let Zn := len px0 in
  let Z_COLOR := if (Zn =? 1) || (Zn =? 3) then Zn else Z.min (Zn - 1) 3 in
  let x1 := lower_cell x in
  let y1 := lower_cell y in
  let x2 := x1 + 1 in
  let y2 := y1 in
  let x3 := x2 in
  let y3 := y1 + 1 in
  let x4 := x1 in
  let y4 := y3 in
  p1 <- pixel image3d (inject_Z x1) (inject_Z y1) edge ;;
  if Qeq_bool x (inject_Z x1) && Qeq_bool y (inject_Z y1) then Ok p1
  else
    p2 <- pixel image3d (inject_Z x2) (inject_Z y2) edge ;;
    p3 <- pixel image3d (inject_Z x3) (inject_Z y3) edge ;;
    p4 <- pixel image3d (inject_Z x4) (inject_Z y4) edge ;;
    if Z.abs (sum (slice_to p1 Z_COLOR) - sum (slice_to p3 Z_COLOR))
       <? Z.abs (sum (slice_to p2 Z_COLOR) - sum (slice_to p4 Z_COLOR))
    then
      if Qltb (x - inject_Z x1) (y - inject_Z y1) then
        let a := (x - inject_Z x1)%Q in
        let b := (inject_Z y4 - y)%Q in
        let c := (1 - (a + b))%Q in
        let norm3 := map_mul p3 (tuple_of a Zn) in
        let norm1 := map_mul p1 (tuple_of b Zn) in
        let norm4 := map_mul p4 (tuple_of c Zn) in
        Ok (map3 intaddup3 norm1 norm3 norm4)
      else
        let a := (inject_Z x2 - x)%Q in
        let b := (y - inject_Z y1)%Q in
        let c := (1 - (a + b))%Q in
        let norm1 := map_mul p1 (tuple_of a Zn) in
        let norm3 := map_mul p3 (tuple_of b Zn) in
        let norm2 := map_mul p2 (tuple_of c Zn) in
        Ok (map3 intaddup3 norm1 norm3 norm2)
    else
      if Qltb (x - inject_Z x1) (inject_Z y3 - y) then
        let a := (x - inject_Z x1)%Q in
        let b := (y - inject_Z y1)%Q in
        let c := (1 - (a + b))%Q in
        let norm2 := map_mul p2 (tuple_of a Zn) in
        let norm4 := map_mul p4 (tuple_of b Zn) in
        let norm1 := map_mul p1 (tuple_of c Zn) in
        Ok (map3 intaddup3 norm1 norm2 norm4)
      else
        let a := (inject_Z x3 - x)%Q in
        let b := (inject_Z y4 - y)%Q in
        let c := (1 - (a + b))%Q in
        let norm4 := map_mul p4 (tuple_of a Zn) in
        let norm2 := map_mul p2 (tuple_of b Zn) in
        let norm3 := map_mul p3 (tuple_of c Zn) in
        Ok (map3 intaddup3 norm2 norm3 norm4).

Definition _intaddup3 (a b c : Q) : Z := int (a + b + c)%Q.

(** [_pixel]: [pixel] on the source image, behind [lru_cache]. *)
Definition _pixel (source_image : image) (x y : Z) (edge : pyarg)
  : result pixel_t :=
  pixel source_image (inject_Z x) (inject_Z y) edge.

(** [_baryc], local to [barycentric]. *)
Definition _baryc (source_image : image) (Zn : Z) (x y : Q) (edge : pyarg)
  : result pixel_t :=
  let Z_COLOR := if (Zn =? 1) || (Zn =? 3) then Zn else Z.min (Zn - 1) 3 in
  let x1 := lower_cell x in
  let y1 := lower_cell y in
  let x2 := x1 + 1 in
  let y2 := y1 in
  let x3 := x2 in
  let y3 := y1 + 1 in
  let x4 := x1 in
  let y4 := y3 in
  p1 <- _pixel source_image x1 y1 edge ;;
  if Qeq_bool x (inject_Z x1) && Qeq_bool y (inject_Z y1) then Ok p1
  else
    p2 <- _pixel source_image x2 y2 edge ;;
    p3 <- _pixel source_image x3 y3 edge ;;
    p4 <- _pixel source_image x4 y4 edge ;;
    if Z.abs (sum (slice_to p1 Z_COLOR) - sum (slice_to p3 Z_COLOR))
       <? Z.abs (sum (slice_to p2 Z_COLOR) - sum (slice_to p4 Z_COLOR))
    then
      if Qltb (x - inject_Z x1) (y - inject_Z y1) then
        let a := (x - inject_Z x1)%Q in
        let b := (inject_Z y4 - y)%Q in
        let c := (1 - (a + b))%Q in
        let norm3 := map_mul p3 (tuple_of a Zn) in
        let norm1 := map_mul p1 (tuple_of b Zn) in
        let norm4 := map_mul p4 (tuple_of c Zn) in
        Ok (map3 _intaddup3 norm1 norm3 norm4)
      else
        let a := (inject_Z x2 - x)%Q in
        let b := (y - inject_Z y1)%Q in
        let c := (1 - (a + b))%Q in
        let norm1 := map_mul p1 (tuple_of a Zn) in
        let norm3 := map_mul p3 (tuple_of b Zn) in
        let norm2 := map_mul p2 (tuple_of c Zn) in
        Ok (map3 _intaddup3 norm1 norm3 norm2)
    else
      if Qltb (x - inject_Z x1) (inject_Z y3 - y) then
        let a := (x - inject_Z x1)%Q in
        let b := (y - inject_Z y1)%Q in
        let c := (1 - (a + b))%Q in
        let norm2 := map_mul p2 (tuple_of a Zn) in
        let norm4 := map_mul p4 (tuple_of b Zn) in
        let norm1 := map_mul p1 (tuple_of c Zn) in
        Ok (map3 _intaddup3 norm1 norm2 norm4)
      else
        let a := (inject_Z x3 - x)%Q in
        let b := (inject_Z y4 - y)%Q in
        let c := (1 - (a + b))%Q in
        let norm4 := map_mul p4 (tuple_of a Zn) in
        let norm2 := map_mul p2 (tuple_of b Zn) in
        let norm3 := map_mul p3 (tuple_of c Zn) in
        Ok (map3 _intaddup3 norm2 norm3 norm4).

(** [scale]: single pass rescaling. *)
Definition scale (source_image : image) (XNEW YNEW : Z) (edge : pyarg)
  : result image :=
  row0 <- index source_image 0 ;;
  px0 <- index row0 0 ;;
  let Y := len source_image in
  let X := len row0 in
  let Zn := len px0 in
  x_resize <- truediv (X - 1) (XNEW - 1) ;;
  y_resize <- truediv (Y - 1) (YNEW - 1) ;;
  comprehension
    (fun y => comprehension
                (fun x => _baryc source_image Zn (x_resize * inject_Z x)%Q
                            (y_resize * inject_Z y)%Q edge)
                (range XNEW))
    (range YNEW).

End Scalers_barycentric.

(** ** pypng/pnglpng.py *)

Module Pnglpng.

(** A value of the [info] dictionary:
    [int | bool | tuple | list[tuple]]. *)
Inductive info_value : Type :=
| IInt (n : Z)
| IBool (b : bool)
| ITuple (t : list Z)
| IList (l : list (list Z)).

(** The [info] dictionary, in insertion order. *)
Abbreviation info_dict := (list (string * info_value)) (only parsing).

(** [k in d]. *)
Fixpoint dict_in (k : string) (d : info_dict) : bool :=
  match d with
  | [] => false
  | (k', _) :: t => String.eqb k' k || dict_in k t
  end.

(** [d[k]] as a lookup. *)
Fixpoint dict_get (k : string) (d : info_dict) : option info_value :=
  match d with
  | [] => None
  | (k', v) :: t => if String.eqb k' k then Some v else dict_get k t
  end.

(** [d[k] = v]: the value of a present key is replaced in place, a new key
    goes to the end. *)
Fixpoint dict_set (k : string) (v : info_value) (d : info_dict) : info_dict :=
  match d with
  | [] => [(k, v)]
  | (k', v') :: t =>
      if String.eqb k' k then (k', v) :: t else (k', v') :: dict_set k v t
  end.

(** [del d[k]], used on present keys only. *)
Fixpoint dict_del (k : string) (d : info_dict) : info_dict :=
  match d with
  | [] => []
  | (k', v') :: t => if String.eqb k' k then t else (k', v') :: dict_del k t
  end.

(** The outcome of [png2list], which can also leave [maxcolors] unbound. *)
Inductive outcome (A : Type) : Type :=
| Returned (a : A)
| Raised (e : pyexc)
| RaisedUnboundLocalError (name : string).

Arguments Returned {A} a.
Arguments Raised {A} e.
Arguments RaisedUnboundLocalError {A} name.

(** [png2list], from the point where [source.asDirect()] has returned [X],
    [Y], the rows [pixels] and an [info] whose entries ['planes'] and
    ['bitdepth'] are the integers [planes] and [bitdepth].  The result is
    [(X, Y, Z, maxcolors, list_3d)]; [info] is returned as it came. *)
Definition png2list (X Y : Z) (pixels : list (list Z)) (planes bitdepth : Z)
  : outcome (Z * Z * Z * Z * image) :=
  let Zn := planes in
  let maxcolors :=
    if bitdepth =? 1 then Some 1
    else if bitdepth =? 8 then Some 255
    else if bitdepth =? 16 then Some 65535
    else None in
  let imagedata := pixels in
  match
    comprehension
      (fun y => comprehension
                  (fun x => comprehension
                              (fun z => row <- index imagedata y ;;
                                        index row (x * Zn + z))
                              (range Zn))
                  (range X))
      (range Y)
  with
  | Raise e => Raised e
  | Ok list_3d =>
      match maxcolors with
      | Some m => Returned (X, Y, Zn, m, list_3d)
      | None => RaisedUnboundLocalError "maxcolors"
      end
  end.

(** [flatten_2d], local to [list2png]: the rows handed to the writer. *)
Definition flatten_2d (list_3d : image) (X Y Zn : Z) : result (list (list Z)) :=
  comprehension
    (fun y => comprehension
                (fun xz => row <- index list_3d y ;;
                           px <- index row (fst xz) ;;
                           index px (snd xz))
                (list_prod (range X) (range Zn)))
    (range Y).

(** What [list2png] hands to [png.Writer(X, Y, **info)] and to its [write]
    method; [info] is the dictionary of the caller after the call. *)
Record written : Type := {
  writer_X : Z;
  writer_Y : Z;
  writer_info : info_dict;
  writer_rows : list (list Z)
}.

(** [list2png], up to the calls of the PyPNG writer. *)
Definition list2png (list_3d : image) (info : info_dict) : result written :=
  row0 <- index list_3d 0 ;;
  px0 <- index row0 0 ;;
  let Y := len list_3d in
  let X := len row0 in
  let Zn := len px0 in
  let Zn := Z.min Zn 4 in
  let info := dict_set "size" (ITuple [X; Y]) info in
  let info := dict_set "planes" (IInt Zn) info in
  let info := if dict_in "palette" info then dict_del "palette" info else info in
  let info :=
    if dict_in "background" info then dict_del "background" info else info in
  let info :=
    if Zn mod 2 =? 1 then dict_set "alpha" (IBool false) info
    else dict_set "alpha" (IBool true) info in
  let info :=
    if Zn <? 3 then dict_set "greyscale" (IBool true) info
    else dict_set "greyscale" (IBool false) info in
  rows <- flatten_2d list_3d X Y Zn ;;
  Ok {| writer_X := X; writer_Y := Y; writer_info := info;
        writer_rows := rows |}.

(** [create_image]: a zero-filled image. *)
Definition create_image (X Y Zn : Z) : image :=
  map (fun y => map (fun x => map (fun z => 0) (range Zn)) (range X)) (range Y).

End Pnglpng.

(** ** Vocabulary of the specification *)

(** Image sizes as every function of the package determines them. *)
Definition height (img : image) : Z := len img.
Definition width (img : image) : Z := len (hd [] img).
Definition channels (img : image) : Z := len (hd [] (hd [] img)).

(** The shape invariant: [Y] rows of [X] pixels of [Zn] channels. *)
Definition has_shape (img : image) (Y X Zn : Z) : bool :=
  (len img =? Y)
  && forallb (fun row => (len row =? X) && forallb (fun px => len px =? Zn) row)
       img.

(** A source image: rectangular and with at least one row, column and
    channel. *)
Definition well_formed (img : image) : bool :=
  (1 <=? height img) && (1 <=? width img) && (1 <=? channels img)
  && has_shape img (height img) (width img) (channels img).

(** The image has a first pixel, so that its sizes can be determined. *)
Definition has_pixel (img : image) : bool :=
  match img with
  | (_ :: _) :: _ => true
  | _ => false
  end.

(** The pixel stored at column [cx] of row [cy]. *)
Definition source_pixel (img : image) (cx cy : Z) : pixel_t :=
  nth (Z.to_nat cx) (nth (Z.to_nat cy) img []) [].

Definition zeros (n : Z) : pixel_t := repeat 0 (Z.to_nat n).

(** The edge modes and methods as the [if] chains recognise them. *)
Definition is_repeat (edge : pyarg) : bool :=
  eq_int edge 1 || eq_str edge "repeat".
Definition is_wrap (edge : pyarg) : bool :=
  eq_int edge 2 || eq_str edge "wrap".
Definition is_zero (edge : pyarg) : bool :=
  negb (is_repeat edge) && negb (is_wrap edge).

Definition is_bilinear (method : pyarg) : bool :=
  eq_int method 1 || eq_str method "bilinear".
Definition is_barycentric (method : pyarg) : bool :=
  eq_int method 2 || eq_str method "barycentric".
Definition is_nearest (method : pyarg) : bool :=
  eq_int method 0 || eq_str method "nearest".

(** Methods accepted by [pixel], and by [displace] and [rescale]. *)
Definition pixel_method (method : pyarg) : bool :=
  is_bilinear method || is_barycentric method || is_nearest method.
Definition driver_method (method : pyarg) : bool :=
  is_bilinear method || is_barycentric method.

(** The EdgeSampler of the specification: the pixel reader at an integer
    coordinate. *)
Definition sample (img : image) (x y : Z) (edge : pyarg) : result pixel_t :=
  Imin.src img (inject_Z x) (inject_Z y) edge.

(** A coordinate outside [0, W-1] x [0, H-1]. *)
Definition outside (img : image) (x y : Q) : bool :=
  Qltb x 0 || Qltb y 0
  || Qltb (inject_Z (width img - 1)) x || Qltb (inject_Z (height img - 1)) y.

(** No cell of the 2 x 2 neighbourhood of [(x, y)] lies in the image: both
    of its columns or both of its rows are outside. *)
Definition neighbourhood_outside (img : image) (x y : Q) : bool :=
  (lower_cell x + 1 <? 0) || (width img - 1 <? lower_cell x)
  || (lower_cell y + 1 <? 0) || (height img - 1 <? lower_cell y).

(** An exact hit of the lower corner, as the kernels test it. *)
Definition direct_hit (x y : Q) : bool :=
  Qeq_bool x (inject_Z (lower_cell x)) && Qeq_bool y (inject_Z (lower_cell y)).

(** The four weights of the bilinear kernel at [(x, y)]. *)
Definition blin_weights (x y : Q) : Q * Q * Q * Q :=
  let x0 := lower_cell x in
  let y0 := lower_cell y in
  let x1 := x0 + 1 in
  let y1 := y0 + 1 in
  (((inject_Z x1 - x) * (inject_Z y1 - y))%Q,
   ((inject_Z x1 - x) * (y - inject_Z y0))%Q,
   ((x - inject_Z x0) * (inject_Z y1 - y))%Q,
   ((x - inject_Z x0) * (y - inject_Z y0))%Q).

(** The blend of four corner pixels with four weights. *)
Definition blend4 (Zn : Z) (p00 p01 p10 p11 : pixel_t) (w : Q * Q * Q * Q)
  : pixel_t :=
  let '(w00, w01, w10, w11) := w in
  map4 Imin.intaddup4
    (map_mul p00 (tuple_of w00 Zn)) (map_mul p01 (tuple_of w01 Zn))
    (map_mul p10 (tuple_of w10 Zn)) (map_mul p11 (tuple_of w11 Zn)).

(** The four corners the barycentric kernel reads, clockwise from the
    lower cell: 1 = (x1, y1), 2 = (x1+1, y1), 3 = (x1+1, y1+1),
    4 = (x1, y1+1). *)
Definition corners (img : image) (x y : Q) (edge : pyarg)
  : result (pixel_t * pixel_t * pixel_t * pixel_t) :=
  let x1 := lower_cell x in
  let y1 := lower_cell y in
  p1 <- sample img x1 y1 edge ;;
  p2 <- sample img (x1 + 1) y1 edge ;;
  p3 <- sample img (x1 + 1) (y1 + 1) edge ;;
  p4 <- sample img x1 (y1 + 1) edge ;;
  Ok (p1, p2, p3, p4).

(** Number of colour channels, alpha excluded. *)
Definition Z_COLOR (Zn : Z) : Z :=
  if (Zn =? 1) || (Zn =? 3) then Zn else Z.min (Zn - 1) 3.

(** The two absolute differences the barycentric kernel compares. *)
Definition diff_13 (Zn : Z) (p1 p3 : pixel_t) : Z :=
  Z.abs (sum (slice_to p1 (Z_COLOR Zn)) - sum (slice_to p3 (Z_COLOR Zn))).
Definition diff_24 (Zn : Z) (p2 p4 : pixel_t) : Z :=
  Z.abs (sum (slice_to p2 (Z_COLOR Zn)) - sum (slice_to p4 (Z_COLOR Zn))).

(** The square folded along the 1-3 diagonal: triangle 1-3-4 below it,
    triangle 1-2-3 above it. *)
Definition fold_13 (Zn : Z) (p1 p2 p3 p4 : pixel_t) (x y : Q) : pixel_t :=
  let x1 := lower_cell x in
  let y1 := lower_cell y in
  let x2 := x1 + 1 in
  let y4 := y1 + 1 in
  if Qltb (x - inject_Z x1) (y - inject_Z y1) then
    let a := (x - inject_Z x1)%Q in
    let b := (inject_Z y4 - y)%Q in
    let c := (1 - (a + b))%Q in
    map3 Imin.intaddup3 (map_mul p1 (tuple_of b Zn))
      (map_mul p3 (tuple_of a Zn)) (map_mul p4 (tuple_of c Zn))
  else
    let a := (inject_Z x2 - x)%Q in
    let b := (y - inject_Z y1)%Q in
    let c := (1 - (a + b))%Q in
    map3 Imin.intaddup3 (map_mul p1 (tuple_of a Zn))
      (map_mul p3 (tuple_of b Zn)) (map_mul p2 (tuple_of c Zn)).

(** The square folded along the 2-4 diagonal: triangle 1-2-4 above it,
    triangle 2-3-4 below it. *)
Definition fold_24 (Zn : Z) (p1 p2 p3 p4 : pixel_t) (x y : Q) : pixel_t :=
  let x1 := lower_cell x in
  let y1 := lower_cell y in
  let x3 := x1 + 1 in
  let y3 := y1 + 1 in
  if Qltb (x - inject_Z x1) (inject_Z y3 - y) then
    let a := (x - inject_Z x1)%Q in
    let b := (y - inject_Z y1)%Q in
    let c := (1 - (a + b))%Q in
    map3 Imin.intaddup3 (map_mul p1 (tuple_of c Zn))
      (map_mul p2 (tuple_of a Zn)) (map_mul p4 (tuple_of b Zn))
  else
    let a := (inject_Z x3 - x)%Q in
    let b := (inject_Z y3 - y)%Q in
    let c := (1 - (a + b))%Q in
    map3 Imin.intaddup3 (map_mul p2 (tuple_of b Zn))
      (map_mul p3 (tuple_of c Zn)) (map_mul p4 (tuple_of a Zn)).

(** The pixel the reader resolves a coordinate to, on a well-formed image. *)
Definition resolve (img : image) (x y : Q) (edge : pyarg) : pixel_t :=
  if is_repeat edge then
    source_pixel img (Z.min (width img - 1) (Z.max 0 (int x)))
      (Z.min (height img - 1) (Z.max 0 (int y)))
  else if is_wrap edge then
    source_pixel img (int x mod width img) (int y mod height img)
  else if outside img x y then zeros (channels img)
  else source_pixel img (int x) (int y).

(** Example images. *)
Definition img22 : image := [[[0]; [100]]; [[200]; [255]]].
Definition img_tie : image := [[[0]; [150]]; [[50]; [100]]].
Definition img12 : image := [[[10]; [20]]].
Definition img11 : image := [[[100]]].
Definition img_flat : image := [[[7; 9]; [7; 9]]; [[7; 9]; [7; 9]]].

(** ** Vocabulary of the further properties *)

(** Every sample of a pixel, and of an image, lies in [0, M]. *)
Definition within (M : Z) (p : pixel_t) : bool :=
  forallb (fun v => (0 <=? v) && (v <=? M)) p.

Definition samples_within (M : Z) (img : image) : bool :=
  forallb (forallb (within M)) img.

(** The cell of a coordinate moved into [0, n-1] and then floored. *)
Definition clamped_cell (n : Z) (v : Q) : Z :=
  if Qltb v 0 then 0
  else if Qltb (inject_Z (n - 1)) v then n - 1
  else Qfloor v.

(** Every pixel of the image is [p]. *)
Definition pixel_eqb (p q : pixel_t) : bool :=
  if list_eq_dec Z.eq_dec p q then true else false.

Definition uniform (p : pixel_t) (img : image) : bool :=
  forallb (forallb (pixel_eqb p)) img.

(** The keys of a dictionary are distinct. *)
Fixpoint distinct_keys (d : list (string * Pnglpng.info_value)) : bool :=
  match d with
  | [] => true
  | (k, _) :: t => negb (Pnglpng.dict_in k t) && distinct_keys t
  end.

(** An image cut to its first four channels. *)
Definition first_four (img : image) : image :=
  map (map (firstn 4)) img.

(** Example images and dictionaries. *)
Definition img_rgba5 : image :=
  [[[1; 2; 3; 4; 5]; [6; 7; 8; 9; 10]]; [[11; 12; 13; 14; 15]; [16; 17; 18; 19; 20]]].
Definition info_example : list (string * Pnglpng.info_value) :=
  [("bitdepth"%string, Pnglpng.IInt 8);
   ("palette"%string, Pnglpng.IList [[0; 0; 0]; [255; 255; 255]]);
   ("planes"%string, Pnglpng.IInt 1);
   ("gamma"%string, Pnglpng.IInt 2)].

(** ** Vocabulary of binary64 arithmetic *)

(** A binary64 value: [m * 2^k] with a significand below [2^53]. *)
Definition representable (q : Q) : Prop :=
  exists m k : Z, (q == inject_Z m * 2 ^ k)%Q /\ Z.abs m < 2 ^ 53 /\ -1074 <= k.

(** The four weights as [Imin64.blin] computes them. *)
Definition blin_weights64 (x y : Q) : Q * Q * Q * Q :=
  let x0 := lower_cell x in
  let y0 := lower_cell y in
  let x1 := x0 + 1 in
  let y1 := y0 + 1 in
  (fmul (fsub (float x1) x) (fsub (float y1) y),
   fmul (fsub (float x1) x) (fsub y (float y0)),
   fmul (fsub x (float x0)) (fsub (float y1) y),
   fmul (fsub x (float x0)) (fsub y (float y0))).

(** The blend of four corner pixels as [Imin64.blin] computes it. *)
Definition blend4_64 (Zn : Z) (p00 p01 p10 p11 : pixel_t) (w : Q * Q * Q * Q)
  : pixel_t :=
  let '(w00, w01, w10, w11) := w in
  map4 Imin64.intaddup4
    (map_fmul p00 (tuple_of w00 Zn)) (map_fmul p01 (tuple_of w01 Zn))
    (map_fmul p10 (tuple_of w10 Zn)) (map_fmul p11 (tuple_of w11 Zn)).

(** Every sample of the pixel has a magnitude of at most [B]. *)
Definition magnitude (B : Z) (p : pixel_t) : bool :=
  forallb (fun v => Z.abs v <=? B) p.

(** A weight of a blend: at most 2 and not below -2^-47, the most that
    rounding can take the third weight of a triangle below 0. *)
Definition weight (w : Q) : Prop :=
  (- (1 # 140737488355328) <= w <= 2)%Q.

(** The weights of a blend add up to 1 within 2^-46. *)
Definition unit_sum (W : Q) : Prop :=
  (1 - (1 # 70368744177664) <= W <= 1 + (1 # 70368744177664))%Q.

(** A sample between [lo] and [hi], with [0 <= lo] and [hi <= 2^32]. *)
Definition tap (lo hi v : Z) : Prop :=
  0 <= lo /\ lo <= v <= hi /\ hi <= 2 ^ 32.

(** [q] is [p] with every sample kept or lowered by one. *)
Fixpoint close_below (p q : pixel_t) : bool :=
  match p, q with
  | [], [] => true
  | v :: p', r :: q' => (v - 1 <=? r) && (r <=? v) && close_below p' q'
  | _, _ => false
  end.

(** * Properties *)

(** ** Arithmetic of [int] and [lower_cell] *)

Lemma int_nonneg (v : Q) : (0 <= v)%Q -> int v = Qfloor v.
Proof.
  destruct v as [n d]. unfold Qle, int, Qfloor. simpl. intros H.
  apply Z.quot_div_nonneg; lia.
Qed.

Lemma int_nonpos (v : Q) : (v <= 0)%Q -> int v = Qceiling v.
Proof.
  destruct v as [n d]. unfold Qle, int, Qceiling, Qfloor. simpl. intros H.
  replace n with (- (- n)) at 1 by lia.
  rewrite Z.quot_opp_l by lia. f_equal.
  apply Z.quot_div_nonneg; lia.
Qed.

Lemma int_Qeq (v w : Q) : (v == w)%Q -> int v = int w.
Proof.
  intros E. destruct (Qlt_le_dec v 0) as [L | L].
  - rewrite !int_nonpos.
    + now rewrite E.
    + rewrite <- E. now apply Qlt_le_weak.
    + now apply Qlt_le_weak.
  - rewrite !int_nonneg; trivial.
    + now rewrite E.
    + now rewrite <- E.
Qed.

Lemma int_inject_Z (n : Z) : int (inject_Z n) = n.
Proof. unfold int. simpl. apply Z.quot_1_r. Qed.

Lemma Qltb_lt (a b : Q) : Qltb a b = true <-> (a < b)%Q.
Proof.
  unfold Qltb. rewrite negb_true_iff, <- not_true_iff_false, Qle_bool_iff.
  split; [apply Qnot_le_lt | apply Qlt_not_le].
Qed.

Lemma Qltb_ge (a b : Q) : Qltb a b = false <-> (b <= a)%Q.
Proof.
  unfold Qltb. rewrite negb_false_iff. apply Qle_bool_iff.
Qed.

Lemma lower_cell_nonneg (v : Q) : (0 <= v)%Q -> lower_cell v = Qfloor v.
Proof.
  intros H. unfold lower_cell.
  rewrite (proj2 (Qle_bool_iff 0 v) H). now apply int_nonneg.
Qed.

Lemma lower_cell_neg (v : Q) : (v < 0)%Q -> lower_cell v = Qceiling v - 1.
Proof.
  intros H. unfold lower_cell.
  destruct (Qle_bool 0 v) eqn:E.
  - apply Qle_bool_iff in E. exfalso. now apply (Qlt_not_le _ _ H).
  - rewrite int_nonpos; trivial. now apply Qlt_le_weak.
Qed.

Lemma lower_cell_Qeq (v w : Q) : (v == w)%Q -> lower_cell v = lower_cell w.
Proof.
  intros E. unfold lower_cell. rewrite (int_Qeq _ _ E).
  destruct (Qle_bool 0 v) eqn:A, (Qle_bool 0 w) eqn:B; trivial.
  - apply Qle_bool_iff in A. rewrite E in A. apply Qle_bool_iff in A. congruence.
  - apply Qle_bool_iff in B. rewrite <- E in B. apply Qle_bool_iff in B. congruence.
Qed.

Lemma lower_cell_inject_Z (n : Z) : 0 <= n -> lower_cell (inject_Z n) = n.
Proof.
  intros H. unfold lower_cell. rewrite int_inject_Z.
  replace (Qle_bool 0 (inject_Z n)) with true; trivial.
  symmetry. apply Qle_bool_iff. unfold Qle. simpl. lia.
Qed.

(** ** Lists, indexing and comprehensions *)

Lemma len_nonneg {A : Type} (l : list A) : 0 <= len l.
Proof. unfold len. lia. Qed.

Lemma len_length {A : Type} (l : list A) (n : Z) :
  len l = n -> List.length l = Z.to_nat n.
Proof. unfold len. lia. Qed.

Lemma index_nth {A : Type} (l : list A) (i : Z) (d : A) :
  0 <= i < len l -> index l i = Ok (nth (Z.to_nat i) l d).
Proof.
  intros H. unfold index.
  destruct (Z.ltb_spec i 0) as [L | L]; [lia |].
  destruct (Z.ltb_spec i 0); [lia |].
  destruct (Z.leb_spec (len l) i); [lia |]. simpl.
  destruct (nth_error l (Z.to_nat i)) eqn:E.
  - now rewrite (nth_error_nth _ _ d E).
  - apply nth_error_None in E. unfold len in H. lia.
Qed.

Lemma index_In {A : Type} (l : list A) (i : Z) (a : A) :
  index l i = Ok a -> In a l.
Proof.
  unfold index.
  destruct (_ || _); [discriminate |].
  destruct (nth_error l _) eqn:E; [| discriminate].
  intros H. injection H as <-. eapply nth_error_In, E.
Qed.

Lemma comprehension_ext {A B : Type} (f : A -> result B) (g : A -> B)
  (l : list A) :
  (forall a, In a l -> f a = Ok (g a)) -> comprehension f l = Ok (map g l).
Proof.
  induction l as [| a t IH]; intros H; simpl; trivial.
  rewrite (H a) by now left. simpl.
  rewrite IH; trivial. intros b Hb. apply H. now right.
Qed.

Lemma comprehension_total {A B : Type} (f : A -> result B) (l : list A) :
  (forall a, In a l -> exists b, f a = Ok b) ->
  exists out, comprehension f l = Ok out.
Proof.
  induction l as [| a t IH]; intros H; simpl.
  - now exists [].
  - destruct (H a) as [b Hb]; [now left |]. rewrite Hb. simpl.
    destruct IH as [bs Hbs]; [intros c Hc; apply H; now right |].
    rewrite Hbs. simpl. now exists (b :: bs).
Qed.

Lemma comprehension_Forall {A B : Type} (f : A -> result B) (P : B -> Prop)
  (l : list A) (out : list B) :
  (forall a b, In a l -> f a = Ok b -> P b) ->
  comprehension f l = Ok out ->
  List.length out = List.length l /\ Forall P out.
Proof.
  revert out. induction l as [| a t IH]; intros out H; simpl.
  - intros E. injection E as <-. split; trivial.
  - destruct (f a) as [b | e] eqn:Eb; simpl; [| discriminate].
    destruct (comprehension f t) as [bs | e] eqn:Ebs; simpl; [| discriminate].
    intros E. injection E as <-.
    destruct (IH bs) as [L F]; trivial.
    + intros c d Hc. apply H. now right.
    + split; [simpl; now rewrite L |].
      constructor; trivial. apply (H a); trivial. now left.
Qed.

Lemma length_range (n : Z) : List.length (range n) = Z.to_nat n.
Proof. unfold range. now rewrite length_map, length_seq. Qed.

Lemma in_range (n i : Z) : In i (range n) <-> 0 <= i < n.
Proof.
  unfold range. rewrite in_map_iff. split.
  - intros [k [<- H]]. apply in_seq in H. lia.
  - intros H. exists (Z.to_nat i). split; [lia |]. apply in_seq. lia.
Qed.

Lemma map_nth_range {A : Type} (l : list A) (d : A) :
  map (fun i => nth (Z.to_nat i) l d) (range (len l)) = l.
Proof.
  unfold range, len. rewrite Nat2Z.id, map_map.
  apply nth_ext with (d := d) (d' := d).
  - now rewrite length_map, length_seq.
  - intros k Hk. rewrite length_map, length_seq in Hk.
    rewrite (nth_indep _ d (nth (Z.to_nat (Z.of_nat 0)) l d)).
    + rewrite (map_nth (fun j => nth (Z.to_nat (Z.of_nat j)) l d)).
      rewrite seq_nth by trivial. now rewrite Nat2Z.id.
    + now rewrite length_map, length_seq.
Qed.

Lemma length_map_mul (p : list Z) (w : Q) (n : nat) :
  List.length p = n -> List.length (map_mul p (repeat w n)) = n.
Proof.
  revert n. induction p as [| v p IH]; intros n H; simpl in *; subst; trivial.
  simpl. now rewrite IH.
Qed.

Lemma length_map2 {A B : Type} (f : A -> A -> B) (n : nat) (l1 l2 : list A) :
  List.length l1 = n -> List.length l2 = n ->
  List.length (map2 f l1 l2) = n.
Proof.
  revert l1 l2. induction n as [| n IH]; intros [| a l1] [| b l2];
    simpl; try discriminate; trivial.
  intros H1 H2. f_equal. apply IH; congruence.
Qed.

Lemma length_map3 {A B : Type} (f : A -> A -> A -> B) (n : nat)
  (l1 l2 l3 : list A) :
  List.length l1 = n -> List.length l2 = n -> List.length l3 = n ->
  List.length (map3 f l1 l2 l3) = n.
Proof.
  revert l1 l2 l3. induction n as [| n IH]; intros [| a l1] [| b l2] [| c l3];
    simpl; try discriminate; trivial.
  intros H1 H2 H3. f_equal. apply IH; congruence.
Qed.

Lemma length_map4 {A B : Type} (f : A -> A -> A -> A -> B) (n : nat)
  (l1 l2 l3 l4 : list A) :
  List.length l1 = n -> List.length l2 = n -> List.length l3 = n ->
  List.length l4 = n -> List.length (map4 f l1 l2 l3 l4) = n.
Proof.
  revert l1 l2 l3 l4.
  induction n as [| n IH]; intros [| a l1] [| b l2] [| c l3] [| d l4];
    simpl; try discriminate; trivial.
  intros H1 H2 H3 H4. f_equal. apply IH; congruence.
Qed.

(** ** Well-formed images and the pixel reader *)

Lemma index_head {A : Type} (a : A) (l : list A) : index (a :: l) 0 = Ok a.
Proof.
  rewrite (index_nth _ _ a); trivial.
  unfold len. simpl List.length. lia.
Qed.

Lemma has_shape_spec (img : image) (Y X Zn : Z) :
  has_shape img Y X Zn = true <->
  len img = Y /\
  Forall (fun row => len row = X /\ Forall (fun px => len px = Zn) row) img.
Proof.
  unfold has_shape. rewrite andb_true_iff, Z.eqb_eq, forallb_forall, Forall_forall.
  split; intros [H1 H2]; split; trivial; intros row Hrow.
  - specialize (H2 row Hrow). rewrite andb_true_iff, Z.eqb_eq, forallb_forall in H2.
    destruct H2 as [H2 H3]. split; trivial.
    apply Forall_forall. intros px Hpx. apply Z.eqb_eq. now apply H3.
  - destruct (H2 row Hrow) as [H3 H4].
    rewrite andb_true_iff, Z.eqb_eq, forallb_forall. split; trivial.
    intros px Hpx. apply Z.eqb_eq. revert px Hpx. now apply Forall_forall.
Qed.

Lemma well_formed_spec (img : image) :
  well_formed img = true <->
  1 <= height img /\ 1 <= width img /\ 1 <= channels img /\
  Forall (fun row => len row = width img /\
                     Forall (fun px => len px = channels img) row) img.
Proof.
  unfold well_formed. rewrite !andb_true_iff, !Z.leb_le, has_shape_spec.
  unfold height. tauto.
Qed.

Lemma well_formed_first (img : image) :
  well_formed img = true ->
  exists px0 pxs rows, img = (px0 :: pxs) :: rows.
Proof.
  intros H. apply well_formed_spec in H. destruct H as (_ & HX & _ & _).
  destruct img as [| [| px0 pxs] rows]; unfold width, len in HX; simpl in HX;
    try lia.
  now exists px0, pxs, rows.
Qed.

Lemma read_source_pixel (img : image) (cx cy : Z) :
  well_formed img = true ->
  0 <= cx < width img -> 0 <= cy < height img ->
  (row <- index img cy ;; index row cx) = Ok (source_pixel img cx cy) /\
  len (source_pixel img cx cy) = channels img.
Proof.
  intros H Hx Hy. apply well_formed_spec in H. destruct H as (_ & _ & _ & F).
  rewrite Forall_forall in F.
  rewrite (index_nth img cy []) by exact Hy. unfold bind.
  assert (I : In (nth (Z.to_nat cy) img []) img).
  { apply nth_In. unfold height, len in Hy. lia. }
  destruct (F _ I) as [W P]. rewrite Forall_forall in P.
  unfold source_pixel. split.
  - apply index_nth. rewrite W. exact Hx.
  - apply P. apply nth_In. unfold len in W. lia.
Qed.

Lemma int_between (v : Q) (n : Z) :
  (0 <= v)%Q -> (v <= inject_Z n)%Q -> 0 <= int v <= n.
Proof.
  intros L U. rewrite int_nonneg by trivial. split.
  - change 0 with (Qfloor 0). now apply Qfloor_resp_le.
  - rewrite <- (Qfloor_Z n). now apply Qfloor_resp_le.
Qed.

Lemma outside_false (img : image) (x y : Q) :
  outside img x y = false <->
  (0 <= x)%Q /\ (x <= inject_Z (width img - 1))%Q /\
  (0 <= y)%Q /\ (y <= inject_Z (height img - 1))%Q.
Proof.
  unfold outside. rewrite !orb_false_iff, !Qltb_ge. tauto.
Qed.

Lemma len_zeros (n : Z) : 0 <= n -> len (zeros n) = n.
Proof. intros H. unfold zeros, len. rewrite repeat_length. lia. Qed.

(** On a well-formed image the reader never raises: it returns the pixel
    [resolve] describes, with the channel count of the image. *)
Lemma src_resolve (img : image) (x y : Q) (edge : pyarg) :
  well_formed img = true ->
  Imin.src img x y edge = Ok (resolve img x y edge) /\
  len (resolve img x y edge) = channels img.
Proof.
  intros H. pose proof (read_source_pixel img) as R.
  pose proof H as H'. apply well_formed_spec in H'.
  destruct H' as (HY & HX & HZ & _).
  destruct (well_formed_first img H) as (px0 & pxs & rows & E).
  unfold Imin.src, resolve.
  replace (index img 0) with (Ok (px0 :: pxs)) by (subst img; now rewrite index_head).
  cbv beta iota delta [bind]. rewrite index_head.
  replace (len (px0 :: pxs)) with (width img) by now subst img.
  replace (len px0) with (channels img) by now subst img.
  fold (height img). fold (is_repeat edge). fold (is_wrap edge).
  fold (outside img x y). fold (zeros (channels img)).
  destruct (is_repeat edge); [apply R; trivial; lia |].
  destruct (is_wrap edge).
  - unfold pymod.
    destruct (Z.eqb_spec (width img) 0); [lia |].
    destruct (Z.eqb_spec (height img) 0); [lia |].
    cbv beta iota delta [bind].
    apply R; trivial; apply Z.mod_pos_bound; lia.
  - destruct (outside img x y) eqn:O.
    + split; trivial. apply len_zeros. lia.
    + apply outside_false in O. destruct O as (A & B & C & D).
      apply R; trivial.
      * pose proof (int_between x _ A B). lia.
      * pose proof (int_between y _ C D). lia.
Qed.

Lemma Displace_src_eq : Displace._src = Imin.src.
Proof. reflexivity. Qed.

Lemma Rescale_src_eq : Rescale._src = Imin.src.
Proof. reflexivity. Qed.

(** ** The kernels in terms of the pixels they read *)

Lemma sample_first_pixel (img : image) (x y : Z) (edge : pyarg) (p : pixel_t) :
  sample img x y edge = Ok p ->
  exists px0 pxs rows, img = (px0 :: pxs) :: rows.
Proof.
  destruct img as [| [| px0 pxs] rows]; unfold sample, Imin.src.
  - discriminate.
  - rewrite index_head. discriminate.
  - intros _. now exists px0, pxs, rows.
Qed.

Lemma corners_inv (img : image) (x y : Q) (edge : pyarg)
  (p1 p2 p3 p4 : pixel_t) :
  corners img x y edge = Ok (p1, p2, p3, p4) ->
  sample img (lower_cell x) (lower_cell y) edge = Ok p1 /\
  sample img (lower_cell x + 1) (lower_cell y) edge = Ok p2 /\
  sample img (lower_cell x + 1) (lower_cell y + 1) edge = Ok p3 /\
  sample img (lower_cell x) (lower_cell y + 1) edge = Ok p4.
Proof.
  unfold corners.
  destruct (sample img (lower_cell x) (lower_cell y) edge); [| discriminate].
  destruct (sample img (lower_cell x + 1) (lower_cell y) edge); [| discriminate].
  destruct (sample img (lower_cell x + 1) (lower_cell y + 1) edge); [| discriminate].
  destruct (sample img (lower_cell x) (lower_cell y + 1) edge); [| discriminate].
  unfold bind. intros H. injection H as -> -> -> ->. tauto.
Qed.

Lemma corners_resolve (img : image) (x y : Q) (edge : pyarg) :
  well_formed img = true ->
  corners img x y edge =
  Ok (resolve img (inject_Z (lower_cell x)) (inject_Z (lower_cell y)) edge,
      resolve img (inject_Z (lower_cell x + 1)) (inject_Z (lower_cell y)) edge,
      resolve img (inject_Z (lower_cell x + 1)) (inject_Z (lower_cell y + 1)) edge,
      resolve img (inject_Z (lower_cell x)) (inject_Z (lower_cell y + 1)) edge).
Proof.
  intros H. unfold corners, sample.
  now rewrite !(proj1 (src_resolve img _ _ edge H)).
Qed.

(** [blin] blends the four corners with [blin_weights] unless the lower
    corner is hit exactly. *)
Lemma blin_corners (img : image) (x y : Q) (edge : pyarg)
  (p1 p2 p3 p4 : pixel_t) :
  corners img x y edge = Ok (p1, p2, p3, p4) ->
  Imin.blin img x y edge =
  Ok (if direct_hit x y then p1
      else blend4 (channels img) p1 p4 p2 p3 (blin_weights x y)).
Proof.
  intros H. apply corners_inv in H. destruct H as (H1 & H2 & H3 & H4).
  destruct (sample_first_pixel _ _ _ _ _ H1) as (px0 & pxs & rows & ->).
  unfold sample in *. unfold Imin.blin.
  rewrite index_head. unfold bind at 1. rewrite index_head. unfold bind at 1.
  fold (direct_hit x y). destruct (direct_hit x y); [exact H1 |].
  cbv zeta. rewrite H1, H2, H3, H4. reflexivity.
Qed.

(** [baryc] returns corner 1 on an exact hit, and otherwise folds along the
    1-3 diagonal exactly when the 1-3 difference is strictly smaller. *)
Lemma baryc_corners (img : image) (x y : Q) (edge : pyarg)
  (p1 p2 p3 p4 : pixel_t) :
  corners img x y edge = Ok (p1, p2, p3, p4) ->
  Imin.baryc img x y edge =
  Ok (if direct_hit x y then p1
      else if diff_13 (channels img) p1 p3 <? diff_24 (channels img) p2 p4
           then fold_13 (channels img) p1 p2 p3 p4 x y
           else fold_24 (channels img) p1 p2 p3 p4 x y).
Proof.
  intros H. apply corners_inv in H. destruct H as (H1 & H2 & H3 & H4).
  destruct (sample_first_pixel _ _ _ _ _ H1) as (px0 & pxs & rows & ->).
  unfold sample in *. unfold Imin.baryc.
  rewrite index_head. unfold bind at 1. rewrite index_head. unfold bind at 1.
  cbv zeta. rewrite H1. unfold bind at 1.
  fold (direct_hit x y). destruct (direct_hit x y); trivial.
  rewrite H2, H3, H4. unfold bind.
  unfold diff_13, diff_24, fold_13, fold_24, Z_COLOR, channels. simpl hd.
  destruct (_ <? _); destruct (Qltb _ _); reflexivity.
Qed.

Lemma first_pixel_channels (px0 : pixel_t) (pxs : list pixel_t)
  (rows : list (list pixel_t)) :
  channels ((px0 :: pxs) :: rows) = len px0.
Proof. reflexivity. Qed.

(** The local kernels of [displace] and [rescale] are the kernels of
    [pixel], the channel count being the one their driver found. *)
Lemma Displace_blin_eq (img : image) (x y : Q) (edge : pyarg) :
  (exists px0 pxs rows, img = (px0 :: pxs) :: rows) ->
  Displace._blin img (channels img) x y edge = Imin.blin img x y edge.
Proof.
  intros (px0 & pxs & rows & ->). unfold Imin.blin.
  rewrite index_head. unfold bind at 1. rewrite index_head. unfold bind at 1.
  reflexivity.
Qed.

Lemma Displace_baryc_eq (img : image) (x y : Q) (edge : pyarg) :
  (exists px0 pxs rows, img = (px0 :: pxs) :: rows) ->
  Displace._baryc img (channels img) x y edge = Imin.baryc img x y edge.
Proof.
  intros (px0 & pxs & rows & ->). unfold Imin.baryc.
  rewrite index_head. unfold bind at 1. rewrite index_head. unfold bind at 1.
  reflexivity.
Qed.

Lemma Rescale_baryc_eq (img : image) (x y : Q) (edge : pyarg) :
  (exists px0 pxs rows, img = (px0 :: pxs) :: rows) ->
  Rescale._baryc img (channels img) x y edge = Imin.baryc img x y edge.
Proof.
  intros (px0 & pxs & rows & ->). unfold Imin.baryc.
  rewrite index_head. unfold bind at 1. rewrite index_head. unfold bind at 1.
  reflexivity.
Qed.

Lemma has_pixel_spec (img : image) :
  has_pixel img = true -> exists px0 pxs rows, img = (px0 :: pxs) :: rows.
Proof.
  destruct img as [| [| px0 pxs] rows]; try discriminate.
  intros _. now exists px0, pxs, rows.
Qed.

Lemma well_formed_has_pixel (img : image) :
  well_formed img = true -> has_pixel img = true.
Proof.
  intros H. now destruct (well_formed_first img H) as (px0 & pxs & rows & ->).
Qed.

(** ** Degenerate target sizes of [rescale] *)

Lemma bilinear_unfold (img : image) (XNEW YNEW : Z) (edge : pyarg) :
  has_pixel img = true ->
  Rescale.bilinear img XNEW YNEW edge =
  x_resize <- truediv (width img - 1) (XNEW - 1) ;;
  y_resize <- truediv (height img - 1) (YNEW - 1) ;;
  intermediate_image <-
    (if XNEW =? width img then Ok img
     else comprehension
            (fun y => comprehension
                        (fun x => Rescale._xlin img (channels img)
                                    (x_resize * inject_Z x)%Q y edge)
                        (range XNEW))
            (range (height img))) ;;
  if YNEW =? height img then Ok intermediate_image
  else comprehension
         (fun y => comprehension
                     (fun x => Rescale._ylin intermediate_image (channels img)
                                 x (y_resize * inject_Z y)%Q edge)
                     (range XNEW))
         (range YNEW).
Proof.
  intros P. destruct (has_pixel_spec img P) as (px0 & pxs & rows & ->).
  unfold Rescale.bilinear.
  rewrite index_head. unfold bind at 1. rewrite index_head. unfold bind at 1.
  reflexivity.
Qed.

Lemma barycentric_unfold (img : image) (XNEW YNEW : Z) (edge : pyarg) :
  has_pixel img = true ->
  Rescale.barycentric img XNEW YNEW edge =
  x_resize <- truediv (width img - 1) (XNEW - 1) ;;
  y_resize <- truediv (height img - 1) (YNEW - 1) ;;
  comprehension
    (fun y => comprehension
                (fun x => Rescale._baryc img (channels img)
                            (x_resize * inject_Z x)%Q
                            (y_resize * inject_Z y)%Q edge)
                (range XNEW))
    (range YNEW).
Proof.
  intros P. destruct (has_pixel_spec img P) as (px0 & pxs & rows & ->).
  unfold Rescale.barycentric.
  rewrite index_head. unfold bind at 1. rewrite index_head. unfold bind at 1.
  reflexivity.
Qed.

Lemma rescale_dispatch (img : image) (XNEW YNEW : Z) (edge method : pyarg) :
  driver_method method = true ->
  Rescale.rescale img XNEW YNEW edge method
  = if is_bilinear method then Rescale.bilinear img XNEW YNEW edge
    else Rescale.barycentric img XNEW YNEW edge.
Proof.
  unfold driver_method, Rescale.rescale. fold (is_bilinear method).
  fold (is_barycentric method). intros M.
  destruct (is_bilinear method); trivial. simpl in M. now rewrite M.
Qed.

(** With a target size of 1 one of the two resize factors divides by zero. *)
Lemma resize_factors_raise {A : Type} (XNEW YNEW a b : Z)
  (k : Q -> Q -> result A) :
  XNEW = 1 \/ YNEW = 1 ->
  (x_resize <- truediv a (XNEW - 1) ;;
   y_resize <- truediv b (YNEW - 1) ;; k x_resize y_resize)
  = Raise ZeroDivisionError.
Proof.
  intros D. unfold truediv. destruct D as [-> | ->]; simpl.
  - reflexivity.
  - now destruct (XNEW - 1 =? 0).
Qed.

(** C1, as stated, fails: a target width or height of 1 makes [rescale]
    raise [ZeroDivisionError], not the [ValueError] it keeps for an unknown
    method. *)
Lemma rescale_unit_target_counterexample :
  Rescale.rescale img22 1 3 (PyInt 1) (PyInt 1) = Raise ZeroDivisionError /\
  Rescale.rescale img22 3 1 (PyInt 1) (PyInt 2) = Raise ZeroDivisionError /\
  ~ (exists msg,
       Rescale.rescale img22 1 3 (PyInt 1) (PyInt 1) = Raise (ValueError msg)).
Proof.
  split; [reflexivity | split; [reflexivity |]].
  intros [msg H]. vm_compute in H. discriminate.
Qed.

(** C1, amended: for every image with a first pixel, every edge value and
    both methods, [rescale] to a width of 1 or to a height of 1 raises
    [ZeroDivisionError]: the fault of the division by [XNEW - 1] or
    [YNEW - 1] reaches the caller. *)
Theorem rescale_unit_target_raises_division (img : image) (XNEW YNEW : Z)
  (edge method : pyarg) :
  has_pixel img = true ->
  driver_method method = true ->
  XNEW = 1 \/ YNEW = 1 ->
  Rescale.rescale img XNEW YNEW edge method = Raise ZeroDivisionError.
Proof.
  intros P M D. rewrite (rescale_dispatch img XNEW YNEW edge method M).
  destruct (is_bilinear method).
  - rewrite (bilinear_unfold img XNEW YNEW edge P).
    now apply (resize_factors_raise XNEW YNEW _ _ (fun x_resize y_resize => _)).
  - rewrite (barycentric_unfold img XNEW YNEW edge P).
    now apply (resize_factors_raise XNEW YNEW _ _ (fun x_resize y_resize => _)).
Qed.

Lemma rescale_unit_target_raises_division_witness :
  Rescale.rescale img12 1 5 (PyStr "wrap") (PyStr "barycentric")
  = Raise ZeroDivisionError.
Proof.
  apply rescale_unit_target_raises_division.
  - reflexivity.
  - reflexivity.
  - left. reflexivity.
Defined.

(** ** The diagonal of the barycentric kernel *)

(** C2, as stated, fails: on [img_tie] the two differences are both 100,
    and at (1/2, 1/4) the kernel returns 87, the fold along the 2-4
    diagonal, where the fold along the 1-3 diagonal gives 62. *)
Lemma baryc_tie_counterexample :
  corners img_tie (1 # 2) (1 # 4) (PyInt 1) = Ok ([0], [150], [100], [50]) /\
  diff_13 (channels img_tie) [0] [100] = diff_24 (channels img_tie) [150] [50] /\
  fold_13 (channels img_tie) [0] [150] [100] [50] (1 # 2) (1 # 4) = [62] /\
  Imin.baryc img_tie (1 # 2) (1 # 4) (PyInt 1) = Ok [87] /\
  Rescale._baryc img_tie (channels img_tie) (1 # 2) (1 # 4) (PyInt 1) = Ok [87] /\
  Imin.baryc img_tie (1 # 2) (1 # 4) (PyInt 1)
  <> Ok (fold_13 (channels img_tie) [0] [150] [100] [50] (1 # 2) (1 # 4)).
Proof.
  repeat (split; [reflexivity |]).
  intros H. vm_compute in H. discriminate.
Qed.

(** C2, amended: whenever the two absolute differences are equal, the
    barycentric kernel folds the square along the 2-4 diagonal (the test for
    the 1-3 diagonal is a strict [<]), for every image whose four corners
    can be read, every coordinate that is not a direct hit and every edge
    value; in [pixel], in [rescale] and in [displace] alike. *)
Theorem baryc_tie_folds_24 (img : image) (x y : Q) (edge : pyarg)
  (p1 p2 p3 p4 : pixel_t) :
  corners img x y edge = Ok (p1, p2, p3, p4) ->
  direct_hit x y = false ->
  diff_13 (channels img) p1 p3 = diff_24 (channels img) p2 p4 ->
  Imin.baryc img x y edge = Ok (fold_24 (channels img) p1 p2 p3 p4 x y) /\
  Rescale._baryc img (channels img) x y edge
  = Ok (fold_24 (channels img) p1 p2 p3 p4 x y) /\
  Displace._baryc img (channels img) x y edge
  = Ok (fold_24 (channels img) p1 p2 p3 p4 x y).
Proof.
  intros C D T.
  assert (P : exists px0 pxs rows, img = (px0 :: pxs) :: rows).
  { apply corners_inv in C. destruct C as (C1 & _).
    exact (sample_first_pixel _ _ _ _ _ C1). }
  rewrite (Rescale_baryc_eq img x y edge P), (Displace_baryc_eq img x y edge P).
  rewrite (baryc_corners img x y edge p1 p2 p3 p4 C), D, T, Z.ltb_irrefl.
  repeat split.
Qed.

Lemma baryc_tie_folds_24_witness :
  Imin.baryc img_tie (1 # 2) (1 # 4) (PyInt 1)
  = Ok (fold_24 (channels img_tie) [0] [150] [100] [50] (1 # 2) (1 # 4)).
Proof.
  apply (baryc_tie_folds_24 img_tie (1 # 2) (1 # 4) (PyInt 1)
           [0] [150] [100] [50]); reflexivity.
Defined.

(** ** The end-to-end example *)

(** C7: on the 2 x 2 image [[0, 100], [200, 255]], [rescale] to 3 x 3 with
    the repeat edge and the bilinear method is the row pass to width 3
    followed by the column pass to height 3, and the centre pixel of the
    result is 138, the truncated average of the four source pixels. *)
Theorem rescale_example_two_pass :
  exists x_resize y_resize intermediate_image result_image,
    truediv (width img22 - 1) (3 - 1) = Ok x_resize /\
    truediv (height img22 - 1) (3 - 1) = Ok y_resize /\
    comprehension
      (fun y => comprehension
                  (fun x => Rescale._xlin img22 (channels img22)
                              (x_resize * inject_Z x)%Q y (PyInt 1))
                  (range 3))
      (range (height img22)) = Ok intermediate_image /\
    intermediate_image = [[[0]; [50]; [100]]; [[200]; [227]; [255]]] /\
    comprehension
      (fun y => comprehension
                  (fun x => Rescale._ylin intermediate_image (channels img22) x
                              (y_resize * inject_Z y)%Q (PyInt 1))
                  (range 3))
      (range 3) = Ok result_image /\
    Rescale.rescale img22 3 3 (PyInt 1) (PyInt 1) = Ok result_image /\
    Rescale.rescale img22 3 3 (PyStr "repeat") (PyStr "bilinear")
    = Ok result_image /\
    result_image
    = [[[0]; [50]; [100]]; [[100]; [138]; [177]]; [[200]; [227]; [255]]] /\
    (row <- index result_image 1 ;; index row 1) = Ok [138] /\
    int ((inject_Z (0 + 100 + 200 + 255)) / 4)%Q = 138.
Proof.
  exists (1 # 2)%Q, (1 # 2)%Q,
    [[[0]; [50]; [100]]; [[200]; [227]; [255]]],
    [[[0]; [50]; [100]]; [[100]; [138]; [177]]; [[200]; [227]; [255]]].
  repeat (split; [vm_compute; reflexivity |]).
  vm_compute; reflexivity.
Qed.

(** ** The weights of the bilinear kernel in exact arithmetic *)

Lemma blin_weights_sum (x y : Q) :
  let '(w00, w01, w10, w11) := blin_weights x y in
  (w00 + w01 + w10 + w11 == 1)%Q.
Proof.
  unfold blin_weights. cbv zeta. rewrite !inject_Z_plus.
  change (inject_Z 1) with 1%Q. ring.
Qed.

Lemma blend_same (n : nat) (p : pixel_t) (w00 w01 w10 w11 : Q) :
  List.length p = n ->
  (w00 + w01 + w10 + w11 == 1)%Q ->
  map4 Imin.intaddup4 (map_mul p (repeat w00 n)) (map_mul p (repeat w01 n))
    (map_mul p (repeat w10 n)) (map_mul p (repeat w11 n)) = p.
Proof.
  intros L S. revert n L. induction p as [| v p IH]; intros n L.
  - now destruct n.
  - destruct n as [| n]; [discriminate |]. simpl. f_equal.
    + unfold Imin.intaddup4. rewrite <- (int_inject_Z v) at 5.
      apply int_Qeq.
      setoid_replace (inject_Z v * w00 + inject_Z v * w01 + inject_Z v * w10
                      + inject_Z v * w11)%Q
        with (inject_Z v * (w00 + w01 + w10 + w11))%Q by ring.
      rewrite S. ring.
    + apply IH. now injection L.
Qed.

Lemma lower_cell_half (n : Z) : lower_cell (inject_Z n + (1 # 2)) = n.
Proof.
  unfold lower_cell, int. simpl Qnum. simpl Qden.
  destruct (Qle_bool 0 (inject_Z n + (1 # 2))) eqn:E.
  - apply Qle_bool_iff in E. unfold Qle in E. simpl in E.
    rewrite Z.quot_div_nonneg by lia.
    symmetry. apply Z.div_unique with (r := 1); lia.
  - apply not_true_iff_false in E. rewrite Qle_bool_iff in E.
    unfold Qle in E. simpl in E.
    replace (n * 2 + 1) with (- (- n * 2 - 1)) by lia.
    rewrite Z.quot_opp_l by lia. rewrite Z.quot_div_nonneg by lia.
    rewrite <- (Z.div_unique (- n * 2 - 1) 2 (- n - 1) 1); lia.
Qed.

Lemma direct_hit_half (n m : Z) :
  direct_hit (inject_Z n + (1 # 2)) (inject_Z m + (1 # 2)) = false.
Proof.
  unfold direct_hit. rewrite lower_cell_half.
  replace (Qeq_bool (inject_Z n + (1 # 2)) (inject_Z n)) with false; trivial.
  symmetry. apply not_true_iff_false. rewrite Qeq_bool_iff.
  unfold Qeq. simpl. lia.
Qed.

(** ** Exact hits inside the image *)

Lemma direct_hit_exact (x y : Q) (n m : Z) :
  (x == inject_Z n)%Q -> (y == inject_Z m)%Q -> 0 <= n -> 0 <= m ->
  direct_hit x y = true /\ lower_cell x = n /\ lower_cell y = m.
Proof.
  intros Ex Ey Hn Hm.
  assert (Lx : lower_cell x = n)
    by now rewrite (lower_cell_Qeq _ _ Ex), lower_cell_inject_Z.
  assert (Ly : lower_cell y = m)
    by now rewrite (lower_cell_Qeq _ _ Ey), lower_cell_inject_Z.
  unfold direct_hit. rewrite Lx, Ly. repeat split.
  apply andb_true_iff. split; now apply Qeq_bool_iff.
Qed.

Lemma outside_exact (img : image) (x y : Q) (n m : Z) :
  (x == inject_Z n)%Q -> (y == inject_Z m)%Q ->
  0 <= n <= width img - 1 -> 0 <= m <= height img - 1 ->
  outside img x y = false.
Proof.
  intros Ex Ey Hn Hm. apply outside_false. rewrite Ex, Ey.
  rewrite <- !Zle_Qle. change 0%Q with (inject_Z 0). rewrite <- !Zle_Qle. lia.
Qed.

Lemma resolve_exact (img : image) (x y : Q) (n m : Z) (edge : pyarg) :
  (x == inject_Z n)%Q -> (y == inject_Z m)%Q ->
  0 <= n <= width img - 1 -> 0 <= m <= height img - 1 ->
  resolve img x y edge = source_pixel img n m.
Proof.
  intros Ex Ey Hn Hm. unfold resolve.
  rewrite (int_Qeq _ _ Ex), (int_Qeq _ _ Ey), !int_inject_Z.
  rewrite (outside_exact img x y n m Ex Ey Hn Hm).
  destruct (is_repeat edge); [f_equal; lia |].
  destruct (is_wrap edge); trivial.
  rewrite !Z.mod_small by lia. reflexivity.
Qed.

Lemma kernels_exact_hit (img : image) (x y : Q) (n m : Z) (edge : pyarg) :
  well_formed img = true ->
  (x == inject_Z n)%Q -> (y == inject_Z m)%Q ->
  0 <= n <= width img - 1 -> 0 <= m <= height img - 1 ->
  Imin.src img x y edge = Ok (source_pixel img n m) /\
  Imin.blin img x y edge = Ok (source_pixel img n m) /\
  Imin.baryc img x y edge = Ok (source_pixel img n m).
Proof.
  intros W Ex Ey Hn Hm.
  destruct (direct_hit_exact x y n m Ex Ey) as (D & Lx & Ly); try lia.
  pose proof (corners_resolve img x y edge W) as C.
  assert (P1 : resolve img (inject_Z (lower_cell x)) (inject_Z (lower_cell y)) edge
               = source_pixel img n m).
  { rewrite Lx, Ly. apply resolve_exact; trivial; reflexivity. }
  split; [| split].
  - rewrite (proj1 (src_resolve img x y edge W)). f_equal.
    now apply resolve_exact.
  - rewrite (blin_corners _ _ _ _ _ _ _ _ C), D. now f_equal.
  - rewrite (baryc_corners _ _ _ _ _ _ _ _ C), D. now f_equal.
Qed.

(** C5: on a well-formed image, for every edge value and every method of
    [pixel], a coordinate equal to the integers (n, m) with
    0 <= n <= W - 1 and 0 <= m <= H - 1 reads the source pixel at column n
    of row m, unchanged. *)
Theorem pixel_exact_hit (img : image) (x y : Q) (n m : Z)
  (edge method : pyarg) :
  well_formed img = true ->
  pixel_method method = true ->
  (x == inject_Z n)%Q -> (y == inject_Z m)%Q ->
  0 <= n <= width img - 1 -> 0 <= m <= height img - 1 ->
  Imin.pixel img x y edge method = Ok (source_pixel img n m).
Proof.
  intros W M Ex Ey Hn Hm.
  destruct (kernels_exact_hit img x y n m edge W Ex Ey Hn Hm) as (S & B & C).
  unfold pixel_method, is_bilinear, is_barycentric, is_nearest in M.
  unfold Imin.pixel.
  destruct (eq_int method 1 || eq_str method "bilinear"); trivial.
  destruct (eq_int method 2 || eq_str method "barycentric"); trivial.
  simpl in M. now rewrite M.
Qed.

Lemma pixel_exact_hit_witness :
  Imin.pixel img22 (2 # 2) 1 (PyStr "wrap") (PyStr "barycentric")
  = Ok (source_pixel img22 1 1).
Proof.
  apply pixel_exact_hit; try reflexivity; simpl; lia.
Defined.

(** ** Nearest neighbour and negative coordinates *)

Lemma nearest_dispatch (img : image) (x y : Q) (edge method : pyarg) :
  is_nearest method = true ->
  Imin.pixel img x y edge method = Imin.src img x y edge.
Proof.
  unfold is_nearest, Imin.pixel. intros H.
  destruct method as [n | s]; simpl in *.
  - rewrite orb_false_r in H. apply Z.eqb_eq in H. now subst n.
  - apply String.eqb_eq in H. now subst s.
Qed.

Lemma repeat_not_wrap (edge : pyarg) :
  is_repeat edge = true -> is_wrap edge = false.
Proof.
  unfold is_repeat, is_wrap. intros H.
  destruct edge as [n | s]; simpl in *.
  - rewrite orb_false_r in H. apply Z.eqb_eq in H. now subst n.
  - apply String.eqb_eq in H. now subst s.
Qed.

Lemma zero_not_repeat_wrap (edge : pyarg) :
  is_zero edge = true -> is_repeat edge = false /\ is_wrap edge = false.
Proof.
  unfold is_zero. rewrite andb_true_iff, !negb_true_iff. tauto.
Qed.

Lemma src_unfold (img : image) (x y : Q) (edge : pyarg) :
  has_pixel img = true ->
  Imin.src img x y edge =
  if is_repeat edge then
    row <- index img (Z.min (height img - 1) (Z.max 0 (int y))) ;;
    index row (Z.min (width img - 1) (Z.max 0 (int x)))
  else if is_wrap edge then
    cx <- pymod (int x) (width img) ;;
    cy <- pymod (int y) (height img) ;;
    row <- index img cy ;;
    index row cx
  else if outside img x y then Ok (zeros (channels img))
  else row <- index img (int y) ;; index row (int x).
Proof.
  intros P. destruct (has_pixel_spec img P) as (px0 & pxs & rows & ->).
  unfold Imin.src.
  rewrite index_head. unfold bind at 1. rewrite index_head. unfold bind at 1.
  reflexivity.
Qed.

(** The reader looks at a coordinate only through the clamped [int] (repeat),
    the [int] (wrap), or the bounds test and the [int] (zero). *)
Lemma src_congr (img : image) (x y x' y' : Q) (edge : pyarg) :
  (is_repeat edge = true ->
   Z.max 0 (int x) = Z.max 0 (int x') /\ Z.max 0 (int y) = Z.max 0 (int y')) ->
  (is_wrap edge = true -> int x = int x' /\ int y = int y') ->
  (is_zero edge = true ->
   outside img x y = outside img x' y' /\
   (outside img x y = false -> int x = int x' /\ int y = int y')) ->
  Imin.src img x y edge = Imin.src img x' y' edge.
Proof.
  intros R W Z0. destruct (has_pixel img) eqn:P.
  - rewrite !src_unfold by trivial. unfold is_zero in Z0.
    destruct (is_repeat edge).
    { destruct R as [-> ->]; trivial. }
    destruct (is_wrap edge).
    { destruct W as [-> ->]; trivial. }
    destruct Z0 as [O I]; trivial. rewrite <- O.
    destruct (outside img x y); trivial.
    destruct I as [-> ->]; trivial.
  - destruct img as [| [| px0 pxs] rows]; trivial. discriminate.
Qed.

Lemma clamp_floor (v : Q) : Z.max 0 (int v) = Z.max 0 (Qfloor v).
Proof.
  destruct (Qlt_le_dec v 0) as [L | L].
  - apply Qlt_le_weak in L. rewrite int_nonpos by trivial.
    assert (Qceiling v <= 0)
      by (change 0 with (Qceiling 0); now apply Qceiling_resp_le).
    assert (Qfloor v <= 0)
      by (change 0 with (Qfloor 0); now apply Qfloor_resp_le).
    lia.
  - now rewrite int_nonneg.
Qed.

(** C3, as stated, fails: with the wrap edge, nearest at x = -1/2 reads
    cell [int(-1/2) = 0], where the floor -1 wraps to the last column; and
    with the zero edge a coordinate between W - 1 and W reads zeros, where
    its floor is a cell of the image. *)
Lemma nearest_floor_counterexample :
  Imin.pixel img12 (-1 # 2) 0 (PyStr "wrap") (PyStr "nearest") = Ok [10] /\
  sample img12 (Qfloor (-1 # 2)) (Qfloor 0) (PyStr "wrap") = Ok [20] /\
  Imin.pixel img12 (3 # 2) 0 (PyInt 0) (PyInt 0) = Ok [0] /\
  sample img12 (Qfloor (3 # 2)) (Qfloor 0) (PyInt 0) = Ok [20] /\
  Imin.pixel img12 (-1 # 2) 0 (PyStr "wrap") (PyStr "nearest")
  <> sample img12 (Qfloor (-1 # 2)) (Qfloor 0) (PyStr "wrap").
Proof.
  repeat (split; [reflexivity |]).
  intros H. vm_compute in H. discriminate.
Qed.

(** C3, amended: the nearest-neighbour method reads the cell of the floored
    coordinate through the edge sampler
    - with the repeat edge, at every coordinate;
    - with the wrap edge, at every coordinate each of whose components is
      non-negative or a whole number (negative fractions are left out);
    - with any other edge value, at every coordinate inside
      [0, W-1] x [0, H-1] and at every coordinate whose floored cell is
      outside it (so for x < 0, y < 0, x >= W and y >= H); the coordinates
      that remain lie outside the rectangle with their floored cell inside
      it, and there, as at every coordinate outside the rectangle, zeros are
      read. *)
Theorem nearest_reads_floor_cell (img : image) (x y : Q)
  (edge method : pyarg) :
  is_nearest method = true ->
  (is_repeat edge = true ->
   Imin.pixel img x y edge method = sample img (Qfloor x) (Qfloor y) edge) /\
  (is_wrap edge = true ->
   (0 <= x \/ x == inject_Z (Qfloor x))%Q ->
   (0 <= y \/ y == inject_Z (Qfloor y))%Q ->
   Imin.pixel img x y edge method = sample img (Qfloor x) (Qfloor y) edge) /\
  (is_zero edge = true ->
   outside img x y = false \/
   outside img (inject_Z (Qfloor x)) (inject_Z (Qfloor y)) = true ->
   Imin.pixel img x y edge method = sample img (Qfloor x) (Qfloor y) edge) /\
  (is_zero edge = true -> has_pixel img = true -> outside img x y = true ->
   Imin.pixel img x y edge method = Ok (zeros (channels img))).
Proof.
  intros N. rewrite (nearest_dispatch img x y edge method N). unfold sample.
  split; [| split; [| split]].
  - intros R. apply src_congr.
    + intros _. now rewrite !int_inject_Z, !clamp_floor.
    + intros W. rewrite (repeat_not_wrap edge R) in W. discriminate.
    + intros Z0. apply zero_not_repeat_wrap in Z0. destruct Z0. congruence.
  - intros W Hx Hy. apply src_congr.
    + intros R. rewrite (repeat_not_wrap edge R) in W. discriminate.
    + intros _. rewrite !int_inject_Z. split.
      * destruct Hx as [Hx | Hx]; [now apply int_nonneg |].
        rewrite (int_Qeq _ _ Hx). apply int_inject_Z.
      * destruct Hy as [Hy | Hy]; [now apply int_nonneg |].
        rewrite (int_Qeq _ _ Hy). apply int_inject_Z.
    + intros Z0. apply zero_not_repeat_wrap in Z0. destruct Z0. congruence.
  - intros Z0 [O | O]; destruct (zero_not_repeat_wrap edge Z0) as [NR NW];
      (apply src_congr; try congruence); intros _.
    + pose proof O as O'. apply outside_false in O'.
      destruct O' as (A & B & C & D).
      rewrite !int_inject_Z, !int_nonneg by trivial. split; [| tauto].
      rewrite O. symmetry. apply outside_false.
      pose proof (Qfloor_le x). pose proof (Qfloor_le y).
      assert (0 <= Qfloor x)
        by (change 0 with (Qfloor 0); now apply Qfloor_resp_le).
      assert (0 <= Qfloor y)
        by (change 0 with (Qfloor 0); now apply Qfloor_resp_le).
      repeat split.
      * change 0%Q with (inject_Z 0). now rewrite <- Zle_Qle.
      * now apply Qle_trans with x.
      * change 0%Q with (inject_Z 0). now rewrite <- Zle_Qle.
      * now apply Qle_trans with y.
    + rewrite O. destruct (outside img x y) eqn:E; [split; congruence |].
      exfalso. apply outside_false in E. destruct E as (A & B & C & D).
      pose proof (Qfloor_le x). pose proof (Qfloor_le y).
      assert (0 <= Qfloor x)
        by (change 0 with (Qfloor 0); now apply Qfloor_resp_le).
      assert (0 <= Qfloor y)
        by (change 0 with (Qfloor 0); now apply Qfloor_resp_le).
      assert (F : outside img (inject_Z (Qfloor x)) (inject_Z (Qfloor y))
                  = false).
      { apply outside_false. repeat split.
        - change 0%Q with (inject_Z 0). now rewrite <- Zle_Qle.
        - now apply Qle_trans with x.
        - change 0%Q with (inject_Z 0). now rewrite <- Zle_Qle.
        - now apply Qle_trans with y. }
      congruence.
  - intros Z0 P O. destruct (zero_not_repeat_wrap edge Z0) as [NR NW].
    rewrite src_unfold by trivial. now rewrite NR, NW, O.
Qed.

Lemma nearest_reads_floor_cell_witness :
  Imin.pixel img22 (-7 # 2) (3 # 2) (PyInt 1) (PyInt 0)
  = sample img22 (Qfloor (-7 # 2)) (Qfloor (3 # 2)) (PyInt 1) /\
  Imin.pixel img22 (-3) (1 # 2) (PyInt 2) (PyInt 0)
  = sample img22 (Qfloor (-3)) (Qfloor (1 # 2)) (PyInt 2) /\
  Imin.pixel img22 (-1 # 2) (5 # 2) (PyInt 0) (PyInt 0)
  = sample img22 (Qfloor (-1 # 2)) (Qfloor (5 # 2)) (PyInt 0) /\
  Imin.pixel img22 (3 # 2) (3 # 4) (PyInt 0) (PyInt 0) = Ok [0].
Proof.
  split; [| split; [| split]].
  - apply (proj1 (nearest_reads_floor_cell img22 (-7 # 2) (3 # 2)
                    (PyInt 1) (PyInt 0) eq_refl)).
    reflexivity.
  - apply (proj1 (proj2 (nearest_reads_floor_cell img22 (-3) (1 # 2)
                           (PyInt 2) (PyInt 0) eq_refl)));
      [reflexivity | right; reflexivity | left; unfold Qle; simpl; lia].
  - apply (proj1 (proj2 (proj2 (nearest_reads_floor_cell img22 (-1 # 2) (5 # 2)
                                  (PyInt 0) (PyInt 0) eq_refl))));
      [reflexivity | right; reflexivity].
  - apply (proj2 (proj2 (proj2 (nearest_reads_floor_cell img22 (3 # 2) (3 # 4)
                                  (PyInt 0) (PyInt 0) eq_refl))));
      reflexivity.
Defined.

(** ** The zero edge *)

Lemma Qltb_inject_Z (a b : Z) : Qltb (inject_Z a) (inject_Z b) = (a <? b).
Proof.
  destruct (Z.ltb_spec a b) as [L | L].
  - apply Qltb_lt. now rewrite <- Zlt_Qlt.
  - apply Qltb_ge. now rewrite <- Zle_Qle.
Qed.

Lemma outside_cell (img : image) (cx cy : Z) :
  outside img (inject_Z cx) (inject_Z cy)
  = (cx <? 0) || (cy <? 0) || (width img - 1 <? cx) || (height img - 1 <? cy).
Proof.
  unfold outside. change 0%Q with (inject_Z 0). now rewrite !Qltb_inject_Z.
Qed.

Lemma resolve_zero (img : image) (x y : Q) (edge : pyarg) :
  is_zero edge = true ->
  resolve img x y edge
  = if outside img x y then zeros (channels img)
    else source_pixel img (int x) (int y).
Proof.
  intros Z0. destruct (zero_not_repeat_wrap edge Z0) as [R W].
  unfold resolve. now rewrite R, W.
Qed.

Lemma zeros_blend4 (n : nat) (w00 w01 w10 w11 : Q) :
  map4 Imin.intaddup4
    (map_mul (repeat 0 n) (repeat w00 n)) (map_mul (repeat 0 n) (repeat w01 n))
    (map_mul (repeat 0 n) (repeat w10 n)) (map_mul (repeat 0 n) (repeat w11 n))
  = repeat 0 n.
Proof.
  induction n as [| n IH]; [reflexivity |].
  cbn [repeat map_mul map4 map3]. f_equal; trivial.
Qed.

Lemma zeros_blend3 (n : nat) (a b c : Q) :
  map3 Imin.intaddup3
    (map_mul (repeat 0 n) (repeat a n)) (map_mul (repeat 0 n) (repeat b n))
    (map_mul (repeat 0 n) (repeat c n))
  = repeat 0 n.
Proof.
  induction n as [| n IH]; [reflexivity |].
  cbn [repeat map_mul map4 map3]. f_equal; trivial.
Qed.

Lemma zeros_fold_13 (Zn : Z) (x y : Q) :
  fold_13 Zn (zeros Zn) (zeros Zn) (zeros Zn) (zeros Zn) x y = zeros Zn.
Proof.
  unfold fold_13, zeros, tuple_of. cbv zeta.
  destruct (Qltb _ _); apply zeros_blend3.
Qed.

Lemma zeros_fold_24 (Zn : Z) (x y : Q) :
  fold_24 Zn (zeros Zn) (zeros Zn) (zeros Zn) (zeros Zn) x y = zeros Zn.
Proof.
  unfold fold_24, zeros, tuple_of. cbv zeta.
  destruct (Qltb _ _); apply zeros_blend3.
Qed.

(** When both columns or both rows of the neighbourhood are outside, the
    four corners read zeros with the zero edge. *)
Lemma corners_zero_outside (img : image) (x y : Q) (edge : pyarg) :
  well_formed img = true ->
  is_zero edge = true ->
  neighbourhood_outside img x y = true ->
  corners img x y edge
  = Ok (zeros (channels img), zeros (channels img),
        zeros (channels img), zeros (channels img)).
Proof.
  intros W Z0 N. rewrite (corners_resolve img x y edge W).
  rewrite !(resolve_zero img _ _ edge Z0), !outside_cell.
  unfold neighbourhood_outside in N.
  repeat rewrite orb_true_iff in N. rewrite !Z.ltb_lt in N.
  assert (A : forall cx cy,
             (cx = lower_cell x \/ cx = lower_cell x + 1) ->
             (cy = lower_cell y \/ cy = lower_cell y + 1) ->
             (cx <? 0) || (cy <? 0) || (width img - 1 <? cx)
             || (height img - 1 <? cy) = true).
  { intros cx cy Hx Hy. repeat rewrite orb_true_iff. rewrite !Z.ltb_lt. lia. }
  rewrite !A by (left + right; reflexivity). reflexivity.
Qed.

(** C6, as stated, fails: with the zero edge the bilinear and the
    barycentric kernels at (-1/2, 0), outside the 1 x 1 image [[100]], blend
    the pixel of the image with zeros and return 50. *)
Lemma zero_edge_outside_counterexample :
  outside img11 (-1 # 2) 0 = true /\
  Imin.pixel img11 (-1 # 2) 0 (PyInt 0) (PyInt 1) = Ok [50] /\
  Imin.pixel img11 (-1 # 2) 0 (PyInt 0) (PyInt 2) = Ok [50] /\
  Imin.pixel img11 (-1 # 2) 0 (PyInt 0) (PyInt 1) <> Ok (zeros (channels img11)).
Proof.
  repeat (split; [reflexivity |]).
  intros H. vm_compute in H. discriminate.
Qed.

(** C6, amended: with the zero edge, on a well-formed image, a coordinate
    outside [0, W-1] x [0, H-1] reads Z zeros with the nearest method; with
    the bilinear and the barycentric methods it does when no cell of the
    2 x 2 neighbourhood the kernel reads lies in the image, which holds at
    every outside coordinate with integer x and y. *)
Theorem zero_edge_outside_reads_zeros (img : image) (x y : Q)
  (edge method : pyarg) :
  well_formed img = true ->
  is_zero edge = true ->
  outside img x y = true ->
  (is_nearest method = true ->
   Imin.pixel img x y edge method = Ok (zeros (channels img))) /\
  (driver_method method = true -> neighbourhood_outside img x y = true ->
   Imin.pixel img x y edge method = Ok (zeros (channels img))) /\
  (forall n m : Z, (x == inject_Z n)%Q -> (y == inject_Z m)%Q ->
   neighbourhood_outside img x y = true).
Proof.
  intros W Z0 O. split; [| split].
  - intros N. rewrite (nearest_dispatch img x y edge method N).
    rewrite (proj1 (src_resolve img x y edge W)).
    now rewrite (resolve_zero img x y edge Z0), O.
  - intros M N. pose proof (corners_zero_outside img x y edge W Z0 N) as C.
    unfold driver_method, is_bilinear, is_barycentric in M. unfold Imin.pixel.
    destruct (eq_int method 1 || eq_str method "bilinear").
    + rewrite (blin_corners _ _ _ _ _ _ _ _ C). f_equal.
      destruct (direct_hit x y); trivial.
      destruct (blin_weights x y) as [[[w00 w01] w10] w11].
      apply zeros_blend4.
    + simpl in M. rewrite M. rewrite (baryc_corners _ _ _ _ _ _ _ _ C). f_equal.
      destruct (direct_hit x y); trivial.
      destruct (_ <? _); [apply zeros_fold_13 | apply zeros_fold_24].
  - intros n m Ex Ey.
    assert (On : outside img (inject_Z n) (inject_Z m) = true).
    { destruct (outside img (inject_Z n) (inject_Z m)) eqn:E; trivial.
      apply outside_false in E. rewrite <- Ex, <- Ey in E.
      apply outside_false in E. congruence. }
    rewrite outside_cell in On. repeat rewrite orb_true_iff in On.
    rewrite !Z.ltb_lt in On.
    unfold neighbourhood_outside.
    rewrite (lower_cell_Qeq _ _ Ex), (lower_cell_Qeq _ _ Ey).
    assert (L : forall k, (0 <= k /\ lower_cell (inject_Z k) = k) \/
                          (k < 0 /\ lower_cell (inject_Z k) = k - 1)).
    { intros k. destruct (Z.le_gt_cases 0 k) as [G | G].
      - left. split; trivial. now apply lower_cell_inject_Z.
      - right. split; trivial. unfold lower_cell. rewrite int_inject_Z.
        replace (Qle_bool 0 (inject_Z k)) with false; trivial.
        symmetry. apply not_true_iff_false. rewrite Qle_bool_iff.
        change 0%Q with (inject_Z 0). rewrite <- Zle_Qle. lia. }
    repeat rewrite orb_true_iff. rewrite !Z.ltb_lt.
    destruct (L n) as [[? ->] | [? ->]], (L m) as [[? ->] | [? ->]]; lia.
Qed.

Lemma zero_edge_outside_reads_zeros_witness :
  Imin.pixel img22 (-3 # 2) (1 # 2) (PyStr "zero") (PyInt 2)
  = Ok (zeros (channels img22)).
Proof.
  apply (proj1 (proj2 (zero_edge_outside_reads_zeros img22 (-3 # 2) (1 # 2)
                         (PyStr "zero") (PyInt 2) eq_refl eq_refl eq_refl)));
    reflexivity.
Defined.

(** ** Edge values other than repeat and wrap *)

Lemma comprehension_eq {A B : Type} (f g : A -> result B) (l : list A) :
  (forall a, f a = g a) -> comprehension f l = comprehension g l.
Proof.
  intros H. induction l as [| a t IH]; simpl; trivial. now rewrite H, IH.
Qed.

Section OtherEdges.

Variables e e' : pyarg.
Hypothesis He : is_zero e = true.
Hypothesis He' : is_zero e' = true.

Lemma src_other_edges (img : image) (x y : Q) :
  Imin.src img x y e = Imin.src img x y e'.
Proof.
  destruct (zero_not_repeat_wrap e He) as [R W].
  destruct (zero_not_repeat_wrap e' He') as [R' W'].
  unfold is_repeat, is_wrap in *. unfold Imin.src, bind.
  destruct (index img 0) as [row0 | ex]; trivial.
  destruct (index row0 0) as [px0 | ex]; trivial.
  now rewrite R, W, R', W'.
Qed.

Ltac other_edges :=
  change Displace._src with Imin.src; change Rescale._src with Imin.src;
  cbv zeta; rewrite !(src_other_edges _ _ _); reflexivity.

Lemma blin_other_edges (img : image) (x y : Q) :
  Imin.blin img x y e = Imin.blin img x y e'.
Proof. unfold Imin.blin. other_edges. Qed.

Lemma baryc_other_edges (img : image) (x y : Q) :
  Imin.baryc img x y e = Imin.baryc img x y e'.
Proof. unfold Imin.baryc. other_edges. Qed.

Lemma pixel_other_edges (img : image) (x y : Q) (method : pyarg) :
  Imin.pixel img x y e method = Imin.pixel img x y e' method.
Proof.
  unfold Imin.pixel.
  now rewrite blin_other_edges, baryc_other_edges, src_other_edges.
Qed.

Lemma displace_other_edges (img : image) (fx fy : Z -> Z -> Q)
  (XNEW YNEW : Z) (method : pyarg) :
  Displace.displace img fx fy XNEW YNEW e method
  = Displace.displace img fx fy XNEW YNEW e' method.
Proof.
  assert (B : forall Zn x y,
             Displace._blin img Zn x y e = Displace._blin img Zn x y e').
  { intros. unfold Displace._blin, Displace._pixel. other_edges. }
  assert (C : forall Zn x y,
             Displace._baryc img Zn x y e = Displace._baryc img Zn x y e').
  { intros. unfold Displace._baryc, Displace._pixel. other_edges. }
  unfold Displace.displace, Displace.bilinear, Displace.barycentric, bind.
  destruct (index img 0) as [row0 | ex]; [| reflexivity].
  destruct (index row0 0) as [px0 | ex]; [| reflexivity].
  destruct (_ || _).
  { apply comprehension_eq. intros y. apply comprehension_eq. intros x.
    apply B. }
  destruct (_ || _); trivial.
  apply comprehension_eq. intros y. apply comprehension_eq. intros x.
  apply C.
Qed.

Lemma rescale_other_edges (img : image) (XNEW YNEW : Z) (method : pyarg) :
  Rescale.rescale img XNEW YNEW e method
  = Rescale.rescale img XNEW YNEW e' method.
Proof.
  assert (A : forall im Zn x y,
             Rescale._xlin im Zn x y e = Rescale._xlin im Zn x y e').
  { intros. unfold Rescale._xlin, Rescale._pixel_1. other_edges. }
  assert (B : forall im Zn x y,
             Rescale._ylin im Zn x y e = Rescale._ylin im Zn x y e').
  { intros. unfold Rescale._ylin, Rescale._pixel_2. other_edges. }
  assert (C : forall Zn x y,
             Rescale._baryc img Zn x y e = Rescale._baryc img Zn x y e').
  { intros. unfold Rescale._baryc, Rescale._pixel. other_edges. }
  unfold Rescale.rescale, Rescale.bilinear, Rescale.barycentric, bind.
  destruct (index img 0) as [row0 | ex]; [| reflexivity].
  destruct (index row0 0) as [px0 | ex]; [| reflexivity].
  destruct (truediv _ (XNEW - 1)) as [x_resize | ex]; [| reflexivity].
  destruct (truediv _ (YNEW - 1)) as [y_resize | ex]; [| reflexivity].
  destruct (_ || _).
  { rewrite (comprehension_eq
               (fun y => comprehension
                           (fun x => Rescale._xlin img (len px0)
                                       (x_resize * inject_Z x)%Q y e)
                           (range XNEW))
               (fun y => comprehension
                           (fun x => Rescale._xlin img (len px0)
                                       (x_resize * inject_Z x)%Q y e')
                           (range XNEW)))
      by (intros y; apply comprehension_eq; intros x; apply A).
    destruct (if XNEW =? len row0 then _ else _) as [im | ex]; trivial.
    destruct (YNEW =? _); trivial.
    apply comprehension_eq. intros y. apply comprehension_eq. intros x.
    apply B. }
  destruct (_ || _); trivial.
  apply comprehension_eq. intros y. apply comprehension_eq. intros x.
  apply C.
Qed.

End OtherEdges.

(** C10: an edge value other than 1, 'repeat', 2 and 'wrap' never makes the
    reader fail on a well-formed image: a coordinate outside
    [0, W-1] x [0, H-1] reads Z zeros and one inside reads the stored pixel;
    the readers of [displace] and [rescale] are the same function; and
    [pixel], [displace] and [rescale] return with such a value what they
    return with 0, the default edge of [displace] and [rescale]. *)
Theorem other_edge_reads_as_zero (img : image) (x y : Q) (edge : pyarg) :
  is_zero edge = true ->
  well_formed img = true ->
  Imin.src img x y edge
  = Ok (if outside img x y then zeros (channels img)
        else source_pixel img (int x) (int y)) /\
  Displace._src img x y edge = Imin.src img x y edge /\
  Rescale._src img x y edge = Imin.src img x y edge /\
  (forall method,
     Imin.pixel img x y edge method = Imin.pixel img x y (PyInt 0) method) /\
  (forall fx fy XNEW YNEW method,
     Displace.displace img fx fy XNEW YNEW edge method
     = Displace.displace img fx fy XNEW YNEW (PyInt 0) method) /\
  (forall XNEW YNEW method,
     Rescale.rescale img XNEW YNEW edge method
     = Rescale.rescale img XNEW YNEW (PyInt 0) method).
Proof.
  intros Z0 W.
  split; [| split; [reflexivity | split; [reflexivity | split; [| split]]]].
  - rewrite (proj1 (src_resolve img x y edge W)).
    now rewrite (resolve_zero img x y edge Z0).
  - intros method. now apply pixel_other_edges.
  - intros fx fy XNEW YNEW method. now apply displace_other_edges.
  - intros XNEW YNEW method. now apply rescale_other_edges.
Qed.

Lemma other_edge_reads_as_zero_witness :
  Imin.src img22 (5 # 2) 0 (PyStr "zero") = Ok [0] /\
  Imin.src img22 (1 # 2) 1 (PyInt 3) = Ok [200].
Proof.
  split.
  - exact (proj1 (other_edge_reads_as_zero img22 (5 # 2) 0 (PyStr "zero")
                    eq_refl eq_refl)).
  - exact (proj1 (other_edge_reads_as_zero img22 (1 # 2) 1 (PyInt 3)
                    eq_refl eq_refl)).
Defined.

(** ** Shapes of the pixels the kernels return *)

Lemma length_len {A : Type} (l : list A) (n : Z) :
  0 <= n -> List.length l = Z.to_nat n -> len l = n.
Proof. unfold len. lia. Qed.

Lemma channels_nonneg (img : image) : 0 <= channels img.
Proof. apply len_nonneg. Qed.

Lemma len_blend4 (Zn : Z) (p00 p01 p10 p11 : pixel_t) (w : Q * Q * Q * Q) :
  0 <= Zn -> len p00 = Zn -> len p01 = Zn -> len p10 = Zn -> len p11 = Zn ->
  len (blend4 Zn p00 p01 p10 p11 w) = Zn.
Proof.
  intros H A B C D. destruct w as [[[w00 w01] w10] w11].
  apply length_len; trivial. unfold blend4, tuple_of.
  apply length_map4; apply length_map_mul; now apply len_length.
Qed.

Lemma len_fold_13 (Zn : Z) (p1 p2 p3 p4 : pixel_t) (x y : Q) :
  0 <= Zn -> len p1 = Zn -> len p2 = Zn -> len p3 = Zn -> len p4 = Zn ->
  len (fold_13 Zn p1 p2 p3 p4 x y) = Zn.
Proof.
  intros H A B C D. apply length_len; trivial. unfold fold_13, tuple_of.
  cbv zeta.
  destruct (Qltb _ _); apply length_map3; apply length_map_mul;
    now apply len_length.
Qed.

Lemma len_fold_24 (Zn : Z) (p1 p2 p3 p4 : pixel_t) (x y : Q) :
  0 <= Zn -> len p1 = Zn -> len p2 = Zn -> len p3 = Zn -> len p4 = Zn ->
  len (fold_24 Zn p1 p2 p3 p4 x y) = Zn.
Proof.
  intros H A B C D. apply length_len; trivial. unfold fold_24, tuple_of.
  cbv zeta.
  destruct (Qltb _ _); apply length_map3; apply length_map_mul;
    now apply len_length.
Qed.

Lemma blin_total (img : image) (x y : Q) (edge : pyarg) :
  well_formed img = true ->
  exists p, Imin.blin img x y edge = Ok p /\ len p = channels img.
Proof.
  intros W. rewrite (blin_corners _ _ _ _ _ _ _ _ (corners_resolve img x y edge W)).
  eexists. split; [reflexivity |].
  destruct (direct_hit x y).
  - apply src_resolve, W.
  - apply len_blend4; try apply src_resolve; trivial. apply channels_nonneg.
Qed.

Lemma baryc_total (img : image) (x y : Q) (edge : pyarg) :
  well_formed img = true ->
  exists p, Imin.baryc img x y edge = Ok p /\ len p = channels img.
Proof.
  intros W. rewrite (baryc_corners _ _ _ _ _ _ _ _ (corners_resolve img x y edge W)).
  eexists. split; [reflexivity |].
  destruct (direct_hit x y); [apply src_resolve, W |].
  destruct (_ <? _); [apply len_fold_13 | apply len_fold_24];
    try apply src_resolve; trivial; apply channels_nonneg.
Qed.

Lemma len_lin (Zn : Z) (p0 p1 : pixel_t) (w0 w1 : Q) :
  0 <= Zn -> len p0 = Zn -> len p1 = Zn ->
  len (map2 Rescale._intaddup2 (map_mul p0 (tuple_of w0 Zn))
         (map_mul p1 (tuple_of w1 Zn))) = Zn.
Proof.
  intros H A B. apply length_len; trivial. unfold tuple_of.
  apply length_map2; apply length_map_mul; now apply len_length.
Qed.

Lemma xlin_total (img : image) (x : Q) (y : Z) (edge : pyarg) :
  well_formed img = true ->
  exists p, Rescale._xlin img (channels img) x y edge = Ok p /\
            len p = channels img.
Proof.
  intros W. unfold Rescale._xlin, Rescale._pixel_1.
  change Rescale._src with Imin.src. cbv zeta.
  rewrite !(proj1 (src_resolve img _ _ edge W)).
  destruct (Qeq_bool _ _); unfold bind; eexists; (split; [reflexivity |]).
  - apply src_resolve, W.
  - apply len_lin; try apply src_resolve; trivial. apply channels_nonneg.
Qed.

Lemma ylin_total (img : image) (x : Z) (y : Q) (edge : pyarg) :
  well_formed img = true ->
  exists p, Rescale._ylin img (channels img) x y edge = Ok p /\
            len p = channels img.
Proof.
  intros W. unfold Rescale._ylin, Rescale._pixel_2.
  change Rescale._src with Imin.src. cbv zeta.
  rewrite !(proj1 (src_resolve img _ _ edge W)).
  destruct (Qeq_bool _ _); unfold bind; eexists; (split; [reflexivity |]).
  - apply src_resolve, W.
  - apply len_lin; try apply src_resolve; trivial. apply channels_nonneg.
Qed.

(** ** Grids built by two nested comprehensions *)

Lemma grid_total (f : Z -> Z -> result pixel_t) (XNEW YNEW : Z) :
  (forall x y, 0 <= x < XNEW -> 0 <= y < YNEW -> exists p, f x y = Ok p) ->
  exists out,
    comprehension (fun y => comprehension (fun x => f x y) (range XNEW))
      (range YNEW) = Ok out.
Proof.
  intros H. apply comprehension_total. intros y Hy. apply in_range in Hy.
  apply comprehension_total. intros x Hx. apply in_range in Hx. now apply H.
Qed.

Lemma grid_shape (f : Z -> Z -> result pixel_t) (XNEW YNEW Zn : Z)
  (out : image) :
  0 <= XNEW -> 0 <= YNEW ->
  (forall x y p, 0 <= x < XNEW -> 0 <= y < YNEW -> f x y = Ok p -> len p = Zn) ->
  comprehension (fun y => comprehension (fun x => f x y) (range XNEW))
    (range YNEW) = Ok out ->
  has_shape out YNEW XNEW Zn = true.
Proof.
  intros HX HY H E. apply has_shape_spec.
  apply comprehension_Forall
    with (P := fun row => len row = XNEW /\ Forall (fun px => len px = Zn) row)
    in E.
  - destruct E as [L F]. split; trivial.
    unfold len. rewrite L, length_range. lia.
  - intros y row Hy Er. apply in_range in Hy.
    apply comprehension_Forall with (P := fun px => len px = Zn) in Er.
    + destruct Er as [L F]. split; trivial.
      unfold len. rewrite L, length_range. lia.
    + intros x p Hx Ep. apply in_range in Hx. now apply (H x y).
Qed.

Lemma shape_well_formed (img : image) (Y X Zn : Z) :
  has_shape img Y X Zn = true -> 1 <= Y -> 1 <= X -> 1 <= Zn ->
  well_formed img = true /\ height img = Y /\ width img = X /\
  channels img = Zn.
Proof.
  intros S HY HX HZ. apply has_shape_spec in S. destruct S as [L F].
  destruct img as [| row0 rows]; [unfold len in L; simpl in L; lia |].
  pose proof (Forall_inv F) as [L0 F0].
  destruct row0 as [| px0 pxs]; [unfold len in L0; simpl in L0; lia |].
  pose proof (Forall_inv F0) as LP.
  assert (A : height ((px0 :: pxs) :: rows) = Y) by exact L.
  assert (B : width ((px0 :: pxs) :: rows) = X) by exact L0.
  assert (C : channels ((px0 :: pxs) :: rows) = Zn) by exact LP.
  repeat split; trivial.
  apply well_formed_spec. rewrite A, B, C. repeat split; trivial.
Qed.

(** ** Shapes of the images [displace] and [rescale] return *)

Lemma truediv_ok (a b : Z) :
  b <> 0 -> truediv a b = Ok (inject_Z a / inject_Z b)%Q.
Proof.
  intros H. unfold truediv. now destruct (Z.eqb_spec b 0).
Qed.

Lemma well_formed_shape (img : image) :
  well_formed img = true ->
  has_shape img (height img) (width img) (channels img) = true.
Proof.
  unfold well_formed. rewrite !andb_true_iff. tauto.
Qed.

Lemma displace_dispatch (img : image) (fx fy : Z -> Z -> Q) (XNEW YNEW : Z)
  (edge method : pyarg) :
  has_pixel img = true ->
  driver_method method = true ->
  Displace.displace img fx fy XNEW YNEW edge method
  = comprehension
      (fun y => comprehension
                  (fun x => if is_bilinear method
                            then Imin.blin img (fx x y) (fy x y) edge
                            else Imin.baryc img (fx x y) (fy x y) edge)
                  (range XNEW))
      (range YNEW).
Proof.
  intros P M. pose proof (has_pixel_spec img P) as F.
  unfold driver_method in M. unfold Displace.displace.
  fold (is_bilinear method). fold (is_barycentric method).
  destruct F as (px0 & pxs & rows & E).
  assert (F : exists px0 pxs rows, img = (px0 :: pxs) :: rows)
    by (now exists px0, pxs, rows).
  destruct (is_bilinear method).
  - unfold Displace.bilinear. rewrite E at 1.
    rewrite index_head. unfold bind at 1. rewrite index_head. unfold bind at 1.
    rewrite <- (first_pixel_channels px0 pxs rows), <- E.
    apply comprehension_eq. intros y. apply comprehension_eq. intros x.
    now apply Displace_blin_eq.
  - simpl in M. rewrite M.
    unfold Displace.barycentric. rewrite E at 1.
    rewrite index_head. unfold bind at 1. rewrite index_head. unfold bind at 1.
    rewrite <- (first_pixel_channels px0 pxs rows), <- E.
    apply comprehension_eq. intros y. apply comprehension_eq. intros x.
    now apply Displace_baryc_eq.
Qed.

Lemma displace_returns_shape (img : image) (fx fy : Z -> Z -> Q)
  (XNEW YNEW : Z) (edge method : pyarg) :
  well_formed img = true -> 0 <= XNEW -> 0 <= YNEW ->
  driver_method method = true ->
  exists out,
    Displace.displace img fx fy XNEW YNEW edge method = Ok out /\
    has_shape out YNEW XNEW (channels img) = true.
Proof.
  intros W HX HY M.
  rewrite (displace_dispatch img fx fy XNEW YNEW edge method
             (well_formed_has_pixel img W) M).
  assert (T : forall x y, exists p,
             (if is_bilinear method then Imin.blin img (fx x y) (fy x y) edge
              else Imin.baryc img (fx x y) (fy x y) edge) = Ok p /\
             len p = channels img).
  { intros x y. destruct (is_bilinear method);
      [now apply blin_total | now apply baryc_total]. }
  destruct (grid_total
              (fun x y => if is_bilinear method
                          then Imin.blin img (fx x y) (fy x y) edge
                          else Imin.baryc img (fx x y) (fy x y) edge)
              XNEW YNEW) as [out E].
  { intros x y _ _. destruct (T x y) as [p [Ep _]]. now exists p. }
  exists out. split; [exact E |].
  apply grid_shape with (Zn := channels img) in E; trivial.
  intros x y p _ _ Ep. destruct (T x y) as [q [Eq L]]. congruence.
Qed.

(** The column pass on an intermediate image of [Y] rows of [XNEW] pixels. *)
Lemma column_pass_shape (im : image) (Y XNEW YNEW Zn : Z) (y_resize : Q)
  (edge : pyarg) :
  has_shape im Y XNEW Zn = true -> 1 <= Y -> 1 <= Zn ->
  0 <= XNEW -> 0 <= YNEW ->
  exists out,
    comprehension
      (fun y => comprehension
                  (fun x => Rescale._ylin im Zn x (y_resize * inject_Z y)%Q edge)
                  (range XNEW))
      (range YNEW) = Ok out /\
    has_shape out YNEW XNEW Zn = true.
Proof.
  intros S HY HZ HX HYN.
  assert (T : forall x y, 0 <= x < XNEW -> exists p,
             Rescale._ylin im Zn x (y_resize * inject_Z y)%Q edge = Ok p /\
             len p = Zn).
  { intros x y Hx.
    destruct (shape_well_formed im Y XNEW Zn S) as (W & _ & _ & C);
      trivial; try lia.
    rewrite <- C. now apply ylin_total. }
  destruct (grid_total
              (fun x y => Rescale._ylin im Zn x (y_resize * inject_Z y)%Q edge)
              XNEW YNEW) as [out E].
  { intros x y Hx _. destruct (T x y Hx) as [p [Ep _]]. now exists p. }
  exists out. split; [exact E |].
  apply grid_shape with (Zn := Zn) in E; trivial.
  intros x y p Hx _ Ep. destruct (T x y Hx) as [q [Eq L]]. congruence.
Qed.

Lemma rescale_returns_shape (img : image) (XNEW YNEW : Z)
  (edge method : pyarg) :
  well_formed img = true -> 0 <= XNEW -> 0 <= YNEW ->
  XNEW <> 1 -> YNEW <> 1 ->
  driver_method method = true ->
  exists out,
    Rescale.rescale img XNEW YNEW edge method = Ok out /\
    has_shape out YNEW XNEW (channels img) = true.
Proof.
  intros W HX HY NX NY M.
  pose proof (well_formed_has_pixel img W) as P.
  pose proof W as W'. apply well_formed_spec in W'.
  destruct W' as (H1 & H2 & H3 & _).
  rewrite (rescale_dispatch img XNEW YNEW edge method M).
  destruct (is_bilinear method).
  - rewrite (bilinear_unfold img XNEW YNEW edge P).
    rewrite !truediv_ok by lia. unfold bind at 1 2.
    set (x_resize := (inject_Z (width img - 1) / inject_Z (XNEW - 1))%Q).
    set (y_resize := (inject_Z (height img - 1) / inject_Z (YNEW - 1))%Q).
    assert (I : exists im,
               (if XNEW =? width img then Ok img
                else comprehension
                       (fun y => comprehension
                                   (fun x => Rescale._xlin img (channels img)
                                               (x_resize * inject_Z x)%Q y edge)
                                   (range XNEW))
                       (range (height img))) = Ok im /\
               has_shape im (height img) XNEW (channels img) = true).
    { destruct (Z.eqb_spec XNEW (width img)) as [-> | N].
      - exists img. split; trivial. now apply well_formed_shape.
      - destruct (grid_total
                    (fun x y => Rescale._xlin img (channels img)
                                  (x_resize * inject_Z x)%Q y edge)
                    XNEW (height img)) as [im E].
        { intros x y _ _.
          destruct (xlin_total img (x_resize * inject_Z x)%Q y edge W)
            as [p [Ep _]].
          now exists p. }
        exists im. split; [exact E |].
        apply grid_shape with (Zn := channels img) in E; trivial; [lia |].
        intros x y p _ _ Ep.
        destruct (xlin_total img (x_resize * inject_Z x)%Q y edge W)
          as [q [Eq L]].
        congruence. }
    destruct I as [im [-> S]]. unfold bind.
    destruct (Z.eqb_spec YNEW (height img)) as [-> | N].
    + now exists im.
    + now apply (column_pass_shape im (height img)).
  - rewrite (barycentric_unfold img XNEW YNEW edge P).
    rewrite !truediv_ok by lia. unfold bind.
    set (x_resize := (inject_Z (width img - 1) / inject_Z (XNEW - 1))%Q).
    set (y_resize := (inject_Z (height img - 1) / inject_Z (YNEW - 1))%Q).
    assert (T : forall x y, exists p,
               Rescale._baryc img (channels img) (x_resize * inject_Z x)%Q
                 (y_resize * inject_Z y)%Q edge = Ok p /\
               len p = channels img).
    { intros x y. rewrite Rescale_baryc_eq by now apply has_pixel_spec.
      now apply baryc_total. }
    destruct (grid_total
                (fun x y => Rescale._baryc img (channels img)
                              (x_resize * inject_Z x)%Q
                              (y_resize * inject_Z y)%Q edge)
                XNEW YNEW) as [out E].
    { intros x y _ _. destruct (T x y) as [p [Ep _]]. now exists p. }
    exists out. split; [exact E |].
    apply grid_shape with (Zn := channels img) in E; trivial.
    intros x y p _ _ Ep. destruct (T x y) as [q [Eq L]]. congruence.
Qed.

(** C9: on a well-formed source image and for target sizes that are not
    negative, every image [displace] or [rescale] returns has YNEW rows of
    XNEW pixels, each with the channel count of the source; [displace]
    returns one for both methods, and [rescale] does unless a target size
    is 1. *)
Theorem returned_images_have_shape (img : image) (XNEW YNEW : Z)
  (edge method : pyarg) :
  well_formed img = true -> 0 <= XNEW -> 0 <= YNEW ->
  (forall fx fy out,
     Displace.displace img fx fy XNEW YNEW edge method = Ok out ->
     has_shape out YNEW XNEW (channels img) = true) /\
  (forall out,
     Rescale.rescale img XNEW YNEW edge method = Ok out ->
     has_shape out YNEW XNEW (channels img) = true) /\
  (driver_method method = true ->
   forall fx fy, exists out,
     Displace.displace img fx fy XNEW YNEW edge method = Ok out) /\
  (driver_method method = true -> XNEW <> 1 -> YNEW <> 1 ->
   exists out, Rescale.rescale img XNEW YNEW edge method = Ok out).
Proof.
  intros W HX HY.
  assert (V : driver_method method = false ->
              (forall fx fy out,
                 Displace.displace img fx fy XNEW YNEW edge method <> Ok out) /\
              (forall out, Rescale.rescale img XNEW YNEW edge method <> Ok out)).
  { unfold driver_method, is_bilinear, is_barycentric.
    unfold Displace.displace, Rescale.rescale. intros M.
    apply orb_false_iff in M. destruct M as [-> ->].
    split; intros; discriminate. }
  split; [| split; [| split]].
  - intros fx fy out E. destruct (driver_method method) eqn:M.
    + destruct (displace_returns_shape img fx fy XNEW YNEW edge method)
        as [out' [E' S]]; trivial.
      congruence.
    + now destruct (proj1 (V eq_refl) fx fy out).
  - intros out E. destruct (driver_method method) eqn:M.
    + destruct (Z.eq_dec XNEW 1) as [DX | DX];
        [| destruct (Z.eq_dec YNEW 1) as [DY | DY]].
      * rewrite (rescale_dispatch img XNEW YNEW edge method M) in E.
        rewrite (bilinear_unfold img XNEW YNEW edge
                   (well_formed_has_pixel img W)) in E.
        rewrite (barycentric_unfold img XNEW YNEW edge
                   (well_formed_has_pixel img W)) in E.
        rewrite !(resize_factors_raise XNEW YNEW _ _
                    (fun x_resize y_resize => _)) in E by now left.
        now destruct (is_bilinear method).
      * rewrite (rescale_dispatch img XNEW YNEW edge method M) in E.
        rewrite (bilinear_unfold img XNEW YNEW edge
                   (well_formed_has_pixel img W)) in E.
        rewrite (barycentric_unfold img XNEW YNEW edge
                   (well_formed_has_pixel img W)) in E.
        rewrite !(resize_factors_raise XNEW YNEW _ _
                    (fun x_resize y_resize => _)) in E by now right.
        now destruct (is_bilinear method).
      * destruct (rescale_returns_shape img XNEW YNEW edge method)
          as [out' [E' S]]; trivial.
        congruence.
    + now destruct (proj2 (V eq_refl) out).
  - intros M fx fy.
    destruct (displace_returns_shape img fx fy XNEW YNEW edge method)
      as [out [E _]]; trivial.
    now exists out.
  - intros M NX NY.
    destruct (rescale_returns_shape img XNEW YNEW edge method)
      as [out [E _]]; trivial.
    now exists out.
Qed.

Lemma returned_images_have_shape_witness :
  has_shape [[[0]; [50]; [100]]; [[100]; [138]; [177]]; [[200]; [227]; [255]]]
    3 3 (channels img22) = true.
Proof.
  apply (proj1 (proj2 (returned_images_have_shape img22 3 3 (PyInt 1) (PyInt 1)
                         eq_refl ltac:(lia) ltac:(lia)))).
  reflexivity.
Defined.

(** ** Rescaling to the size of the source *)

Lemma unit_factor (a n : Z) :
  a <> 0 -> (inject_Z a / inject_Z a * inject_Z n == inject_Z n)%Q.
Proof.
  intros H. field. intros E. apply H.
  unfold Qeq in E. simpl in E. lia.
Qed.

Lemma row_of_source (img : image) (y : Z) :
  well_formed img = true -> 0 <= y < height img ->
  len (nth (Z.to_nat y) img []) = width img.
Proof.
  intros W Hy. apply well_formed_spec in W. destruct W as (_ & _ & _ & F).
  rewrite Forall_forall in F. apply F. apply nth_In.
  unfold height, len in Hy. lia.
Qed.

(** C4, as stated, fails: an image of width 1 or height 1 is not returned,
    the division by [XNEW - 1 = 0] or [YNEW - 1 = 0] raises, with both
    methods. *)
Lemma rescale_same_size_counterexample :
  well_formed img12 = true /\
  Rescale.rescale img12 (width img12) (height img12) (PyInt 1) (PyInt 1)
  = Raise ZeroDivisionError /\
  Rescale.rescale img12 (width img12) (height img12) (PyInt 1) (PyInt 2)
  = Raise ZeroDivisionError /\
  Rescale.rescale img12 (width img12) (height img12) (PyInt 1) (PyInt 1)
  <> Ok img12.
Proof.
  repeat (split; [reflexivity |]).
  intros H. vm_compute in H. discriminate.
Qed.

(** C4, amended: for every well-formed source image of width W >= 2 and
    height H >= 2, every edge value and both methods,
    [rescale(image, W, H, edge, method)] returns the source image. *)
Theorem rescale_same_size_identity (img : image) (edge method : pyarg) :
  well_formed img = true -> 2 <= width img -> 2 <= height img ->
  driver_method method = true ->
  Rescale.rescale img (width img) (height img) edge method = Ok img.
Proof.
  intros W HX HY M. pose proof (well_formed_has_pixel img W) as P.
  rewrite (rescale_dispatch img _ _ edge method M).
  destruct (is_bilinear method).
  - rewrite (bilinear_unfold img _ _ edge P).
    rewrite !truediv_ok by lia. unfold bind. now rewrite !Z.eqb_refl.
  - rewrite (barycentric_unfold img _ _ edge P).
    rewrite !truediv_ok by lia. unfold bind.
    set (x_resize := (inject_Z (width img - 1) / inject_Z (width img - 1))%Q).
    set (y_resize := (inject_Z (height img - 1) / inject_Z (height img - 1))%Q).
    rewrite (comprehension_ext _ (fun y => nth (Z.to_nat y) img [])).
    + unfold height. now rewrite map_nth_range.
    + intros y Hy. apply in_range in Hy.
      rewrite (comprehension_ext _ (fun x => source_pixel img x y)).
      * unfold source_pixel. rewrite <- (row_of_source img y W Hy).
        now rewrite map_nth_range.
      * intros x Hx. apply in_range in Hx.
        rewrite Rescale_baryc_eq by now apply has_pixel_spec.
        apply kernels_exact_hit; trivial; try lia;
          apply unit_factor; lia.
Qed.

Lemma rescale_same_size_identity_witness :
  Rescale.rescale img22 (width img22) (height img22) (PyInt 0) (PyInt 2)
  = Ok img22.
Proof.
  apply rescale_same_size_identity; try reflexivity; simpl; lia.
Defined.

(** * Further properties of the package *)

(** ** The edge modes of the reader *)

Lemma wrap_not_repeat (edge : pyarg) :
  is_wrap edge = true -> is_repeat edge = false.
Proof.
  unfold is_repeat, is_wrap. intros H.
  destruct edge as [n | s]; simpl in *.
  - rewrite orb_false_r in H. apply Z.eqb_eq in H. now subst n.
  - apply String.eqb_eq in H. now subst s.
Qed.

Lemma has_pixel_sizes (img : image) :
  has_pixel img = true -> 1 <= width img /\ 1 <= height img.
Proof.
  intros P. destruct (has_pixel_spec img P) as (px0 & pxs & rows & ->).
  unfold width, height, len. simpl. lia.
Qed.

Lemma src_no_pixel (img : image) (x y : Q) (edge : pyarg) :
  has_pixel img = false -> Imin.src img x y edge = Raise IndexError.
Proof.
  destruct img as [| [| px0 pxs] rows]; trivial. discriminate.
Qed.

(** X1: with the wrap edge the reader is periodic in both directions: moving
    an integer cell by any whole number of widths and heights, negative ones
    included, reads the same pixel (or fails alike on an image without a
    first pixel). *)
Theorem wrap_edge_is_periodic (img : image) (x y k j : Z) (edge : pyarg) :
  is_wrap edge = true ->
  sample img (x + k * width img) (y + j * height img) edge
  = sample img x y edge.
Proof.
  intros W. unfold sample. destruct (has_pixel img) eqn:P.
  - destruct (has_pixel_sizes img P) as [HX HY].
    rewrite !src_unfold by trivial.
    rewrite (wrap_not_repeat edge W), W, !int_inject_Z. unfold pymod.
    destruct (Z.eqb_spec (width img) 0); [lia |].
    destruct (Z.eqb_spec (height img) 0); [lia |].
    now rewrite !Z.mod_add by lia.
  - now rewrite !src_no_pixel.
Qed.

Lemma wrap_edge_is_periodic_witness :
  sample img22 (1 + -3 * width img22) (0 + 5 * height img22) (PyStr "wrap")
  = sample img22 1 0 (PyStr "wrap").
Proof. apply wrap_edge_is_periodic. reflexivity. Defined.

Lemma clamp_is_clamped_cell (n : Z) (v : Q) :
  1 <= n -> Z.min (n - 1) (Z.max 0 (int v)) = clamped_cell n v.
Proof.
  intros H. unfold clamped_cell.
  destruct (Qltb v 0) eqn:A.
  - apply Qltb_lt in A. apply Qlt_le_weak in A.
    rewrite int_nonpos by trivial.
    assert (Qceiling v <= 0)
      by (change 0 with (Qceiling 0); now apply Qceiling_resp_le).
    lia.
  - apply Qltb_ge in A. rewrite int_nonneg by trivial.
    assert (0 <= Qfloor v)
      by (change 0 with (Qfloor 0); now apply Qfloor_resp_le).
    destruct (Qltb (inject_Z (n - 1)) v) eqn:B.
    + apply Qltb_lt in B. apply Qlt_le_weak in B.
      apply Qfloor_resp_le in B. rewrite Qfloor_Z in B. lia.
    + apply Qltb_ge in B. apply Qfloor_resp_le in B. rewrite Qfloor_Z in B.
      lia.
Qed.

(** X2: with the repeat edge the reader never fails on a well-formed image
    and never makes up a value: it returns the stored pixel of the cell got
    by moving the coordinate into [0, W-1] x [0, H-1] and flooring it, so a
    coordinate left of, right of, above or below the image reads the nearest
    border pixel. *)
Theorem repeat_edge_reads_border (img : image) (x y : Q) (edge : pyarg) :
  well_formed img = true ->
  is_repeat edge = true ->
  Imin.src img x y edge
  = Ok (source_pixel img (clamped_cell (width img) x)
          (clamped_cell (height img) y)) /\
  0 <= clamped_cell (width img) x <= width img - 1 /\
  0 <= clamped_cell (height img) y <= height img - 1.
Proof.
  intros W R. pose proof W as W'. apply well_formed_spec in W'.
  destruct W' as (HY & HX & _ & _).
  rewrite (proj1 (src_resolve img x y edge W)). unfold resolve. rewrite R.
  rewrite <- !clamp_is_clamped_cell by trivial. repeat split; lia.
Qed.

Lemma repeat_edge_reads_border_witness :
  Imin.src img22 (-5) (7 # 2) (PyInt 1) = Ok (source_pixel img22 0 1).
Proof.
  apply (proj1 (repeat_edge_reads_border img22 (-5) (7 # 2) (PyInt 1)
                  eq_refl eq_refl)).
Defined.

(** ** Displacement along integer maps *)

Lemma image_of_source_pixels (img : image) :
  well_formed img = true ->
  map (fun y => map (fun x => source_pixel img x y) (range (width img)))
    (range (height img)) = img.
Proof.
  intros W.
  rewrite (map_ext_in _ (fun y => nth (Z.to_nat y) img [])).
  - unfold height. apply map_nth_range.
  - intros y Hy. apply in_range in Hy. unfold source_pixel.
    rewrite <- (row_of_source img y W Hy). apply map_nth_range.
Qed.

Lemma displace_reads_cells (img : image) (gx gy : Z -> Z -> Z)
  (fx fy : Z -> Z -> Q) (XNEW YNEW : Z) (edge method : pyarg) :
  well_formed img = true ->
  driver_method method = true ->
  (forall x y, 0 <= x < XNEW -> 0 <= y < YNEW ->
     (fx x y == inject_Z (gx x y))%Q /\ (fy x y == inject_Z (gy x y))%Q /\
     0 <= gx x y <= width img - 1 /\ 0 <= gy x y <= height img - 1) ->
  Displace.displace img fx fy XNEW YNEW edge method
  = Ok (map (fun y => map (fun x => source_pixel img (gx x y) (gy x y))
                        (range XNEW))
          (range YNEW)).
Proof.
  intros W M G.
  rewrite (displace_dispatch img fx fy XNEW YNEW edge method
             (well_formed_has_pixel img W) M).
  apply comprehension_ext. intros y Hy. apply in_range in Hy.
  apply comprehension_ext. intros x Hx. apply in_range in Hx.
  destruct (G x y Hx Hy) as (Ex & Ey & Bx & By).
  destruct (kernels_exact_hit img (fx x y) (fy x y) (gx x y) (gy x y) edge
              W Ex Ey Bx By) as (_ & B & C).
  now destruct (is_bilinear method).
Qed.

(** X4: when the two coordinate functions of [displace] hit integer cells
    of a well-formed image, the result is made of the stored pixels of
    these cells, without blending, for both methods and every edge value:
    shifts, flips, crops and tilings by whole pixels are exact. *)
Theorem displace_integer_map_copies (img : image) (gx gy : Z -> Z -> Z)
  (fx fy : Z -> Z -> Q) (XNEW YNEW : Z) (edge method : pyarg) :
  well_formed img = true ->
  driver_method method = true ->
  (forall x y, 0 <= x < XNEW -> 0 <= y < YNEW ->
     (fx x y == inject_Z (gx x y))%Q /\ (fy x y == inject_Z (gy x y))%Q /\
     0 <= gx x y <= width img - 1 /\ 0 <= gy x y <= height img - 1) ->
  Displace.displace img fx fy XNEW YNEW edge method
  = Ok (map (fun y => map (fun x => source_pixel img (gx x y) (gy x y))
                        (range XNEW))
          (range YNEW)).
Proof. exact (displace_reads_cells img gx gy fx fy XNEW YNEW edge method). Qed.

Lemma displace_integer_map_copies_witness :
  Displace.displace img22 (fun x y => inject_Z (1 - x)) (fun x y => inject_Z y)
    2 2 (PyInt 0) (PyInt 2)
  = Ok [[[100]; [0]]; [[255]; [200]]].
Proof.
  apply (displace_integer_map_copies img22 (fun x y => 1 - x) (fun x y => y)
           (fun x y => inject_Z (1 - x)) (fun x y => inject_Z y) 2 2
           (PyInt 0) (PyInt 2)); try reflexivity.
  intros x y Hx Hy. change (width img22) with 2. change (height img22) with 2.
  repeat split; try reflexivity; lia.
Defined.

(** X5: [displace] along the identity map, to the size of a well-formed
    source, returns the source, for both methods and every edge value; no
    division is involved, so this holds for images one pixel wide or high
    too. *)
Theorem displace_identity (img : image) (edge method : pyarg) :
  well_formed img = true ->
  driver_method method = true ->
  Displace.displace img (fun x y => inject_Z x) (fun x y => inject_Z y)
    (width img) (height img) edge method = Ok img.
Proof.
  intros W M.
  rewrite (displace_reads_cells img (fun x y => x) (fun x y => y)); trivial.
  - now rewrite image_of_source_pixels.
  - intros x y Hx Hy. repeat split; try reflexivity; lia.
Qed.

Lemma displace_identity_witness :
  Displace.displace img12 (fun x y => inject_Z x) (fun x y => inject_Z y)
    (width img12) (height img12) (PyInt 2) (PyInt 1) = Ok img12.
Proof. apply displace_identity; reflexivity. Defined.

(** ** Uniform neighbourhoods *)

Lemma blend3_same (n : nat) (p : pixel_t) (a b c : Q) :
  List.length p = n ->
  (a + b + c == 1)%Q ->
  map3 Imin.intaddup3 (map_mul p (repeat a n)) (map_mul p (repeat b n))
    (map_mul p (repeat c n)) = p.
Proof.
  intros L S. revert n L. induction p as [| v p IH]; intros n L.
  - now destruct n.
  - destruct n as [| n]; [discriminate |].
    cbn [repeat map_mul map3]. f_equal.
    + unfold Imin.intaddup3. rewrite <- (int_inject_Z v) at 4.
      apply int_Qeq.
      setoid_replace (inject_Z v * a + inject_Z v * b + inject_Z v * c)%Q
        with (inject_Z v * (a + b + c))%Q by ring.
      rewrite S. ring.
    + apply IH. now injection L.
Qed.

Lemma fold_13_same (Zn : Z) (p : pixel_t) (x y : Q) :
  len p = Zn -> fold_13 Zn p p p p x y = p.
Proof.
  intros L. apply len_length in L. unfold fold_13, tuple_of. cbv zeta.
  destruct (Qltb _ _); apply blend3_same; trivial; ring.
Qed.

Lemma fold_24_same (Zn : Z) (p : pixel_t) (x y : Q) :
  len p = Zn -> fold_24 Zn p p p p x y = p.
Proof.
  intros L. apply len_length in L. unfold fold_24, tuple_of. cbv zeta.
  destruct (Qltb _ _); apply blend3_same; trivial; ring.
Qed.

Lemma corner_length (img : image) (x y : Q) (edge : pyarg)
  (p1 p2 p3 p4 : pixel_t) :
  well_formed img = true ->
  corners img x y edge = Ok (p1, p2, p3, p4) ->
  len p1 = channels img.
Proof.
  intros W C. apply corners_inv in C. destruct C as (C1 & _).
  unfold sample in C1.
  destruct (src_resolve img (inject_Z (lower_cell x)) (inject_Z (lower_cell y))
              edge W) as [R L].
  rewrite R in C1. injection C1 as <-. exact L.
Qed.

Lemma pixel_eqb_eq (p q : pixel_t) : pixel_eqb p q = true -> q = p.
Proof. unfold pixel_eqb. now destruct (list_eq_dec Z.eq_dec p q). Qed.

Lemma uniform_source_pixel (img : image) (p : pixel_t) (cx cy : Z) :
  well_formed img = true -> uniform p img = true ->
  0 <= cx < width img -> 0 <= cy < height img ->
  source_pixel img cx cy = p.
Proof.
  intros W U Hx Hy. unfold uniform in U. rewrite forallb_forall in U.
  pose proof (row_of_source img cy W Hy) as L.
  assert (I : In (nth (Z.to_nat cy) img []) img).
  { apply nth_In. unfold height, len in Hy. lia. }
  specialize (U _ I). rewrite forallb_forall in U.
  apply pixel_eqb_eq, U. unfold source_pixel. apply nth_In.
  unfold len in L. lia.
Qed.

Lemma uniform_resolve (img : image) (p : pixel_t) (x y : Q) (edge : pyarg) :
  well_formed img = true -> uniform p img = true -> is_zero edge = false ->
  resolve img x y edge = p.
Proof.
  intros W U Z0. pose proof W as W'. apply well_formed_spec in W'.
  destruct W' as (HY & HX & _ & _).
  unfold is_zero in Z0. unfold resolve.
  destruct (is_repeat edge).
  - apply uniform_source_pixel; trivial; lia.
  - destruct (is_wrap edge); [| discriminate].
    apply uniform_source_pixel; trivial; apply Z.mod_pos_bound; lia.
Qed.

Lemma blin_same_corners (img : image) (x y : Q) (edge : pyarg) (p : pixel_t) :
  well_formed img = true ->
  corners img x y edge = Ok (p, p, p, p) ->
  Imin.blin img x y edge = Ok p.
Proof.
  intros W C. pose proof (corner_length img x y edge p p p p W C) as L.
  rewrite (blin_corners img x y edge p p p p C).
  destruct (direct_hit x y); trivial. f_equal.
  pose proof (blin_weights_sum x y) as S.
  destruct (blin_weights x y) as [[[w00 w01] w10] w11].
  unfold blend4, tuple_of. apply blend_same; trivial. now apply len_length.
Qed.

(** ** Samples of the source image *)

Lemma lower_cell_below (v : Q) : (inject_Z (lower_cell v) <= v)%Q.
Proof.
  destruct (Qlt_le_dec v 0) as [L | L].
  - rewrite lower_cell_neg by trivial. apply Qlt_le_weak, Qceiling_lt.
  - rewrite lower_cell_nonneg by trivial. apply Qfloor_le.
Qed.

Lemma lower_cell_above (v : Q) : (v <= inject_Z (lower_cell v) + 1)%Q.
Proof.
  destruct (Qlt_le_dec v 0) as [L | L].
  - rewrite lower_cell_neg by trivial.
    apply Qle_trans with (inject_Z (Qceiling v)); [apply Qle_ceiling |].
    change 1%Q with (inject_Z 1).
    rewrite <- (inject_Z_plus (Qceiling v - 1) 1), <- Zle_Qle. lia.
  - rewrite lower_cell_nonneg by trivial.
    change 1%Q with (inject_Z 1).
    rewrite <- (inject_Z_plus (Qfloor v) 1). apply Qlt_le_weak, Qlt_floor.
Qed.

Lemma within_cons (M v : Z) (p : pixel_t) :
  within M (v :: p) = true <-> 0 <= v <= M /\ within M p = true.
Proof.
  unfold within. simpl. rewrite !andb_true_iff, !Z.leb_le. tauto.
Qed.

Lemma within_zeros (M : Z) (n : nat) : 0 <= M -> within M (repeat 0 n) = true.
Proof.
  intros H. induction n as [| n IH]; trivial.
  simpl repeat. apply within_cons. split; [lia | exact IH].
Qed.

Lemma samples_within_spec (M : Z) (img : image) :
  samples_within M img = true <->
  (forall row p, In row img -> In p row -> within M p = true).
Proof.
  unfold samples_within. rewrite forallb_forall. split.
  - intros H row p Hr Hp. specialize (H row Hr).
    rewrite forallb_forall in H. now apply H.
  - intros H row Hr. apply forallb_forall. intros p Hp. now apply (H row).
Qed.

Lemma samples_within_nonneg (M : Z) (img : image) :
  well_formed img = true -> samples_within M img = true -> 0 <= M.
Proof.
  intros W S. pose proof W as W'. apply well_formed_spec in W'.
  destruct W' as (_ & _ & HZ & _).
  destruct (well_formed_first img W) as (px0 & pxs & rows & ->).
  rewrite samples_within_spec in S.
  specialize (S (px0 :: pxs) px0 (or_introl eq_refl) (or_introl eq_refl)).
  destruct px0 as [| v px0]; [unfold channels, len in HZ; simpl in HZ; lia |].
  apply within_cons in S. lia.
Qed.

Lemma within_source_pixel (M : Z) (img : image) (cx cy : Z) :
  well_formed img = true -> samples_within M img = true ->
  0 <= cx < width img -> 0 <= cy < height img ->
  within M (source_pixel img cx cy) = true.
Proof.
  intros W S Hx Hy. rewrite samples_within_spec in S.
  pose proof (row_of_source img cy W Hy) as L.
  apply (S (nth (Z.to_nat cy) img [])).
  - apply nth_In. unfold height, len in Hy. lia.
  - unfold source_pixel. apply nth_In. unfold len in L. lia.
Qed.

Lemma within_resolve (M : Z) (img : image) (x y : Q) (edge : pyarg) :
  well_formed img = true -> samples_within M img = true ->
  within M (resolve img x y edge) = true.
Proof.
  intros W S. pose proof W as W'. apply well_formed_spec in W'.
  destruct W' as (HY & HX & _ & _).
  pose proof (within_source_pixel M img) as R.
  unfold resolve.
  destruct (is_repeat edge); [apply R; trivial; lia |].
  destruct (is_wrap edge); [apply R; trivial; apply Z.mod_pos_bound; lia |].
  destruct (outside img x y) eqn:O.
  - apply within_zeros. now apply (samples_within_nonneg M img).
  - apply outside_false in O. destruct O as (A & B & C & D).
    pose proof (int_between x _ A B). pose proof (int_between y _ C D).
    apply R; trivial; lia.
Qed.

Lemma grid_pixels (P : pixel_t -> Prop) (f : Z -> Z -> result pixel_t)
  (XNEW YNEW : Z) (out : image) :
  (forall x y p, 0 <= x < XNEW -> 0 <= y < YNEW -> f x y = Ok p -> P p) ->
  comprehension (fun y => comprehension (fun x => f x y) (range XNEW))
    (range YNEW) = Ok out ->
  forall row p, In row out -> In p row -> P p.
Proof.
  intros H E.
  apply comprehension_Forall with (P := Forall P) in E.
  - destruct E as [_ F]. rewrite Forall_forall in F.
    intros row p Hr Hp. specialize (F row Hr). rewrite Forall_forall in F.
    now apply F.
  - intros y row Hy Er. apply in_range in Hy.
    apply comprehension_Forall with (P := P) in Er; [tauto |].
    intros x p Hx Ep. apply in_range in Hx. now apply (H x y).
Qed.

Lemma lower_cell_int (v : Q) : (0 <= v)%Q -> lower_cell v = int v.
Proof.
  intros H. unfold lower_cell. now rewrite (proj2 (Qle_bool_iff 0 v) H).
Qed.

(** ** The modules of [scalers] *)

Section Scalers.

Variables e e' : pyarg.
Hypothesis bilinear_reader :
  forall img x y, Scalers_bilinear.pixel img x y e = Imin.src img x y e'.
Hypothesis barycentric_reader :
  forall img x y, Scalers_barycentric.pixel img x y e = Imin.src img x y e'.

Lemma scalers_bilinear_scale (img : image) (XNEW YNEW : Z) :
  Scalers_bilinear.scale img XNEW YNEW e = Rescale.bilinear img XNEW YNEW e'.
Proof.
  assert (A : forall im Zn x y,
             Scalers_bilinear._xlin im Zn x y e = Rescale._xlin im Zn x y e').
  { intros. unfold Scalers_bilinear._xlin, Scalers_bilinear._pixel_1,
      Rescale._xlin, Rescale._pixel_1.
    change Rescale._src with Imin.src. cbv zeta.
    now rewrite !bilinear_reader. }
  assert (B : forall im Zn x y,
             Scalers_bilinear._ylin im Zn x y e = Rescale._ylin im Zn x y e').
  { intros. unfold Scalers_bilinear._ylin, Scalers_bilinear._pixel_2,
      Rescale._ylin, Rescale._pixel_2.
    change Rescale._src with Imin.src. cbv zeta.
    now rewrite !bilinear_reader. }
  unfold Scalers_bilinear.scale, Rescale.bilinear, bind.
  destruct (index img 0) as [row0 | ex]; [| reflexivity].
  destruct (index row0 0) as [px0 | ex]; [| reflexivity].
  destruct (truediv _ (XNEW - 1)) as [x_resize | ex]; [| reflexivity].
  destruct (truediv _ (YNEW - 1)) as [y_resize | ex]; [| reflexivity].
  rewrite (comprehension_eq
             (fun y => comprehension
                         (fun x => Scalers_bilinear._xlin img (len px0)
                                     (x_resize * inject_Z x)%Q y e)
                         (range XNEW))
             (fun y => comprehension
                         (fun x => Rescale._xlin img (len px0)
                                     (x_resize * inject_Z x)%Q y e')
                         (range XNEW)))
    by (intros y; apply comprehension_eq; intros x; apply A).
  destruct (if XNEW =? len row0 then _ else _) as [im | ex]; trivial.
  destruct (YNEW =? _); trivial.
  apply comprehension_eq. intros y. apply comprehension_eq. intros x.
  apply B.
Qed.

Lemma scalers_barycentric_scale (img : image) (XNEW YNEW : Z) :
  Scalers_barycentric.scale img XNEW YNEW e
  = Rescale.barycentric img XNEW YNEW e'.
Proof.
  assert (C : forall Zn x y,
             Scalers_barycentric._baryc img Zn x y e
             = Rescale._baryc img Zn x y e').
  { intros. unfold Scalers_barycentric._baryc, Scalers_barycentric._pixel,
      Rescale._baryc, Rescale._pixel.
    change Rescale._src with Imin.src. cbv zeta.
    now rewrite !barycentric_reader. }
  unfold Scalers_barycentric.scale, Rescale.barycentric, bind.
  destruct (index img 0) as [row0 | ex]; [| reflexivity].
  destruct (index row0 0) as [px0 | ex]; [| reflexivity].
  destruct (truediv _ (XNEW - 1)) as [x_resize | ex]; [| reflexivity].
  destruct (truediv _ (YNEW - 1)) as [y_resize | ex]; [| reflexivity].
  apply comprehension_eq. intros y. apply comprehension_eq. intros x.
  apply C.
Qed.

End Scalers.

Lemma scalers_reader_int (img : image) (x y : Q) (n : Z) :
  Scalers_bilinear.pixel img x y (PyInt n) = Imin.src img x y (PyInt n).
Proof.
  unfold Scalers_bilinear.pixel, Imin.src, eq_int, eq_str.
  now rewrite !orb_false_r.
Qed.

Lemma scalers_reader_str (img : image) (x y : Q) (s : string) :
  Scalers_bilinear.pixel img x y (PyStr s) = Imin.src img x y (PyInt 0).
Proof. reflexivity. Qed.

(** X11: the modules of [scalers] do not know an edge given as a string:
    on a well-formed image their pixel readers answer every string, also
    ['repeat'] and ['wrap'], like the zero edge, with zeros outside
    [0, W-1] x [0, H-1] and the stored pixel inside; so outside the image
    they read zeros where the reader of [imin] reads the border pixel
    (['repeat']) or the wrapped one (['wrap']). *)
Theorem scalers_string_edge_reads_zero (img : image) (x y : Q) (s : string) :
  well_formed img = true ->
  Scalers_bilinear.pixel img x y (PyStr s)
  = Ok (if outside img x y then zeros (channels img)
        else source_pixel img (int x) (int y)) /\
  Scalers_barycentric.pixel img x y (PyStr s)
  = Ok (if outside img x y then zeros (channels img)
        else source_pixel img (int x) (int y)) /\
  (outside img x y = true ->
   Scalers_bilinear.pixel img x y (PyStr "repeat") = Ok (zeros (channels img)) /\
   Scalers_bilinear.pixel img x y (PyStr "wrap") = Ok (zeros (channels img)) /\
   Imin.src img x y (PyStr "repeat")
   = Ok (source_pixel img (Z.min (width img - 1) (Z.max 0 (int x)))
           (Z.min (height img - 1) (Z.max 0 (int y)))) /\
   Imin.src img x y (PyStr "wrap")
   = Ok (source_pixel img (int x mod width img) (int y mod height img))).
Proof.
  intros W.
  assert (R : forall t, Scalers_bilinear.pixel img x y (PyStr t)
                        = Ok (if outside img x y then zeros (channels img)
                              else source_pixel img (int x) (int y))).
  { intros t. rewrite scalers_reader_str.
    now rewrite (proj1 (src_resolve img x y (PyInt 0) W)). }
  split; [apply R | split].
  - change (Scalers_barycentric.pixel img x y (PyStr s))
      with (Imin.src img x y (PyInt 0)).
    now rewrite (proj1 (src_resolve img x y (PyInt 0) W)).
  - intros O. rewrite !R, O.
    rewrite !(proj1 (src_resolve img x y _ W)). repeat split.
Qed.

Lemma scalers_string_edge_reads_zero_witness :
  Scalers_bilinear.pixel img12 5 0 (PyStr "repeat") = Ok [0] /\
  Imin.src img12 5 0 (PyStr "repeat") = Ok [20].
Proof.
  destruct (scalers_string_edge_reads_zero img12 5 0 "repeat" eq_refl)
    as (_ & _ & H).
  destruct (H eq_refl) as (A & _ & B & _). split; [exact A | exact B].
Defined.

(** ** Rows for the PNG writer and back *)

Lemma map_range_nth {A B : Type} (F : A -> B) (l : list A) (d : A) :
  map (fun i => F (nth (Z.to_nat i) l d)) (range (len l)) = map F l.
Proof.
  rewrite <- (map_nth_range l d) at 2. now rewrite map_map.
Qed.

Lemma map_range_firstn {A : Type} (l : list A) (d : A) (k : Z) :
  0 <= k <= len l ->
  map (fun z => nth (Z.to_nat z) l d) (range k) = firstn (Z.to_nat k) l.
Proof.
  intros H.
  assert (L : len (firstn (Z.to_nat k) l) = k).
  { unfold len in *. rewrite firstn_length_le; lia. }
  rewrite <- (map_nth_range (firstn (Z.to_nat k) l) d) at 1. rewrite L.
  apply map_ext_in. intros z Hz. apply in_range in Hz.
  rewrite nth_firstn.
  destruct (Nat.ltb_spec (Z.to_nat z) (Z.to_nat k)); trivial. lia.
Qed.

Lemma map_list_prod {A B C : Type} (g : A * B -> C) (l1 : list A)
  (l2 : list B) :
  map g (list_prod l1 l2)
  = List.concat (map (fun x => map (fun z => g (x, z)) l2) l1).
Proof.
  induction l1 as [| a l1 IH]; trivial.
  simpl. now rewrite map_app, map_map, IH.
Qed.

Lemma length_concat_blocks {A : Type} (blocks : list (list A)) (n : nat) :
  (forall b, In b blocks -> List.length b = n) ->
  List.length (List.concat blocks) = (List.length blocks * n)%nat.
Proof.
  induction blocks as [| b blocks IH]; intros H; trivial.
  simpl. rewrite length_app, (H b) by now left.
  rewrite IH; trivial. intros c Hc. apply H. now right.
Qed.

Lemma nth_concat_blocks {A : Type} (blocks : list (list A)) (n x z : nat)
  (d : A) :
  (forall b, In b blocks -> List.length b = n) ->
  (x < List.length blocks)%nat -> (z < n)%nat ->
  nth (x * n + z) (List.concat blocks) d = nth z (nth x blocks []) d.
Proof.
  revert x. induction blocks as [| b blocks IH]; intros x H Hx Hz.
  - simpl in Hx. lia.
  - assert (Lb : List.length b = n) by (apply H; now left).
    destruct x as [| x]; simpl.
    + apply app_nth1. lia.
    + replace (n + x * n + z)%nat with (List.length b + (x * n + z))%nat
        by lia.
      rewrite app_nth2_plus. apply IH.
      * intros c Hc. apply H. now right.
      * simpl in Hx. lia.
      * exact Hz.
Qed.

Lemma firstn_channels (img : image) (px : pixel_t) :
  len px = channels img ->
  firstn (Z.to_nat (Z.min (channels img) 4)) px = firstn 4 px.
Proof.
  intros L. destruct (Z.le_gt_cases (channels img) 4) as [H | H].
  - rewrite Z.min_l by trivial.
    rewrite !firstn_all2; trivial; unfold len in L; lia.
  - rewrite Z.min_r by lia. reflexivity.
Qed.

Lemma flatten_row (img : image) (y Zn : Z) :
  well_formed img = true -> 0 <= y < height img ->
  0 <= Zn <= channels img ->
  comprehension
    (fun xz => row <- index img y ;;
               px <- index row (fst xz) ;;
               index px (snd xz))
    (list_prod (range (width img)) (range Zn))
  = Ok (List.concat (map (firstn (Z.to_nat Zn)) (nth (Z.to_nat y) img []))).
Proof.
  intros W Hy HZ. pose proof (row_of_source img y W Hy) as L.
  rewrite (comprehension_ext _
             (fun xz => nth (Z.to_nat (snd xz))
                          (source_pixel img (fst xz) y) 0)).
  - f_equal. rewrite map_list_prod. f_equal. simpl fst. simpl snd.
    rewrite <- L.
    rewrite <- (map_range_nth (firstn (Z.to_nat Zn))
                  (nth (Z.to_nat y) img []) []).
    apply map_ext_in. intros x Hx. apply in_range in Hx.
    apply map_range_firstn.
    rewrite L in Hx.
    destruct (read_source_pixel img x y W Hx Hy) as [_ Lp].
    unfold source_pixel in Lp. lia.
  - intros [x z] H. apply in_prod_iff in H. destruct H as [Hx Hz].
    apply in_range in Hx, Hz. simpl fst. simpl snd.
    destruct (read_source_pixel img x y W Hx Hy) as [_ Lp].
    rewrite (index_nth img y []) by exact Hy. unfold bind at 1.
    rewrite (index_nth _ x []) by (rewrite L; exact Hx). unfold bind.
    rewrite (index_nth _ z 0); [reflexivity |].
    change (0 <= z < len (source_pixel img x y)). lia.
Qed.

Lemma flatten_rows (img : image) :
  well_formed img = true ->
  Pnglpng.flatten_2d img (width img) (height img) (Z.min (channels img) 4)
  = Ok (map (@List.concat Z) (first_four img)).
Proof.
  intros W. unfold Pnglpng.flatten_2d.
  pose proof (channels_nonneg img) as HZ.
  rewrite (comprehension_ext _
             (fun y => List.concat (map (firstn (Z.to_nat (Z.min (channels img) 4)))
                                 (nth (Z.to_nat y) img [])))).
  - f_equal. unfold height.
    rewrite (map_range_nth
               (fun row => List.concat (map (firstn (Z.to_nat (Z.min (channels img) 4)))
                                     row)) img []).
    unfold first_four. rewrite map_map.
    apply map_ext_in. intros row Hr. f_equal.
    apply map_ext_in. intros px Hp. apply firstn_channels.
    apply well_formed_spec in W. destruct W as (_ & _ & _ & F).
    rewrite Forall_forall in F. destruct (F row Hr) as [_ Fp].
    rewrite Forall_forall in Fp. now apply Fp.
  - intros y Hy. apply in_range in Hy. apply flatten_row; trivial. lia.
Qed.

Lemma rows_to_image (im : image) (Y X Zn : Z) :
  has_shape im Y X Zn = true ->
  comprehension
    (fun y => comprehension
                (fun x => comprehension
                            (fun z => row <- index (map (@List.concat Z) im) y ;;
                                      index row (x * Zn + z))
                            (range Zn))
                (range X))
    (range Y) = Ok im.
Proof.
  intros S. apply has_shape_spec in S. destruct S as [LY F].
  rewrite Forall_forall in F.
  rewrite (comprehension_ext _ (fun y => nth (Z.to_nat y) im [])).
  { rewrite <- LY. now rewrite map_nth_range. }
  intros y Hy. apply in_range in Hy.
  assert (Ir : In (nth (Z.to_nat y) im []) im)
    by (apply nth_In; unfold len in LY; lia).
  destruct (F _ Ir) as [LX Fp]. rewrite Forall_forall in Fp.
  rewrite (comprehension_ext _
             (fun x => nth (Z.to_nat x) (nth (Z.to_nat y) im []) [])).
  { rewrite <- LX. now rewrite map_nth_range. }
  intros x Hx. apply in_range in Hx.
  assert (Ip : In (nth (Z.to_nat x) (nth (Z.to_nat y) im []) [])
                 (nth (Z.to_nat y) im []))
    by (apply nth_In; unfold len in LX; lia).
  pose proof (Fp _ Ip) as LZ.
  rewrite (comprehension_ext _
             (fun z => nth (Z.to_nat z)
                         (nth (Z.to_nat x) (nth (Z.to_nat y) im []) []) 0)).
  { rewrite <- LZ. now rewrite map_nth_range. }
  intros z Hz. apply in_range in Hz.
  assert (Lb : forall b, In b (nth (Z.to_nat y) im []) ->
                         List.length b = Z.to_nat Zn).
  { intros b Hb. apply len_length. now apply Fp. }
  rewrite (index_nth _ y [])
    by (unfold len in *; rewrite length_map; lia).
  unfold bind.
  change (@nil Z) with (List.concat (@nil (list Z))) at 1.
  rewrite map_nth.
  rewrite (index_nth _ (x * Zn + z) 0).
  - f_equal.
    rewrite Z2Nat.inj_add, Z2Nat.inj_mul by nia.
    apply nth_concat_blocks; trivial; unfold len in LX; lia.
  - unfold len. rewrite (length_concat_blocks _ (Z.to_nat Zn) Lb).
    unfold len in LX. nia.
Qed.

(** ** The [info] dictionary *)

Module DictFacts.
Import Pnglpng.

Lemma in_get (k : string) (d : list (string * info_value)) :
  dict_in k d = false <-> dict_get k d = None.
Proof.
  induction d as [| [k' v'] t IH]; simpl; [tauto |].
  destruct (String.eqb k' k); simpl; [split; discriminate | exact IH].
Qed.

Lemma get_set_same (k : string) (v : info_value)
  (d : list (string * info_value)) :
  dict_get k (dict_set k v d) = Some v.
Proof.
  induction d as [| [k' v'] t IH]; simpl.
  - now rewrite String.eqb_refl.
  - destruct (String.eqb k' k) eqn:E; simpl; now rewrite E.
Qed.

Lemma get_set_other (k k' : string) (v : info_value)
  (d : list (string * info_value)) :
  k <> k' -> dict_get k' (dict_set k v d) = dict_get k' d.
Proof.
  intros N. induction d as [| [k0 v0] t IH]; simpl.
  - destruct (String.eqb_spec k k'); [contradiction | reflexivity].
  - destruct (String.eqb_spec k0 k) as [-> | N0]; simpl.
    + destruct (String.eqb_spec k k'); [contradiction | reflexivity].
    + now rewrite IH.
Qed.

Lemma get_del_other (k k' : string) (d : list (string * info_value)) :
  k <> k' -> dict_get k' (dict_del k d) = dict_get k' d.
Proof.
  intros N. induction d as [| [k0 v0] t IH]; simpl; trivial.
  destruct (String.eqb_spec k0 k) as [-> | N0]; simpl.
  - destruct (String.eqb_spec k k'); [contradiction | reflexivity].
  - now rewrite IH.
Qed.

Lemma in_set_other (k k' : string) (v : info_value)
  (d : list (string * info_value)) :
  k <> k' -> dict_in k' (dict_set k v d) = dict_in k' d.
Proof.
  intros N. destruct (dict_in k' d) eqn:E.
  - apply not_false_iff_true. rewrite in_get, get_set_other by trivial.
    rewrite <- in_get. congruence.
  - apply in_get. rewrite get_set_other by trivial. now apply in_get.
Qed.

Lemma in_del_other (k k' : string) (d : list (string * info_value)) :
  k <> k' -> dict_in k' (dict_del k d) = dict_in k' d.
Proof.
  intros N. destruct (dict_in k' d) eqn:E.
  - apply not_false_iff_true. rewrite in_get, get_del_other by trivial.
    rewrite <- in_get. congruence.
  - apply in_get. rewrite get_del_other by trivial. now apply in_get.
Qed.

Lemma in_del_same (k : string) (d : list (string * info_value)) :
  distinct_keys d = true -> dict_in k (dict_del k d) = false.
Proof.
  induction d as [| [k0 v0] t IH]; simpl; trivial.
  rewrite andb_true_iff, negb_true_iff. intros [A B].
  destruct (String.eqb_spec k0 k) as [-> | N0]; trivial.
  simpl. rewrite IH by trivial.
  destruct (String.eqb_spec k0 k); [contradiction | reflexivity].
Qed.

Lemma distinct_set (k : string) (v : info_value)
  (d : list (string * info_value)) :
  distinct_keys d = true -> distinct_keys (dict_set k v d) = true.
Proof.
  induction d as [| [k0 v0] t IH]; simpl; trivial.
  rewrite andb_true_iff, negb_true_iff. intros [A B].
  destruct (String.eqb_spec k0 k) as [-> | N0]; simpl.
  - now rewrite A, B.
  - rewrite in_set_other by congruence. now rewrite A, IH.
Qed.

Lemma distinct_del (k : string) (d : list (string * info_value)) :
  distinct_keys d = true -> distinct_keys (dict_del k d) = true.
Proof.
  induction d as [| [k0 v0] t IH]; simpl; trivial.
  rewrite andb_true_iff, negb_true_iff. intros [A B].
  destruct (String.eqb_spec k0 k) as [-> | N0]; simpl; trivial.
  destruct (String.eqb_spec k0 k) as [-> | N1].
  - contradiction.
  - rewrite in_del_other by congruence. now rewrite A, IH.
Qed.

Lemma in_dropped (k : string) (d : list (string * info_value)) :
  distinct_keys d = true ->
  dict_in k (if dict_in k d then dict_del k d else d) = false.
Proof.
  intros D. destruct (dict_in k d) eqn:E; trivial. now apply in_del_same.
Qed.

Lemma get_dropped_other (k k' : string) (d : list (string * info_value)) :
  k <> k' ->
  dict_get k' (if dict_in k d then dict_del k d else d) = dict_get k' d.
Proof.
  intros N. destruct (dict_in k d); trivial. now apply get_del_other.
Qed.

Lemma in_dropped_other (k k' : string) (d : list (string * info_value)) :
  k <> k' ->
  dict_in k' (if dict_in k d then dict_del k d else d) = dict_in k' d.
Proof.
  intros N. destruct (dict_in k d); trivial. now apply in_del_other.
Qed.

Lemma distinct_dropped (k : string) (d : list (string * info_value)) :
  distinct_keys d = true ->
  distinct_keys (if dict_in k d then dict_del k d else d) = true.
Proof.
  intros D. destruct (dict_in k d); trivial. now apply distinct_del.
Qed.

End DictFacts.

(** ** What [list2png] hands to the writer *)

Lemma list2png_unfold (img : image) (info : list (string * Pnglpng.info_value)) :
  has_pixel img = true ->
  Pnglpng.list2png img info =
  let Y := height img in
  let X := width img in
  let Zn := Z.min (channels img) 4 in
  let info := Pnglpng.dict_set "size" (Pnglpng.ITuple [X; Y]) info in
  let info := Pnglpng.dict_set "planes" (Pnglpng.IInt Zn) info in
  let info :=
    if Pnglpng.dict_in "palette" info then Pnglpng.dict_del "palette" info
    else info in
  let info :=
    if Pnglpng.dict_in "background" info
    then Pnglpng.dict_del "background" info else info in
  let info :=
    if Zn mod 2 =? 1 then Pnglpng.dict_set "alpha" (Pnglpng.IBool false) info
    else Pnglpng.dict_set "alpha" (Pnglpng.IBool true) info in
  let info :=
    if Zn <? 3 then Pnglpng.dict_set "greyscale" (Pnglpng.IBool true) info
    else Pnglpng.dict_set "greyscale" (Pnglpng.IBool false) info in
  rows <- Pnglpng.flatten_2d img X Y Zn ;;
  Ok {| Pnglpng.writer_X := X; Pnglpng.writer_Y := Y;
        Pnglpng.writer_info := info; Pnglpng.writer_rows := rows |}.
Proof.
  intros P. destruct (has_pixel_spec img P) as (px0 & pxs & rows & ->).
  unfold Pnglpng.list2png.
  rewrite index_head. unfold bind at 1. rewrite index_head. unfold bind at 1.
  reflexivity.
Qed.

Lemma first_four_shape (img : image) :
  well_formed img = true ->
  has_shape (first_four img) (height img) (width img)
    (Z.min (channels img) 4) = true.
Proof.
  intros W. apply well_formed_spec in W. destruct W as (_ & _ & _ & F).
  rewrite Forall_forall in F.
  apply has_shape_spec. unfold first_four. split.
  - unfold height, len. now rewrite length_map.
  - apply Forall_forall. intros row' Hr. apply in_map_iff in Hr.
    destruct Hr as [row [<- Hr]]. destruct (F row Hr) as [LX Fp].
    rewrite Forall_forall in Fp. split.
    + unfold len in *. now rewrite length_map.
    + apply Forall_forall. intros px' Hp. apply in_map_iff in Hp.
      destruct Hp as [px [<- Hp]]. specialize (Fp px Hp).
      unfold len in *. rewrite length_firstn. lia.
Qed.

Lemma first_four_small (img : image) :
  well_formed img = true -> channels img <= 4 -> first_four img = img.
Proof.
  intros W H. apply well_formed_spec in W. destruct W as (_ & _ & _ & F).
  rewrite Forall_forall in F. unfold first_four.
  rewrite <- (map_id img) at 2. apply map_ext_in. intros row Hr.
  destruct (F row Hr) as [_ Fp]. rewrite Forall_forall in Fp.
  rewrite <- (map_id row) at 2. apply map_ext_in. intros px Hp.
  specialize (Fp px Hp). apply firstn_all2. unfold len in Fp. lia.
Qed.

Lemma written_row_lengths (im : image) (Y X Zn : Z) :
  has_shape im Y X Zn = true -> 0 <= Zn ->
  List.length (map (@List.concat Z) im) = Z.to_nat Y /\
  Forall (fun row => len row = X * Zn) (map (@List.concat Z) im).
Proof.
  intros S HZ. apply has_shape_spec in S. destruct S as [LY F].
  rewrite Forall_forall in F. split.
  - rewrite length_map. unfold len in LY. lia.
  - apply Forall_forall. intros r Hr. apply in_map_iff in Hr.
    destruct Hr as [row [<- Hr]]. destruct (F row Hr) as [LX Fp].
    rewrite Forall_forall in Fp. unfold len.
    rewrite (length_concat_blocks row (Z.to_nat Zn)).
    + unfold len in LX. nia.
    + intros b Hb. apply len_length. now apply Fp.
Qed.

(** X13: on a well-formed image [list2png] hands the writer the width and
    the height of the image and one row per image row, each the samples of
    its pixels one after another, cut to the first four channels: channels
    above the fourth are dropped, and a row has [X * min(Z, 4)] samples. *)
Theorem list2png_rows (img : image) (info : list (string * Pnglpng.info_value)) :
  well_formed img = true ->
  exists w,
    Pnglpng.list2png img info = Ok w /\
    Pnglpng.writer_X w = width img /\ Pnglpng.writer_Y w = height img /\
    Pnglpng.writer_rows w = map (@List.concat Z) (first_four img) /\
    List.length (Pnglpng.writer_rows w) = Z.to_nat (height img) /\
    Forall (fun row => len row = width img * Z.min (channels img) 4)
      (Pnglpng.writer_rows w) /\
    (channels img <= 4 ->
     Pnglpng.writer_rows w = map (@List.concat Z) img).
Proof.
  intros W.
  rewrite (list2png_unfold img info (well_formed_has_pixel img W)). cbv zeta.
  rewrite (flatten_rows img W). unfold bind.
  eexists. split; [reflexivity |]. simpl.
  destruct (written_row_lengths (first_four img) (height img) (width img)
              (Z.min (channels img) 4) (first_four_shape img W)) as [L F].
  { pose proof (channels_nonneg img). lia. }
  repeat split; trivial.
  intros H. now rewrite first_four_small.
Qed.

Lemma list2png_rows_witness :
  exists w,
    Pnglpng.list2png img_rgba5 info_example = Ok w /\
    Pnglpng.writer_rows w = [[1; 2; 3; 4; 6; 7; 8; 9]; [11; 12; 13; 14; 16; 17; 18; 19]].
Proof.
  destruct (list2png_rows img_rgba5 info_example eq_refl)
    as [w (E & _ & _ & R & _)].
  exists w. split; [exact E |]. exact R.
Defined.

Lemma dict_set_if (c : bool) (k : string) (d : list (string * Pnglpng.info_value)) :
  (if c then Pnglpng.dict_set k (Pnglpng.IBool true) d
   else Pnglpng.dict_set k (Pnglpng.IBool false) d)
  = Pnglpng.dict_set k (Pnglpng.IBool c) d.
Proof. now destruct c. Qed.

Lemma dict_set_if_not (c : bool) (k : string)
  (d : list (string * Pnglpng.info_value)) :
  (if c then Pnglpng.dict_set k (Pnglpng.IBool false) d
   else Pnglpng.dict_set k (Pnglpng.IBool true) d)
  = Pnglpng.dict_set k (Pnglpng.IBool (negb c)) d.
Proof. now destruct c. Qed.

(** X14: on a well-formed image [list2png] rewrites the [info] of the
    caller from the image: ['size'] is (X, Y), ['planes'] is min(Z, 4),
    ['alpha'] is true exactly for 2 and 4 planes, ['greyscale'] exactly for
    1 and 2 planes, ['palette'] and ['background'] are gone, and every
    other entry, such as ['bitdepth'], is what it was. *)
Theorem list2png_info (img : image) (info : list (string * Pnglpng.info_value)) :
  well_formed img = true ->
  distinct_keys info = true ->
  exists w,
    Pnglpng.list2png img info = Ok w /\
    Pnglpng.dict_get "size" (Pnglpng.writer_info w)
    = Some (Pnglpng.ITuple [width img; height img]) /\
    Pnglpng.dict_get "planes" (Pnglpng.writer_info w)
    = Some (Pnglpng.IInt (Z.min (channels img) 4)) /\
    Pnglpng.dict_get "alpha" (Pnglpng.writer_info w)
    = Some (Pnglpng.IBool ((Z.min (channels img) 4 =? 2)
                           || (Z.min (channels img) 4 =? 4))) /\
    Pnglpng.dict_get "greyscale" (Pnglpng.writer_info w)
    = Some (Pnglpng.IBool ((Z.min (channels img) 4 =? 1)
                           || (Z.min (channels img) 4 =? 2))) /\
    Pnglpng.dict_in "palette" (Pnglpng.writer_info w) = false /\
    Pnglpng.dict_in "background" (Pnglpng.writer_info w) = false /\
    distinct_keys (Pnglpng.writer_info w) = true /\
    (forall k : string,
       k <> "size"%string -> k <> "planes"%string -> k <> "palette"%string ->
       k <> "background"%string -> k <> "alpha"%string ->
       k <> "greyscale"%string ->
       Pnglpng.dict_get k (Pnglpng.writer_info w) = Pnglpng.dict_get k info).
Proof.
  intros W D. pose proof W as W'. apply well_formed_spec in W'.
  destruct W' as (_ & _ & HZ & _).
  rewrite (list2png_unfold img info (well_formed_has_pixel img W)). cbv zeta.
  rewrite (flatten_rows img W). unfold bind.
  eexists. split; [reflexivity |]. cbn [Pnglpng.writer_info].
  rewrite dict_set_if, dict_set_if_not.
  set (Zn := Z.min (channels img) 4).
  assert (Fl : negb (Zn mod 2 =? 1) = (Zn =? 2) || (Zn =? 4) /\
               (Zn <? 3) = (Zn =? 1) || (Zn =? 2)).
  { assert (C : Zn = 1 \/ Zn = 2 \/ Zn = 3 \/ Zn = 4) by (unfold Zn; lia).
    destruct C as [-> | [-> | [-> | ->]]]; split; reflexivity. }
  destruct Fl as [-> ->].
  set (i2 := Pnglpng.dict_set "planes" _ _).
  assert (D2 : distinct_keys i2 = true)
    by (unfold i2; now repeat apply DictFacts.distinct_set).
  set (i3 := if Pnglpng.dict_in "palette" i2 then _ else _).
  assert (D3 : distinct_keys i3 = true) by now apply DictFacts.distinct_dropped.
  assert (P3 : Pnglpng.dict_in "palette" i3 = false)
    by now apply DictFacts.in_dropped.
  set (i4 := if Pnglpng.dict_in "background" i3 then _ else _).
  assert (D4 : distinct_keys i4 = true) by now apply DictFacts.distinct_dropped.
  assert (P4 : Pnglpng.dict_in "background" i4 = false)
    by now apply DictFacts.in_dropped.
  assert (Q4 : Pnglpng.dict_in "palette" i4 = false).
  { unfold i4. now rewrite DictFacts.in_dropped_other by discriminate. }
  assert (G : forall k, k <> "palette"%string -> k <> "background"%string ->
                        Pnglpng.dict_get k i4 = Pnglpng.dict_get k i2).
  { intros k N1 N2. unfold i4, i3.
    now rewrite !DictFacts.get_dropped_other by congruence. }
  refine (conj _ (conj _ (conj _ (conj _ (conj _ (conj _ (conj _ _))))))).
  - rewrite !DictFacts.get_set_other by discriminate.
    rewrite G by discriminate. unfold i2.
    rewrite DictFacts.get_set_other by discriminate.
    apply DictFacts.get_set_same.
  - rewrite !DictFacts.get_set_other by discriminate.
    rewrite G by discriminate. apply DictFacts.get_set_same.
  - rewrite DictFacts.get_set_other by discriminate.
    apply DictFacts.get_set_same.
  - apply DictFacts.get_set_same.
  - now rewrite !DictFacts.in_set_other by discriminate.
  - now rewrite !DictFacts.in_set_other by discriminate.
  - now repeat apply DictFacts.distinct_set.
  - intros k N1 N2 N3 N4 N5 N6.
    rewrite !DictFacts.get_set_other by congruence.
    rewrite G by trivial. unfold i2.
    now rewrite !DictFacts.get_set_other by congruence.
Qed.

Lemma list2png_info_witness :
  exists w,
    Pnglpng.list2png img_rgba5 info_example = Ok w /\
    Pnglpng.dict_get "planes" (Pnglpng.writer_info w)
    = Some (Pnglpng.IInt 4) /\
    Pnglpng.dict_in "palette" (Pnglpng.writer_info w) = false.
Proof.
  destruct (list2png_info img_rgba5 info_example eq_refl eq_refl)
    as [w (E & _ & P & _ & _ & Q & _)].
  exists w. repeat split; trivial.
Defined.

(** ** From the written rows back to the image *)

(** X15: the conversion of [png2list] undoes the one of [list2png]: fed
    with the width, height, rows and number of planes [list2png] hands to
    the writer for a well-formed image, and a bit depth of 1, 8 or 16,
    [png2list] returns the same sizes, [maxcolors = 2^bitdepth - 1] and the
    image cut to its first four channels, which is the image itself when it
    has at most four. *)
Theorem png_round_trip (img : image)
  (info : list (string * Pnglpng.info_value)) (bitdepth : Z) :
  well_formed img = true ->
  bitdepth = 1 \/ bitdepth = 8 \/ bitdepth = 16 ->
  exists w,
    Pnglpng.list2png img info = Ok w /\
    Pnglpng.png2list (Pnglpng.writer_X w) (Pnglpng.writer_Y w)
      (Pnglpng.writer_rows w) (Z.min (channels img) 4) bitdepth
    = Pnglpng.Returned (width img, height img, Z.min (channels img) 4,
                        2 ^ bitdepth - 1, first_four img) /\
    (channels img <= 4 -> first_four img = img).
Proof.
  intros W B.
  rewrite (list2png_unfold img info (well_formed_has_pixel img W)). cbv zeta.
  rewrite (flatten_rows img W). unfold bind.
  eexists. split; [reflexivity |]. split; [| now apply first_four_small].
  cbn [Pnglpng.writer_X Pnglpng.writer_Y Pnglpng.writer_rows].
  unfold Pnglpng.png2list. cbv zeta.
  rewrite (rows_to_image _ _ _ _ (first_four_shape img W)).
  now destruct B as [-> | [-> | ->]].
Qed.

Lemma png_round_trip_witness :
  exists w,
    Pnglpng.list2png img22 info_example = Ok w /\
    Pnglpng.png2list (Pnglpng.writer_X w) (Pnglpng.writer_Y w)
      (Pnglpng.writer_rows w) (Z.min (channels img22) 4) 8
    = Pnglpng.Returned (2, 2, 1, 255, img22).
Proof.
  destruct (png_round_trip img22 info_example 8 eq_refl
              (or_intror (or_introl eq_refl))) as [w (E & R & _)].
  exists w. split; [exact E | exact R].
Defined.

(** X16: [png2list] returns only for a bit depth of 1, 8 or 16: for any
    other one, such as 2 or 4, [maxcolors] is never bound, so the call
    cannot return, and it raises [UnboundLocalError] once the rows have been
    converted. *)
Theorem png2list_other_bitdepth (X Y : Z) (pixels : list (list Z))
  (planes bitdepth : Z) :
  bitdepth <> 1 -> bitdepth <> 8 -> bitdepth <> 16 ->
  (forall r, Pnglpng.png2list X Y pixels planes bitdepth
             <> Pnglpng.Returned r) /\
  (forall im, has_shape im Y X planes = true ->
     pixels = map (@List.concat Z) im ->
     Pnglpng.png2list X Y pixels planes bitdepth
     = Pnglpng.RaisedUnboundLocalError "maxcolors").
Proof.
  intros N1 N8 N16. unfold Pnglpng.png2list. cbv zeta.
  destruct (Z.eqb_spec bitdepth 1) as [? | _]; [contradiction |].
  destruct (Z.eqb_spec bitdepth 8) as [? | _]; [contradiction |].
  destruct (Z.eqb_spec bitdepth 16) as [? | _]; [contradiction |].
  split.
  - intros r. destruct (comprehension _ _); discriminate.
  - intros im S ->. now rewrite (rows_to_image im Y X planes S).
Qed.

Lemma png2list_other_bitdepth_witness :
  Pnglpng.png2list 2 2 [[0; 100]; [200; 255]] 1 4
  = Pnglpng.RaisedUnboundLocalError "maxcolors".
Proof.
  apply (proj2 (png2list_other_bitdepth 2 2 [[0; 100]; [200; 255]] 1 4
                  ltac:(discriminate) ltac:(discriminate) ltac:(discriminate))
           img22); reflexivity.
Defined.

(** ** Scaling, then writing *)

Lemma save_scaled (out : image) (XNEW YNEW Zn : Z)
  (info : list (string * Pnglpng.info_value)) :
  has_shape out YNEW XNEW Zn = true ->
  1 <= XNEW -> 1 <= YNEW -> 1 <= Zn ->
  exists w,
    Pnglpng.list2png out info = Ok w /\
    Pnglpng.writer_X w = XNEW /\ Pnglpng.writer_Y w = YNEW /\
    List.length (Pnglpng.writer_rows w) = Z.to_nat YNEW /\
    Forall (fun row => len row = XNEW * Z.min Zn 4) (Pnglpng.writer_rows w).
Proof.
  intros Sh HX HY HZ.
  destruct (shape_well_formed out YNEW XNEW Zn Sh) as (W & EY & EX & EZ);
    trivial.
  rewrite (list2png_unfold out info (well_formed_has_pixel out W)). cbv zeta.
  rewrite (flatten_rows out W). unfold bind.
  eexists. split; [reflexivity |]. simpl.
  destruct (written_row_lengths (first_four out) (height out) (width out)
              (Z.min (channels out) 4) (first_four_shape out W)) as [L F].
  { lia. }
  rewrite EY, EX, EZ in *. repeat split; trivial.
Qed.

(** X17: scaling as the viewer does it (either module of [scalers] with
    [edge=1] and target sizes of at least 2) and saving with [list2png]
    fit together: for a well-formed source the scaled image is accepted by
    [list2png], which hands the writer the size (XNEW, YNEW) and YNEW rows
    of [XNEW * min(Z, 4)] samples each. *)
Theorem scale_then_save (img : image) (XNEW YNEW : Z)
  (info : list (string * Pnglpng.info_value)) :
  well_formed img = true ->
  2 <= XNEW -> 2 <= YNEW ->
  (exists out w,
     Scalers_bilinear.scale img XNEW YNEW (PyInt 1) = Ok out /\
     Pnglpng.list2png out info = Ok w /\
     Pnglpng.writer_X w = XNEW /\ Pnglpng.writer_Y w = YNEW /\
     List.length (Pnglpng.writer_rows w) = Z.to_nat YNEW /\
     Forall (fun row => len row = XNEW * Z.min (channels img) 4)
       (Pnglpng.writer_rows w)) /\
  (exists out w,
     Scalers_barycentric.scale img XNEW YNEW (PyInt 1) = Ok out /\
     Pnglpng.list2png out info = Ok w /\
     Pnglpng.writer_X w = XNEW /\ Pnglpng.writer_Y w = YNEW /\
     List.length (Pnglpng.writer_rows w) = Z.to_nat YNEW /\
     Forall (fun row => len row = XNEW * Z.min (channels img) 4)
       (Pnglpng.writer_rows w)).
Proof.
  intros W HX HY. pose proof W as W'. apply well_formed_spec in W'.
  destruct W' as (_ & _ & HZ & _).
  split.
  - destruct (rescale_returns_shape img XNEW YNEW (PyInt 1) (PyInt 1) W)
      as [out (E & Sh)]; try lia; trivial.
    destruct (save_scaled out XNEW YNEW (channels img) info Sh)
      as [w P]; try lia.
    exists out, w. split; [| exact P].
    rewrite (scalers_bilinear_scale (PyInt 1) (PyInt 1)); [exact E |].
    intros. apply scalers_reader_int.
  - destruct (rescale_returns_shape img XNEW YNEW (PyInt 1) (PyInt 2) W)
      as [out (E & Sh)]; try lia; trivial.
    destruct (save_scaled out XNEW YNEW (channels img) info Sh)
      as [w P]; try lia.
    exists out, w. split; [| exact P].
    rewrite (scalers_barycentric_scale (PyInt 1) (PyInt 1)); [exact E |].
    intros. apply scalers_reader_int.
Qed.

Lemma scale_then_save_witness :
  exists out w,
    Scalers_bilinear.scale img22 3 3 (PyInt 1) = Ok out /\
    Pnglpng.list2png out info_example = Ok w /\
    Pnglpng.writer_X w = 3 /\ Pnglpng.writer_Y w = 3 /\
    List.length (Pnglpng.writer_rows w) = Z.to_nat 3 /\
    Forall (fun row => len row = 3 * Z.min (channels img22) 4)
      (Pnglpng.writer_rows w).
Proof.
  apply (proj1 (scale_then_save img22 3 3 info_example eq_refl
                  ltac:(lia) ltac:(lia))).
Defined.

(** ** Empty images *)

Lemma create_image_rows (X Y Zn : Z) :
  Pnglpng.create_image X Y Zn
  = repeat (repeat (zeros Zn) (Z.to_nat X)) (Z.to_nat Y).
Proof.
  unfold Pnglpng.create_image, zeros.
  rewrite !map_const, !length_range. reflexivity.
Qed.

Lemma resolve_create_image (X Y Zn : Z) (x y : Q) (edge : pyarg) :
  1 <= X -> 1 <= Y -> 1 <= Zn ->
  well_formed (Pnglpng.create_image X Y Zn) = true /\
  has_shape (Pnglpng.create_image X Y Zn) Y X Zn = true /\
  uniform (zeros Zn) (Pnglpng.create_image X Y Zn) = true /\
  resolve (Pnglpng.create_image X Y Zn) x y edge = zeros Zn.
Proof.
  intros HX HY HZ.
  assert (S : has_shape (Pnglpng.create_image X Y Zn) Y X Zn = true).
  { rewrite create_image_rows. apply has_shape_spec. split.
    - unfold len. rewrite repeat_length. lia.
    - apply Forall_forall. intros row Hr. apply repeat_spec in Hr. subst row.
      split.
      + unfold len. rewrite repeat_length. lia.
      + apply Forall_forall. intros px Hp. apply repeat_spec in Hp. subst px.
        apply len_zeros. lia. }
  destruct (shape_well_formed _ Y X Zn S) as (W & EY & EX & EZ); trivial.
  assert (U : uniform (zeros Zn) (Pnglpng.create_image X Y Zn) = true).
  { rewrite create_image_rows. unfold uniform.
    apply forallb_forall. intros row Hr. apply repeat_spec in Hr. subst row.
    apply forallb_forall. intros px Hp. apply repeat_spec in Hp. subst px.
    unfold pixel_eqb. now destruct (list_eq_dec Z.eq_dec (zeros Zn) (zeros Zn)). }
  repeat split; trivial.
  destruct (is_zero edge) eqn:Z0.
  - rewrite (resolve_zero _ x y edge Z0), EZ.
    destruct (outside _ x y) eqn:O; trivial.
    apply outside_false in O. destruct O as (A & B & C & D).
    pose proof (int_between x _ A B). pose proof (int_between y _ C D).
    apply uniform_source_pixel; trivial; lia.
  - now apply uniform_resolve.
Qed.

(** X18: [create_image(X, Y, Z)] with positive sizes is a well-formed image
    of Y rows of X pixels of Z zeros, and reading it gives Z zeros with
    every method, every edge value and at every coordinate. *)
Theorem create_image_reads_zeros (X Y Zn : Z) (x y : Q) (edge method : pyarg) :
  1 <= X -> 1 <= Y -> 1 <= Zn ->
  pixel_method method = true ->
  well_formed (Pnglpng.create_image X Y Zn) = true /\
  has_shape (Pnglpng.create_image X Y Zn) Y X Zn = true /\
  uniform (zeros Zn) (Pnglpng.create_image X Y Zn) = true /\
  Imin.pixel (Pnglpng.create_image X Y Zn) x y edge method = Ok (zeros Zn).
Proof.
  intros HX HY HZ M.
  destruct (resolve_create_image X Y Zn x y edge HX HY HZ) as (W & S & U & _).
  repeat split; trivial.
  assert (C : corners (Pnglpng.create_image X Y Zn) x y edge
              = Ok (zeros Zn, zeros Zn, zeros Zn, zeros Zn)).
  { rewrite (corners_resolve _ x y edge W).
    now rewrite !(fun a b => proj2 (proj2 (proj2
                   (resolve_create_image X Y Zn a b edge HX HY HZ)))). }
  unfold pixel_method, is_bilinear, is_barycentric, is_nearest in M.
  unfold Imin.pixel.
  destruct (eq_int method 1 || eq_str method "bilinear").
  { now apply blin_same_corners. }
  destruct (eq_int method 2 || eq_str method "barycentric").
  { pose proof (corner_length _ x y edge _ _ _ _ W C) as L.
    rewrite (baryc_corners _ x y edge _ _ _ _ C).
    rewrite (fold_13_same _ _ x y L), (fold_24_same _ _ x y L).
    now destruct (direct_hit x y); [| destruct (_ <? _)]. }
  simpl in M. rewrite M.
  rewrite (proj1 (src_resolve _ x y edge W)). f_equal.
  apply (resolve_create_image X Y Zn x y edge HX HY HZ).
Qed.

Lemma create_image_reads_zeros_witness :
  Imin.pixel (Pnglpng.create_image 3 2 4) (5 # 2) (-1 # 3) (PyInt 2) (PyInt 1)
  = Ok (zeros 4).
Proof.
  apply (create_image_reads_zeros 3 2 4 (5 # 2) (-1 # 3) (PyInt 2) (PyInt 1));
    try reflexivity; lia.
Defined.

(** ** Integer coordinates anywhere *)

Lemma lower_cell_negative (n : Z) : n < 0 -> lower_cell (inject_Z n) = n - 1.
Proof.
  intros H. unfold lower_cell. rewrite int_inject_Z.
  replace (Qle_bool 0 (inject_Z n)) with false; trivial.
  symmetry. apply not_true_iff_false. rewrite Qle_bool_iff.
  change 0%Q with (inject_Z 0). rewrite <- Zle_Qle. lia.
Qed.

Lemma Qeq_bool_negative (n : Z) :
  Qeq_bool (inject_Z n) (inject_Z (n - 1)) = false.
Proof.
  apply not_true_iff_false. rewrite Qeq_bool_iff, inject_Z_injective. lia.
Qed.

Ltac pick_channel :=
  match goal with
  | |- int _ = ?v => rewrite <- (int_inject_Z v) at 2; apply int_Qeq
  end.

Lemma pick3 (n : nat) (p q r : pixel_t) (a b c : Q) :
  List.length p = n -> List.length q = n -> List.length r = n ->
  ((a == 1)%Q -> (b == 0)%Q -> (c == 0)%Q ->
   map3 Imin.intaddup3 (map_mul p (repeat a n)) (map_mul q (repeat b n))
     (map_mul r (repeat c n)) = p) /\
  ((a == 0)%Q -> (b == 1)%Q -> (c == 0)%Q ->
   map3 Imin.intaddup3 (map_mul p (repeat a n)) (map_mul q (repeat b n))
     (map_mul r (repeat c n)) = q) /\
  ((a == 0)%Q -> (b == 0)%Q -> (c == 1)%Q ->
   map3 Imin.intaddup3 (map_mul p (repeat a n)) (map_mul q (repeat b n))
     (map_mul r (repeat c n)) = r).
Proof.
  revert p q r.
  induction n as [| n IH]; intros [| u p] [| v q] [| w r] Lp Lq Lr;
    try discriminate; [repeat split; reflexivity |].
  injection Lp as Lp. injection Lq as Lq. injection Lr as Lr.
  destruct (IH p q r Lp Lq Lr) as (I1 & I2 & I3).
  cbn [repeat map_mul map3]. unfold Imin.intaddup3.
  refine (conj _ (conj _ _)); intros Ha Hb Hc; f_equal; auto;
    pick_channel; rewrite Ha, Hb, Hc; ring.
Qed.

Lemma pick4 (n : nat) (p00 p01 p10 p11 : pixel_t) (w00 w01 w10 w11 : Q) :
  List.length p00 = n -> List.length p01 = n ->
  List.length p10 = n -> List.length p11 = n ->
  ((w00 == 0)%Q -> (w01 == 1)%Q -> (w10 == 0)%Q -> (w11 == 0)%Q ->
   map4 Imin.intaddup4 (map_mul p00 (repeat w00 n)) (map_mul p01 (repeat w01 n))
     (map_mul p10 (repeat w10 n)) (map_mul p11 (repeat w11 n)) = p01) /\
  ((w00 == 0)%Q -> (w01 == 0)%Q -> (w10 == 1)%Q -> (w11 == 0)%Q ->
   map4 Imin.intaddup4 (map_mul p00 (repeat w00 n)) (map_mul p01 (repeat w01 n))
     (map_mul p10 (repeat w10 n)) (map_mul p11 (repeat w11 n)) = p10) /\
  ((w00 == 0)%Q -> (w01 == 0)%Q -> (w10 == 0)%Q -> (w11 == 1)%Q ->
   map4 Imin.intaddup4 (map_mul p00 (repeat w00 n)) (map_mul p01 (repeat w01 n))
     (map_mul p10 (repeat w10 n)) (map_mul p11 (repeat w11 n)) = p11).
Proof.
  revert p00 p01 p10 p11.
  induction n as [| n IH];
    intros [| v00 p00] [| v01 p01] [| v10 p10] [| v11 p11] L0 L1 L2 L3;
    try discriminate; [repeat split; reflexivity |].
  injection L0 as L0. injection L1 as L1. injection L2 as L2.
  injection L3 as L3.
  destruct (IH p00 p01 p10 p11 L0 L1 L2 L3) as (I1 & I2 & I3).
  cbn [repeat map_mul map4]. unfold Imin.intaddup4.
  refine (conj _ (conj _ _)); intros H0 H1 H2 H3; f_equal; auto;
    pick_channel; rewrite H0, H1, H2, H3; ring.
Qed.

Lemma inject_Z_pred (n : Z) : (inject_Z (n - 1) == inject_Z n - 1)%Q.
Proof. unfold Qeq. simpl. lia. Qed.

Lemma inject_Z_succ (n : Z) : (inject_Z (n + 1) == inject_Z n + 1)%Q.
Proof. unfold Qeq. simpl. lia. Qed.

Ltac decide_triangle :=
  match goal with
  | |- context [Qltb ?a ?b] =>
      let T := fresh "T" in
      destruct (Qltb a b) eqn:T;
      [apply Qltb_lt in T | apply Qltb_ge in T]
  end.

Lemma kernels_integer (img : image) (n m : Z) (edge : pyarg) :
  well_formed img = true ->
  Imin.blin img (inject_Z n) (inject_Z m) edge = sample img n m edge /\
  Imin.baryc img (inject_Z n) (inject_Z m) edge = sample img n m edge.
Proof.
  intros W.
  pose proof (corners_resolve img (inject_Z n) (inject_Z m) edge W) as C.
  rewrite (blin_corners _ _ _ _ _ _ _ _ C), (baryc_corners _ _ _ _ _ _ _ _ C).
  unfold sample. rewrite (proj1 (src_resolve img (inject_Z n) (inject_Z m) edge W)).
  assert (L : forall a b, List.length (resolve img a b edge)
                          = Z.to_nat (channels img)).
  { intros a b. apply len_length. apply src_resolve, W. }
  pose proof (inject_Z_pred n) as Pn. pose proof (inject_Z_pred m) as Pm.
  pose proof (inject_Z_succ n) as Sn. pose proof (inject_Z_succ m) as Sm.
  unfold direct_hit, blend4, blin_weights, fold_13, fold_24, tuple_of.
  cbv zeta.
  destruct (Z.lt_ge_cases n 0) as [Hn | Hn];
    destruct (Z.lt_ge_cases m 0) as [Hm | Hm].
  - rewrite (lower_cell_negative n Hn), (lower_cell_negative m Hm).
    rewrite Qeq_bool_negative. cbn [andb].
    replace (n - 1 + 1) with n by lia. replace (m - 1 + 1) with m by lia.
    split; f_equal.
    + apply (pick4 _ _ _ _ _ _ _ _ _ (L _ _) (L _ _) (L _ _) (L _ _)); nra.
    + destruct (_ <? _); decide_triangle; try lra;
        apply (pick3 _ _ _ _ _ _ _ (L _ _) (L _ _) (L _ _)); lra.
  - rewrite (lower_cell_negative n Hn), (lower_cell_inject_Z m) by lia.
    rewrite Qeq_bool_negative. cbn [andb].
    replace (n - 1 + 1) with n by lia.
    split; f_equal.
    + apply (pick4 _ _ _ _ _ _ _ _ _ (L _ _) (L _ _) (L _ _) (L _ _)); nra.
    + destruct (_ <? _); decide_triangle; try lra;
        apply (pick3 _ _ _ _ _ _ _ (L _ _) (L _ _) (L _ _)); lra.
  - rewrite (lower_cell_inject_Z n), (lower_cell_negative m Hm) by lia.
    rewrite Qeq_bool_negative, andb_false_r.
    replace (m - 1 + 1) with m by lia.
    split; f_equal.
    + apply (pick4 _ _ _ _ _ _ _ _ _ (L _ _) (L _ _) (L _ _) (L _ _)); nra.
    + destruct (_ <? _); decide_triangle; try lra;
        apply (pick3 _ _ _ _ _ _ _ (L _ _) (L _ _) (L _ _)); lra.
  - rewrite (lower_cell_inject_Z n), (lower_cell_inject_Z m) by lia.
    rewrite !(proj2 (Qeq_bool_iff _ _) (Qeq_refl _)). cbn [andb].
    split; reflexivity.
Qed.

(** X19: at integer coordinates nothing is blended, wherever they lie: on a
    well-formed image, for integers n and m of any sign, inside or outside
    the image, every method of [pixel] returns what the reader returns for
    the cell (n, m) under the edge value.  For negative integers the kernels
    take the cell below as lower cell and give the cell itself the whole
    weight. *)
Theorem pixel_integer_coordinate (img : image) (n m : Z)
  (edge method : pyarg) :
  well_formed img = true ->
  pixel_method method = true ->
  Imin.pixel img (inject_Z n) (inject_Z m) edge method = sample img n m edge.
Proof.
  intros W M. destruct (kernels_integer img n m edge W) as [B C].
  unfold pixel_method, is_bilinear, is_barycentric, is_nearest in M.
  unfold Imin.pixel.
  destruct (eq_int method 1 || eq_str method "bilinear"); trivial.
  destruct (eq_int method 2 || eq_str method "barycentric"); trivial.
  simpl in M. now rewrite M.
Qed.

Lemma pixel_integer_coordinate_witness :
  Imin.pixel img22 (inject_Z (-3)) (inject_Z (-1)) (PyInt 2) (PyInt 2)
  = sample img22 (-3) (-1) (PyInt 2).
Proof. apply pixel_integer_coordinate; reflexivity. Defined.

(** ** Target sizes of zero *)

Lemma shape_no_rows (out : image) (X Zn : Z) :
  has_shape out 0 X Zn = true -> out = [].
Proof.
  intros S. apply has_shape_spec in S. destruct S as [L _].
  destruct out; trivial. unfold len in L. simpl in L. lia.
Qed.

Lemma shape_no_columns (out : image) (Y Zn : Z) :
  has_shape out Y 0 Zn = true -> out = repeat [] (Z.to_nat Y).
Proof.
  intros S. apply has_shape_spec in S. destruct S as [L F].
  rewrite <- L. unfold len. rewrite Nat2Z.id. clear L.
  induction out as [| row out IH]; trivial.
  pose proof (Forall_inv F) as [L0 _]. simpl. f_equal.
  - destruct row; trivial. unfold len in L0. simpl in L0. lia.
  - apply IH. exact (Forall_inv_tail F).
Qed.

(** X20: a target size of 0 is no error, unlike a target size of 1: on a
    well-formed image and for both methods, [displace] and [rescale] to a
    height of 0 return the empty image, and to a width of 0 they return
    YNEW empty rows ([rescale] as long as the other size is not 1). *)
Theorem zero_target_sizes (img : image) (fx fy : Z -> Z -> Q) (XNEW YNEW : Z)
  (edge method : pyarg) :
  well_formed img = true ->
  driver_method method = true ->
  (0 <= XNEW ->
   Displace.displace img fx fy XNEW 0 edge method = Ok []) /\
  (0 <= YNEW ->
   Displace.displace img fx fy 0 YNEW edge method
   = Ok (repeat [] (Z.to_nat YNEW))) /\
  (0 <= XNEW -> XNEW <> 1 ->
   Rescale.rescale img XNEW 0 edge method = Ok []) /\
  (0 <= YNEW -> YNEW <> 1 ->
   Rescale.rescale img 0 YNEW edge method = Ok (repeat [] (Z.to_nat YNEW))).
Proof.
  intros W M. refine (conj _ (conj _ (conj _ _))).
  - intros HX.
    destruct (displace_returns_shape img fx fy XNEW 0 edge method W HX
                (Z.le_refl 0) M) as [out [-> S]].
    now rewrite (shape_no_rows out _ _ S).
  - intros HY.
    destruct (displace_returns_shape img fx fy 0 YNEW edge method W
                (Z.le_refl 0) HY M) as [out [-> S]].
    now rewrite (shape_no_columns out _ _ S).
  - intros HX NX.
    destruct (rescale_returns_shape img XNEW 0 edge method W HX
                (Z.le_refl 0) NX ltac:(lia) M) as [out [-> S]].
    now rewrite (shape_no_rows out _ _ S).
  - intros HY NY.
    destruct (rescale_returns_shape img 0 YNEW edge method W
                (Z.le_refl 0) HY ltac:(lia) NY M) as [out [-> S]].
    now rewrite (shape_no_columns out _ _ S).
Qed.

Lemma zero_target_sizes_witness :
  Rescale.rescale img22 0 3 (PyInt 1) (PyInt 1) = Ok [[]; []; []].
Proof.
  apply (proj2 (proj2 (proj2
           (zero_target_sizes img22 (fun _ _ => 0%Q) (fun _ _ => 0%Q) 0 3
              (PyInt 1) (PyInt 1) eq_refl eq_refl))));
    lia.
Defined.

(** * The kernels in binary64 *)

(** ** Rounding to the nearest binary64 value *)

Lemma Qpow2_pos (l : Z) : (0 < 2 ^ l)%Q.
Proof. apply Qpower_0_lt. reflexivity. Qed.

Lemma Qlog2_le (q : Q) : (0 < q)%Q -> (2 ^ Qlog2 q <= q)%Q.
Proof.
  intros P. unfold Qlog2.
  set (n := Qnum q). set (d := Zpos (Qden q)).
  destruct (Qle_bool (2 ^ (Z.log2 n - Z.log2 d)) q) eqn:E.
  - now apply Qle_bool_iff.
  - assert (Hn : 0 < n) by (unfold Qlt in P; simpl in P; subst n; lia).
    assert (Hd : 0 < d) by (subst d; lia).
    replace (Z.log2 n - Z.log2 d - 1) with (Z.log2 n - (Z.log2 d + 1)) by lia.
    rewrite Qpower_minus by discriminate.
    pose proof (Z.log2_nonneg n). pose proof (Z.log2_nonneg d).
    change 2%Q with (inject_Z 2).
    rewrite <- !Zpower_Qpower by lia.
    destruct (Z.log2_spec n Hn) as [A _]. destruct (Z.log2_spec d Hd) as [_ B].
    replace (Z.succ (Z.log2 d)) with (Z.log2 d + 1) in B by lia.
    generalize dependent (2 ^ Z.log2 n). generalize dependent (2 ^ (Z.log2 d + 1)).
    intros b B a A. clear E.
    apply Qle_shift_div_r.
    + change 0%Q with (inject_Z 0). rewrite <- Zlt_Qlt. lia.
    + destruct q as [qn qd]. simpl in n, d. subst n d.
      unfold Qle, Qmult, inject_Z. simpl Qnum. simpl Qden.
      rewrite Pos.mul_1_r. nia.
Qed.

Lemma round_even_Z (q : Q) (n : Z) : (q == inject_Z n)%Q -> round_even q = n.
Proof.
  intros E. unfold round_even.
  assert (F : Qfloor q = n) by (rewrite (Qfloor_comp _ _ E); apply Qfloor_Z).
  rewrite F.
  replace (q - inject_Z n ?= 1 # 2)%Q with Lt; trivial.
  symmetry. apply Qlt_alt. rewrite E.
  setoid_replace (inject_Z n - inject_Z n)%Q with 0%Q by ring. reflexivity.
Qed.

Lemma round_even_error (q : Q) :
  (Qabs (inject_Z (round_even q) - q) <= 1 # 2)%Q.
Proof.
  unfold round_even.
  pose proof (Qfloor_le q) as L. pose proof (Qlt_floor q) as U.
  rewrite inject_Z_plus in U. change (inject_Z 1) with 1%Q in U.
  destruct (Qcompare_spec (q - inject_Z (Qfloor q)) (1 # 2)) as [C | C | C];
    try destruct (Z.even (Qfloor q));
    rewrite ?inject_Z_plus; change (inject_Z 1) with 1%Q;
    apply Qabs_case; intros _; lra.
Qed.

Lemma round_even_nonneg (q : Q) : (0 <= q)%Q -> 0 <= round_even q.
Proof.
  intros P. unfold round_even.
  assert (0 <= Qfloor q) by (change 0 with (Qfloor 0); now apply Qfloor_resp_le).
  destruct (_ ?= _)%Q; try destruct (Z.even _); lia.
Qed.

Lemma binary64_exponent (q : Q) (m k : Z) :
  ~ (q == 0)%Q -> (q == inject_Z m * 2 ^ k)%Q -> Z.abs m < 2 ^ 53 -> -1074 <= k ->
  Z.max (Qlog2 (Qabs q) - 52) (-1074) <= k.
Proof.
  intros NZ E M K.
  assert (P : (0 < Qabs q)%Q).
  { pose proof (Qabs_nonneg q) as H. apply Qle_lt_or_eq in H.
    destruct H as [H | H]; trivial.
    exfalso. apply NZ. revert H. apply Qabs_case; intros _ H; lra. }
  pose proof (Qlog2_le _ P) as L.
  assert (U : (Qabs q < 2 ^ (53 + k))%Q).
  { rewrite E, Qabs_Qmult, Qpower_plus by discriminate.
    rewrite (Qabs_pos (2 ^ k)) by (apply Qlt_le_weak, Qpow2_pos).
    apply Qmult_lt_compat_r; [apply Qpow2_pos |].
    change (2 ^ 53)%Q with (inject_Z (2 ^ 53)).
    apply Qabs_case; intros _; [| rewrite <- inject_Z_opp];
      rewrite <- Zlt_Qlt; lia. }
  assert (Qlog2 (Qabs q) < 53 + k).
  { apply Qpower_lt_compat_l_inv with (q := 2%Q); [| reflexivity].
    now apply Qle_lt_trans with (Qabs q). }
  lia.
Qed.

Lemma binary64_exact (q : Q) : representable q -> (binary64 q == q)%Q.
Proof.
  intros (m & k & E & M & K). unfold binary64.
  destruct (Qeq_bool q 0) eqn:Z0.
  - apply Qeq_bool_iff in Z0. now rewrite Z0.
  - assert (NZ : ~ (q == 0)%Q) by (intros H; apply Qeq_bool_iff in H; congruence).
    pose proof (binary64_exponent q m k NZ E M K) as B.
    set (e := Z.max (Qlog2 (Qabs q) - 52) (-1074)) in *.
    assert (I : (q / 2 ^ e == inject_Z (m * 2 ^ (k - e)))%Q).
    { rewrite E, inject_Z_mult, Zpower_Qpower by lia.
      change (inject_Z 2) with 2%Q. rewrite Qpower_minus by discriminate.
      field. apply Qpower_not_0. discriminate. }
    rewrite (round_even_Z _ _ I), <- I. field.
    apply Qpower_not_0. discriminate.
Qed.

Lemma binary64_int (v : Z) :
  Z.abs v <= 2 ^ 53 -> (binary64 (inject_Z v) == inject_Z v)%Q.
Proof.
  intros B. apply binary64_exact. unfold representable.
  change (2 ^ 53) with 9007199254740992 in *.
  destruct (Z.eq_dec (Z.abs v) 9007199254740992) as [E | E].
  - assert (V : v = 9007199254740992 \/ v = -9007199254740992) by lia.
    destruct V as [-> | ->];
      [exists 4503599627370496, 1 | exists (-4503599627370496), 1];
      repeat split; lia.
  - exists v, 0. repeat split; try lia. change (2 ^ 0)%Q with 1%Q. ring.
Qed.

Lemma binary64_nonneg (q : Q) : (0 <= q)%Q -> (0 <= binary64 q)%Q.
Proof.
  intros P. unfold binary64. destruct (Qeq_bool q 0); [apply Qle_refl |].
  apply Qmult_le_0_compat; [| apply Qlt_le_weak, Qpow2_pos].
  change 0%Q with (inject_Z 0). rewrite <- Zle_Qle.
  apply round_even_nonneg. apply Qle_shift_div_l; [apply Qpow2_pos |]. lra.
Qed.

(** The rounding error: half a unit in the last place. *)
Lemma binary64_error (q : Q) :
  (Qabs (binary64 q - q) <= Qabs q * 2 ^ (-53) + 2 ^ (-1075))%Q.
Proof.
  assert (T : (0 < 2 ^ (-1075))%Q) by apply Qpow2_pos.
  assert (U : (0 < 2 ^ (-53))%Q) by apply Qpow2_pos.
  pose proof (Qabs_nonneg q) as A.
  unfold binary64. destruct (Qeq_bool q 0) eqn:Z0.
  - apply Qeq_bool_iff in Z0. rewrite Z0.
    setoid_replace (0 - 0)%Q with 0%Q by ring. simpl Qabs.
    setoid_replace (0 * 2 ^ (-53))%Q with 0%Q by ring. lra.
  - assert (NZ : ~ (q == 0)%Q) by (intros H; apply Qeq_bool_iff in H; congruence).
    assert (P : (0 < Qabs q)%Q).
    { apply Qle_lt_or_eq in A. destruct A as [H | H]; trivial.
      exfalso. apply NZ. revert H. apply Qabs_case; intros _ H; lra. }
    pose proof (Qlog2_le _ P) as L.
    set (e := Z.max (Qlog2 (Qabs q) - 52) (-1074)).
    pose proof (round_even_error (q / 2 ^ e)) as R.
    pose proof (Qpow2_pos e) as E.
    setoid_replace (inject_Z (round_even (q / 2 ^ e)) * 2 ^ e - q)%Q
      with ((inject_Z (round_even (q / 2 ^ e)) - q / 2 ^ e) * 2 ^ e)%Q
      by (field; apply Qpower_not_0; discriminate).
    rewrite Qabs_Qmult, (Qabs_pos (2 ^ e)) by lra.
    assert (B : (2 ^ e <= Qabs q * 2 ^ (-52) + 2 ^ (-1074))%Q).
    { assert (0 < 2 ^ (-52))%Q by apply Qpow2_pos.
      assert (0 < 2 ^ (-1074))%Q by apply Qpow2_pos.
      assert (0 <= Qabs q * 2 ^ (-52))%Q by (apply Qmult_le_0_compat; lra).
      subst e. destruct (Z.max_spec (Qlog2 (Qabs q) - 52) (-1074)) as [[_ ->] | [_ ->]].
      - lra.
      - rewrite Qpower_minus by discriminate.
        setoid_replace (2 ^ (-52))%Q with (/ 2 ^ 52)%Q by reflexivity.
        assert (2 ^ Qlog2 (Qabs q) / 2 ^ 52 <= Qabs q / 2 ^ 52)%Q.
        { apply Qmult_le_compat_r; trivial. apply Qlt_le_weak, Qinv_lt_0_compat. reflexivity. }
        unfold Qdiv in *. lra. }
    setoid_replace (2 ^ (-53))%Q with (2 ^ (-52) * (1 # 2))%Q by reflexivity.
    setoid_replace (2 ^ (-1075))%Q with (2 ^ (-1074) * (1 # 2))%Q by reflexivity.
    assert (Qabs (inject_Z (round_even (q / 2 ^ e)) - q / 2 ^ e) * 2 ^ e
            <= (1 # 2) * 2 ^ e)%Q by (apply Qmult_le_compat_r; lra).
    lra.
Qed.

Lemma binary64_near (q B e : Q) :
  (Qabs q <= B)%Q -> (B * 2 ^ (-53) + 2 ^ (-1075) <= e)%Q ->
  (q - e <= binary64 q <= q + e)%Q.
Proof.
  intros Hq He. pose proof (binary64_error q) as R.
  assert (Qabs q * 2 ^ (-53) <= B * 2 ^ (-53))%Q
    by (apply Qmult_le_compat_r; trivial; apply Qlt_le_weak, Qpow2_pos).
  assert (A : (Qabs (binary64 q - q) <= e)%Q) by lra.
  apply Qabs_Qle_condition in A. destruct A. split; lra.
Qed.

(** ** Operations that are exact *)

Lemma binary64_eq (q r : Q) (m k : Z) :
  (q == r)%Q -> (r == inject_Z m * 2 ^ k)%Q -> Z.abs m < 2 ^ 53 -> -1074 <= k ->
  (binary64 q == r)%Q.
Proof.
  intros E R M K. apply Qeq_trans with q; [| exact E].
  apply binary64_exact. exists m, k. repeat split; trivial. now rewrite E.
Qed.

Lemma float_exact (v : Z) : Z.abs v <= 2 ^ 53 -> (float v == inject_Z v)%Q.
Proof. apply binary64_int. Qed.

Lemma blin64_corners (img : image) (x y : Q) (edge : pyarg)
  (p1 p2 p3 p4 : pixel_t) :
  corners img x y edge = Ok (p1, p2, p3, p4) ->
  Imin64.blin img x y edge =
  Ok (if direct_hit x y then p1
      else blend4_64 (channels img) p1 p4 p2 p3 (blin_weights64 x y)).
Proof.
  intros H. apply corners_inv in H. destruct H as (H1 & H2 & H3 & H4).
  destruct (sample_first_pixel _ _ _ _ _ H1) as (px0 & pxs & rows & ->).
  unfold sample in *. unfold Imin64.blin.
  rewrite index_head. unfold bind at 1. rewrite index_head. unfold bind at 1.
  fold (direct_hit x y). destruct (direct_hit x y); [exact H1 |].
  cbv zeta. rewrite H1, H2, H3, H4. reflexivity.
Qed.

(** The weights at the midpoint of four cells. *)
Lemma midpoint_weight (n : Z) :
  Z.abs n <= 2 ^ 51 ->
  (fsub (float (n + 1)) (inject_Z n + (1 # 2)) == 1 # 2)%Q /\
  (fsub (inject_Z n + (1 # 2)) (float n) == 1 # 2)%Q.
Proof.
  intros B. change (2 ^ 51) with 2251799813685248 in B.
  assert (F1 : (float (n + 1) == inject_Z n + 1)%Q).
  { rewrite float_exact by (change (2 ^ 53) with 9007199254740992; lia).
    rewrite inject_Z_plus. reflexivity. }
  assert (F0 : (float n == inject_Z n)%Q)
    by (apply float_exact; change (2 ^ 53) with 9007199254740992; lia).
  split; apply binary64_eq with (m := 1) (k := -1);
    try reflexivity; try lia; rewrite ?F1, ?F0; ring.
Qed.

Lemma midpoint_weights (x0 y0 : Z) :
  Z.abs x0 <= 2 ^ 51 -> Z.abs y0 <= 2 ^ 51 ->
  let '(w00, w01, w10, w11) :=
    blin_weights64 (inject_Z x0 + (1 # 2)) (inject_Z y0 + (1 # 2)) in
  (w00 == 1 # 4 /\ w01 == 1 # 4 /\ w10 == 1 # 4 /\ w11 == 1 # 4)%Q.
Proof.
  intros Bx By. unfold blin_weights64. rewrite !lower_cell_half. cbv zeta.
  destruct (midpoint_weight x0 Bx) as [X1 X0].
  destruct (midpoint_weight y0 By) as [Y1 Y0].
  repeat split; apply binary64_eq with (m := 1) (k := -2);
    try reflexivity; try lia; rewrite ?X1, ?X0, ?Y1, ?Y0; reflexivity.
Qed.

(** A sample of magnitude up to 2^51 blended with four quarters. *)
Lemma quarter_blend (v : Z) (w00 w01 w10 w11 : Q) :
  Z.abs v <= 2 ^ 51 ->
  (w00 == 1 # 4)%Q -> (w01 == 1 # 4)%Q -> (w10 == 1 # 4)%Q -> (w11 == 1 # 4)%Q ->
  Imin64.intaddup4 (fmul (float v) w00) (fmul (float v) w01)
    (fmul (float v) w10) (fmul (float v) w11) = v.
Proof.
  intros B E0 E1 E2 E3. change (2 ^ 51) with 2251799813685248 in B.
  assert (F : (float v == inject_Z v)%Q)
    by (apply float_exact; change (2 ^ 53) with 9007199254740992; lia).
  assert (P : forall w, (w == 1 # 4)%Q ->
                        (fmul (float v) w == inject_Z v * (1 # 4))%Q).
  { intros w E. apply binary64_eq with (m := v) (k := -2).
    - now rewrite F, E.
    - reflexivity.
    - change (2 ^ 53) with 9007199254740992; lia.
    - lia. }
  pose proof (P _ E0) as P0. pose proof (P _ E1) as P1.
  pose proof (P _ E2) as P2. pose proof (P _ E3) as P3.
  assert (S1 : (fadd (fmul (float v) w00) (fmul (float v) w01)
                == inject_Z v * (1 # 2))%Q).
  { apply binary64_eq with (m := v) (k := -1).
    - rewrite P0, P1. ring.
    - reflexivity.
    - change (2 ^ 53) with 9007199254740992; lia.
    - lia. }
  assert (S2 : (fadd (fadd (fmul (float v) w00) (fmul (float v) w01))
                  (fmul (float v) w10) == inject_Z v * (3 # 4))%Q).
  { apply binary64_eq with (m := 3 * v) (k := -2).
    - rewrite S1, P2. ring.
    - rewrite inject_Z_mult.
      setoid_replace (2 ^ (-2))%Q with (1 # 4)%Q by reflexivity.
      change (inject_Z 3) with 3%Q. ring.
    - change (2 ^ 53) with 9007199254740992; lia.
    - lia. }
  unfold Imin64.intaddup4.
  transitivity (int (inject_Z v)); [| apply int_inject_Z].
  apply int_Qeq.
  apply binary64_eq with (m := v) (k := 0).
  - rewrite S2, P3. ring.
  - change (2 ^ 0)%Q with 1%Q. ring.
  - change (2 ^ 53) with 9007199254740992; lia.
  - lia.
Qed.

Lemma magnitude_cons (B v : Z) (p : pixel_t) :
  magnitude B (v :: p) = true <-> Z.abs v <= B /\ magnitude B p = true.
Proof.
  unfold magnitude. simpl. rewrite andb_true_iff, Z.leb_le. tauto.
Qed.

Lemma blend_quarters (n : nat) (p : pixel_t) (w00 w01 w10 w11 : Q) :
  List.length p = n -> magnitude (2 ^ 51) p = true ->
  (w00 == 1 # 4)%Q -> (w01 == 1 # 4)%Q -> (w10 == 1 # 4)%Q -> (w11 == 1 # 4)%Q ->
  map4 Imin64.intaddup4 (map_fmul p (repeat w00 n)) (map_fmul p (repeat w01 n))
    (map_fmul p (repeat w10 n)) (map_fmul p (repeat w11 n)) = p.
Proof.
  intros L M E0 E1 E2 E3. revert n L. induction p as [| v p IH]; intros n L.
  - now destruct n.
  - destruct n as [| n]; [discriminate |].
    apply magnitude_cons in M. destruct M as [B M].
    cbn [repeat map_fmul map4]. f_equal.
    + now apply quarter_blend.
    + apply IH; trivial. now injection L.
Qed.

(** ** Rounding errors of the weights *)

(** A float operation on a weight is off by at most 2^-50, one on a sample
    by at most 2^-15. *)
Lemma near_weight (q : Q) :
  (Qabs q <= 4)%Q ->
  (q - (1 # 1125899906842624) <= binary64 q <= q + (1 # 1125899906842624))%Q.
Proof.
  intros H. apply binary64_near with (B := 4%Q); trivial.
  apply Qle_bool_iff. vm_compute. reflexivity.
Qed.

Lemma near_sample (q : Q) :
  (Qabs q <= 137438953472)%Q ->
  (q - (1 # 32768) <= binary64 q <= q + (1 # 32768))%Q.
Proof.
  intros H. apply binary64_near with (B := 137438953472%Q); trivial.
  apply Qle_bool_iff. vm_compute. reflexivity.
Qed.

Lemma Qabs_between (q b : Q) : (- b <= q)%Q -> (q <= b)%Q -> (Qabs q <= b)%Q.
Proof. intros L U. apply Qabs_Qle_condition. now split. Qed.

(** The two weights of a coordinate along one axis. *)
Lemma lower_cell_bound (x : Q) :
  (Qabs x <= 2 ^ 52)%Q ->
  Z.abs (lower_cell x) <= 2 ^ 53 /\ Z.abs (lower_cell x + 1) <= 2 ^ 53.
Proof.
  intros B. apply Qabs_Qle_condition in B. destruct B as [L U].
  change (2 ^ 52)%Q with 4503599627370496%Q in L, U.
  pose proof (lower_cell_below x) as A. pose proof (lower_cell_above x) as C.
  assert (L' : (inject_Z (-4503599627370497) <= inject_Z (lower_cell x))%Q).
  { change (inject_Z (-4503599627370497)) with (-4503599627370497)%Q. lra. }
  assert (U' : (inject_Z (lower_cell x) <= inject_Z 4503599627370496)%Q).
  { change (inject_Z 4503599627370496) with 4503599627370496%Q. lra. }
  rewrite <- Zle_Qle in L', U'.
  change (2 ^ 53) with 9007199254740992. lia.
Qed.

Lemma axis_weights (x : Q) :
  (Qabs x <= 2 ^ 52)%Q ->
  let x0 := lower_cell x in
  let a := fsub (float (x0 + 1)) x in
  let b := fsub x (float x0) in
  (0 <= a /\ 0 <= b /\
   inject_Z x0 + 1 - x - (1 # 1125899906842624) <= a <= inject_Z x0 + 1 - x + (1 # 1125899906842624) /\
   x - inject_Z x0 - (1 # 1125899906842624) <= b <= x - inject_Z x0 + (1 # 1125899906842624))%Q.
Proof.
  intros B x0 a b. destruct (lower_cell_bound x B) as [B0 B1].
  pose proof (lower_cell_below x) as L. pose proof (lower_cell_above x) as U.
  fold x0 in L, U, B0, B1.
  pose proof (float_exact x0 B0) as F0. pose proof (float_exact (x0 + 1) B1) as F1.
  rewrite inject_Z_plus in F1. change (inject_Z 1) with 1%Q in F1.
  assert (Na : (0 <= a)%Q) by (apply binary64_nonneg; lra).
  assert (Nb : (0 <= b)%Q) by (apply binary64_nonneg; lra).
  assert (Ea : (float (x0 + 1) - x - (1 # 1125899906842624) <= a
                <= float (x0 + 1) - x + (1 # 1125899906842624))%Q)
    by (apply near_weight, Qabs_between; lra).
  assert (Eb : (x - float x0 - (1 # 1125899906842624) <= b
                <= x - float x0 + (1 # 1125899906842624))%Q)
    by (apply near_weight, Qabs_between; lra).
  repeat split; lra.
Qed.

Lemma tap_Q (lo hi v : Z) :
  tap lo hi v ->
  (0 <= inject_Z lo /\ inject_Z lo <= inject_Z v /\ inject_Z v <= inject_Z hi
   /\ inject_Z hi <= 4294967296)%Q.
Proof.
  intros (A & [B C] & D). change (2 ^ 32) with 4294967296 in D.
  change 0%Q with (inject_Z 0). change 4294967296%Q with (inject_Z 4294967296).
  rewrite <- !Zle_Qle. lia.
Qed.

Lemma tap_float (lo hi v : Z) : tap lo hi v -> (float v == inject_Z v)%Q.
Proof.
  intros (A & [B C] & D). apply float_exact.
  change (2 ^ 32) with 4294967296 in D. change (2 ^ 53) with 9007199254740992.
  lia.
Qed.

(** One tap: the product of a sample and a weight. *)
Lemma tap_bounds (lo hi v : Z) (w : Q) :
  tap lo hi v -> weight w ->
  (inject_Z lo * w - (1 # 16384) <= fmul (float v) w
   <= inject_Z hi * w + (1 # 16384))%Q.
Proof.
  intros T [Wl Wu]. pose proof (tap_float lo hi v T) as F.
  apply tap_Q in T. destruct T as (A & B & C & D).
  assert (N : (Qabs (float v * w) <= 137438953472)%Q).
  { apply Qabs_between; rewrite F; nra. }
  pose proof (near_sample _ N) as E. unfold fmul.
  set (r := binary64 (float v * w)) in *. rewrite F in E. clearbody r.
  destruct (Qlt_le_dec w 0) as [S | S]; split; nra.
Qed.

(** Adding a tap to a partial sum. *)
Lemma add_tap (lo hi : Z) (s p W w d : Q) :
  (0 <= inject_Z lo)%Q -> (inject_Z lo <= inject_Z hi)%Q ->
  (inject_Z hi <= 4294967296)%Q ->
  (-1 <= W <= 4)%Q -> (-1 <= w <= 4)%Q -> (0 <= d <= 1)%Q ->
  (inject_Z lo * W - d <= s <= inject_Z hi * W + d)%Q ->
  (inject_Z lo * w - (1 # 16384) <= p <= inject_Z hi * w + (1 # 16384))%Q ->
  (inject_Z lo * (W + w) - (d + (1 # 8192)) <= fadd s p
   <= inject_Z hi * (W + w) + (d + (1 # 8192)))%Q.
Proof.
  intros A B C HW Hw Hd Hs Hp.
  assert (N : (Qabs (s + p) <= 137438953472)%Q) by (apply Qabs_between; nra).
  pose proof (near_sample _ N) as E. unfold fadd. split; nra.
Qed.

(** The truncated sum lies between the lowest tap, less one, and the
    highest. *)
Lemma int_bounds (lo hi : Z) (W s : Q) :
  (0 <= inject_Z lo)%Q -> (inject_Z lo <= inject_Z hi)%Q ->
  (inject_Z hi <= 4294967296)%Q ->
  (1 - (1 # 70368744177664) <= W <= 1 + (1 # 70368744177664))%Q ->
  (inject_Z lo * W - (1 # 1024) <= s <= inject_Z hi * W + (1 # 1024))%Q ->
  0 <= int s /\ lo - 1 <= int s <= hi.
Proof.
  intros A B C HW Hs.
  assert (L : (inject_Z lo - (1 # 2) <= s)%Q) by nra.
  assert (U : (s <= inject_Z hi + (1 # 2))%Q) by nra.
  clear HW Hs.
  destruct (Qlt_le_dec s 0) as [S | S].
  - rewrite int_nonpos by lra.
    assert (E : Qceiling s = 0).
    { pose proof (Qle_ceiling s) as G. pose proof (Qceiling_lt s) as G'.
      assert (inject_Z (-1) < inject_Z (Qceiling s))%Q
        by (change (inject_Z (-1)) with (-1)%Q; lra).
      assert (inject_Z (Qceiling s - 1) < inject_Z 0)%Q
        by (change (inject_Z 0) with 0%Q; lra).
      rewrite <- Zlt_Qlt in *. lia. }
    rewrite E.
    assert (inject_Z lo < inject_Z 1)%Q by (change (inject_Z 1) with 1%Q; lra).
    assert (inject_Z 0 <= inject_Z hi)%Q by (change (inject_Z 0) with 0%Q; lra).
    rewrite <- Zlt_Qlt, <- ?Zle_Qle in *. lia.
  - rewrite int_nonneg by trivial.
    pose proof (Qfloor_le s) as G. pose proof (Qlt_floor s) as G'.
    rewrite inject_Z_plus in G'. change (inject_Z 1) with 1%Q in G'.
    assert (inject_Z (-1) < inject_Z (Qfloor s))%Q
      by (change (inject_Z (-1)) with (-1)%Q; lra).
    assert (inject_Z lo < inject_Z (Qfloor s + 2))%Q.
    { rewrite inject_Z_plus. change (inject_Z 2) with 2%Q. lra. }
    assert (inject_Z (Qfloor s) < inject_Z (hi + 1))%Q.
    { rewrite inject_Z_plus. change (inject_Z 1) with 1%Q. lra. }
    rewrite <- !Zlt_Qlt in *. lia.
Qed.

Lemma tap_order (lo hi v : Z) :
  tap lo hi v ->
  (0 <= inject_Z lo)%Q /\ (inject_Z lo <= inject_Z hi)%Q /\
  (inject_Z hi <= 4294967296)%Q.
Proof. intros T. apply tap_Q in T. destruct T as (A & B & C & D). repeat split; lra. Qed.

Lemma blend4_scalar (lo hi v0 v1 v2 v3 : Z) (w0 w1 w2 w3 : Q) :
  tap lo hi v0 -> tap lo hi v1 -> tap lo hi v2 -> tap lo hi v3 ->
  weight w0 -> weight w1 -> weight w2 -> weight w3 ->
  unit_sum (w0 + w1 + w2 + w3) ->
  let r := int (fadd (fadd (fadd (fmul (float v0) w0) (fmul (float v1) w1))
                        (fmul (float v2) w2)) (fmul (float v3) w3)) in
  0 <= r /\ lo - 1 <= r <= hi.
Proof.
  intros T0 T1 T2 T3 W0 W1 W2 W3 S r.
  pose proof (tap_bounds _ _ _ _ T0 W0) as P0.
  pose proof (tap_bounds _ _ _ _ T1 W1) as P1.
  pose proof (tap_bounds _ _ _ _ T2 W2) as P2.
  pose proof (tap_bounds _ _ _ _ T3 W3) as P3.
  destruct (tap_order _ _ _ T0) as (A & B & C).
  unfold weight, unit_sum in *.
  assert (S1 := add_tap lo hi _ _ w0 w1 (1 # 16384) A B C
                  ltac:(lra) ltac:(lra) ltac:(lra) P0 P1).
  assert (S2 := add_tap lo hi _ _ (w0 + w1) w2 ((1 # 16384) + (1 # 8192)) A B C
                  ltac:(lra) ltac:(lra) ltac:(lra) S1 P2).
  assert (S3 := add_tap lo hi _ _ (w0 + w1 + w2) w3
                  ((1 # 16384) + (1 # 8192) + (1 # 8192)) A B C
                  ltac:(lra) ltac:(lra) ltac:(lra) S2 P3).
  apply (int_bounds lo hi (w0 + w1 + w2 + w3)); trivial. lra.
Qed.

Lemma blend3_scalar (lo hi v0 v1 v2 : Z) (w0 w1 w2 : Q) :
  tap lo hi v0 -> tap lo hi v1 -> tap lo hi v2 ->
  weight w0 -> weight w1 -> weight w2 ->
  unit_sum (w0 + w1 + w2) ->
  let r := int (fadd (fadd (fmul (float v0) w0) (fmul (float v1) w1))
                  (fmul (float v2) w2)) in
  0 <= r /\ lo - 1 <= r <= hi.
Proof.
  intros T0 T1 T2 W0 W1 W2 S r.
  pose proof (tap_bounds _ _ _ _ T0 W0) as P0.
  pose proof (tap_bounds _ _ _ _ T1 W1) as P1.
  pose proof (tap_bounds _ _ _ _ T2 W2) as P2.
  destruct (tap_order _ _ _ T0) as (A & B & C).
  unfold weight, unit_sum in *.
  assert (S1 := add_tap lo hi _ _ w0 w1 (1 # 16384) A B C
                  ltac:(lra) ltac:(lra) ltac:(lra) P0 P1).
  assert (S2 := add_tap lo hi _ _ (w0 + w1) w2 ((1 # 16384) + (1 # 8192)) A B C
                  ltac:(lra) ltac:(lra) ltac:(lra) S1 P2).
  apply (int_bounds lo hi (w0 + w1 + w2)); trivial. lra.
Qed.

Lemma blend2_scalar (lo hi v0 v1 : Z) (w0 w1 : Q) :
  tap lo hi v0 -> tap lo hi v1 ->
  weight w0 -> weight w1 ->
  unit_sum (w0 + w1) ->
  let r := int (fadd (fmul (float v0) w0) (fmul (float v1) w1)) in
  0 <= r /\ lo - 1 <= r <= hi.
Proof.
  intros T0 T1 W0 W1 S r.
  pose proof (tap_bounds _ _ _ _ T0 W0) as P0.
  pose proof (tap_bounds _ _ _ _ T1 W1) as P1.
  destruct (tap_order _ _ _ T0) as (A & B & C).
  unfold weight, unit_sum in *.
  assert (S1 := add_tap lo hi _ _ w0 w1 (1 # 16384) A B C
                  ltac:(lra) ltac:(lra) ltac:(lra) P0 P1).
  apply (int_bounds lo hi (w0 + w1)); trivial. lra.
Qed.

(** The weights of the kernels. *)
Lemma blin_weights64_bounds (x y : Q) :
  (Qabs x <= 2 ^ 52)%Q -> (Qabs y <= 2 ^ 52)%Q ->
  let '(w00, w01, w10, w11) := blin_weights64 x y in
  (0 <= w00 /\ 0 <= w01 /\ 0 <= w10 /\ 0 <= w11)%Q /\
  weight w00 /\ weight w01 /\ weight w10 /\ weight w11 /\
  unit_sum (w00 + w01 + w10 + w11).
Proof.
  intros Bx By. unfold blin_weights64. cbv zeta.
  destruct (axis_weights x Bx) as (Na & Nb & Ea & Eb).
  destruct (axis_weights y By) as (Nc & Nd & Ec & Ed).
  pose proof (lower_cell_below x) as Lx. pose proof (lower_cell_above x) as Ux.
  pose proof (lower_cell_below y) as Ly. pose proof (lower_cell_above y) as Uy.
  set (a := fsub (float (lower_cell x + 1)) x) in *.
  set (b := fsub x (float (lower_cell x))) in *.
  set (c := fsub (float (lower_cell y + 1)) y) in *.
  set (d := fsub y (float (lower_cell y))) in *.
  clearbody a b c d.
  assert (P : forall p q : Q,
             (0 <= p <= 1 + (1 # 1125899906842624))%Q ->
             (0 <= q <= 1 + (1 # 1125899906842624))%Q ->
             (0 <= fmul p q /\
              p * q - (1 # 1125899906842624) <= fmul p q
              <= p * q + (1 # 1125899906842624))%Q).
  { intros p q Hp Hq. split.
    - apply binary64_nonneg. nra.
    - apply near_weight, Qabs_between; nra. }
  destruct (P a c ltac:(lra) ltac:(lra)) as [N0 E0].
  destruct (P a d ltac:(lra) ltac:(lra)) as [N1 E1].
  destruct (P b c ltac:(lra) ltac:(lra)) as [N2 E2].
  destruct (P b d ltac:(lra) ltac:(lra)) as [N3 E3].
  unfold weight, unit_sum.
  split; [tauto |]. repeat split; nra.
Qed.

(** The third weight of a triangle, [1 - (a + b)]. *)
Lemma triangle_weights (a b : Q) :
  (0 <= a)%Q -> (0 <= b)%Q -> (a + b <= 1 + (1 # 281474976710656))%Q ->
  weight a /\ weight b /\ weight (fsub 1 (fadd a b)) /\
  unit_sum (a + b + fsub 1 (fadd a b)).
Proof.
  intros A B S.
  assert (E1 : (a + b - (1 # 1125899906842624) <= fadd a b
                <= a + b + (1 # 1125899906842624))%Q)
    by (apply near_weight, Qabs_between; lra).
  assert (N1 : (0 <= fadd a b)%Q) by (apply binary64_nonneg; lra).
  assert (E2 : (1 - fadd a b - (1 # 1125899906842624) <= fsub 1 (fadd a b)
                <= 1 - fadd a b + (1 # 1125899906842624))%Q)
    by (apply near_weight, Qabs_between; lra).
  unfold weight, unit_sum. repeat split; lra.
Qed.

(** ** The weights of the bilinear kernel in binary64 *)

(** C8, as stated, fails for the weights the code computes: at
    (0.3, 0.7), taken as binary64 values, the four weights do not sum to 1,
    neither as rationals nor added in binary64 as the kernel adds its
    products.  Nor does a sum of exactly 1 make equal neighbours blend to
    their common value off the midpoint: at (2/3, 1/2) the weights sum to
    1 and the all-[7, 9] image reads [6, 9]. *)
Lemma blin_weights_sum_counterexample :
  let x := binary64 (3 # 10) in
  let y := binary64 (7 # 10) in
  (x == 5404319552844595 # 18014398509481984)%Q /\
  (y == 3152519739159347 # 4503599627370496)%Q /\
  direct_hit x y = false /\
  (let '(w00, w01, w10, w11) := blin_weights64 x y in
   ~ (w00 + w01 + w10 + w11 == 1)%Q /\
   ~ (fadd (fadd (fadd w00 w01) w10) w11 == 1)%Q) /\
  (let '(w00, w01, w10, w11) := blin_weights64 (binary64 (2 # 3)) (1 # 2) in
   (w00 + w01 + w10 + w11 == 1)%Q) /\
  Imin64.blin img_flat (binary64 (2 # 3)) (1 # 2) (PyInt 1) = Ok [6; 9].
Proof.
  repeat split; try (vm_compute; reflexivity);
    intros H; vm_compute in H; discriminate.
Qed.

(** C8, amended: in binary64, in which the code computes them, the four
    weights of the bilinear kernel are non-negative and sum to 1 within
    2^-46 at every coordinate of magnitude up to 2^52; at the midpoint
    [(x0 + 1/2, y0 + 1/2)] of four cells each weight is exactly 1/4 and
    their sum is exactly 1, also when added in binary64; off a direct hit
    the kernel is the blend of the four corners with these weights; and at
    the midpoint four equal corner pixels, of samples of magnitude up to
    2^51, give exactly that pixel back. *)
Theorem blin_weights_sum_binary64 :
  (forall x y : Q,
     (Qabs x <= 2 ^ 52)%Q -> (Qabs y <= 2 ^ 52)%Q ->
     let '(w00, w01, w10, w11) := blin_weights64 x y in
     (0 <= w00 /\ 0 <= w01 /\ 0 <= w10 /\ 0 <= w11)%Q /\
     unit_sum (w00 + w01 + w10 + w11)) /\
  (forall x0 y0 : Z,
     Z.abs x0 <= 2 ^ 51 -> Z.abs y0 <= 2 ^ 51 ->
     let '(w00, w01, w10, w11) :=
       blin_weights64 (inject_Z x0 + (1 # 2)) (inject_Z y0 + (1 # 2)) in
     (w00 == 1 # 4 /\ w01 == 1 # 4 /\ w10 == 1 # 4 /\ w11 == 1 # 4 /\
      w00 + w01 + w10 + w11 == 1 /\
      fadd (fadd (fadd w00 w01) w10) w11 == 1)%Q) /\
  (forall (img : image) (x y : Q) (edge : pyarg) (p1 p2 p3 p4 : pixel_t),
     corners img x y edge = Ok (p1, p2, p3, p4) ->
     direct_hit x y = false ->
     Imin64.blin img x y edge
     = Ok (blend4_64 (channels img) p1 p4 p2 p3 (blin_weights64 x y))) /\
  (forall (img : image) (x0 y0 : Z) (edge : pyarg) (p : pixel_t),
     well_formed img = true ->
     Z.abs x0 <= 2 ^ 51 -> Z.abs y0 <= 2 ^ 51 ->
     magnitude (2 ^ 51) p = true ->
     sample img x0 y0 edge = Ok p ->
     sample img x0 (y0 + 1) edge = Ok p ->
     sample img (x0 + 1) y0 edge = Ok p ->
     sample img (x0 + 1) (y0 + 1) edge = Ok p ->
     Imin64.blin img (inject_Z x0 + (1 # 2)) (inject_Z y0 + (1 # 2)) edge
     = Ok p).
Proof.
  split; [| split; [| split]].
  - intros x y Bx By. pose proof (blin_weights64_bounds x y Bx By) as H.
    destruct (blin_weights64 x y) as [[[w00 w01] w10] w11]. tauto.
  - intros x0 y0 Bx By. pose proof (midpoint_weights x0 y0 Bx By) as W.
    destruct (blin_weights64 _ _) as [[[w00 w01] w10] w11].
    destruct W as (E0 & E1 & E2 & E3). repeat split; trivial.
    + rewrite E0, E1, E2, E3. reflexivity.
    + assert (S1 : (fadd w00 w01 == 1 # 2)%Q).
      { apply binary64_eq with (m := 1) (k := -1);
          try reflexivity; try lia. rewrite E0, E1. reflexivity. }
      assert (S2 : (fadd (fadd w00 w01) w10 == 3 # 4)%Q).
      { apply binary64_eq with (m := 3) (k := -2);
          try reflexivity; try lia. rewrite S1, E2. reflexivity. }
      apply binary64_eq with (m := 1) (k := 0);
        try reflexivity; try lia. rewrite S2, E3. reflexivity.
  - intros img x y edge p1 p2 p3 p4 C D.
    now rewrite (blin64_corners img _ _ edge p1 p2 p3 p4 C), D.
  - intros img x0 y0 edge p Wf Bx By M A B C D.
    pose proof (midpoint_weights x0 y0 Bx By) as W.
    assert (Cs : corners img (inject_Z x0 + (1 # 2)) (inject_Z y0 + (1 # 2))
                   edge = Ok (p, p, p, p)).
    { unfold corners. rewrite !lower_cell_half, A, B, C, D. reflexivity. }
    rewrite (blin64_corners img _ _ edge p p p p Cs), direct_hit_half.
    f_equal.
    destruct (blin_weights64 _ _) as [[[w00 w01] w10] w11].
    destruct W as (E0 & E1 & E2 & E3).
    unfold blend4_64, tuple_of. apply blend_quarters; trivial.
    apply len_length. exact (corner_length img _ _ edge p p p p Wf Cs).
Qed.

Lemma blin_weights_sum_binary64_witness :
  Imin64.blin img_flat (1 # 2) (1 # 2) (PyInt 0) = Ok [7; 9].
Proof.
  apply (proj2 (proj2 (proj2 blin_weights_sum_binary64)) img_flat 0 0
           (PyInt 0));
    try reflexivity; simpl; lia.
Defined.

(** ** Samples stay in their range *)

Lemma close_below_refl (p : pixel_t) : close_below p p = true.
Proof.
  induction p as [| v p IH]; trivial. simpl. rewrite IH.
  rewrite andb_true_r, andb_true_iff, !Z.leb_le. lia.
Qed.

Lemma within_tap (M v : Z) : M <= 2 ^ 32 -> 0 <= v <= M -> tap 0 M v.
Proof. intros B H. unfold tap. lia. Qed.

Lemma within_blend4_64 (M : Z) (n : nat) (w00 w01 w10 w11 : Q)
  (p00 p01 p10 p11 : pixel_t) :
  M <= 2 ^ 32 ->
  weight w00 -> weight w01 -> weight w10 -> weight w11 ->
  unit_sum (w00 + w01 + w10 + w11) ->
  within M p00 = true -> within M p01 = true ->
  within M p10 = true -> within M p11 = true ->
  within M (map4 Imin64.intaddup4
              (map_fmul p00 (repeat w00 n)) (map_fmul p01 (repeat w01 n))
              (map_fmul p10 (repeat w10 n)) (map_fmul p11 (repeat w11 n)))
  = true.
Proof.
  intros BM A B C D S. revert p00 p01 p10 p11.
  induction n as [| n IH];
    intros [| v00 p00] [| v01 p01] [| v10 p10] [| v11 p11] H0 H1 H2 H3;
    trivial.
  cbn [repeat map_fmul map4].
  apply within_cons in H0, H1, H2, H3.
  destruct H0 as [V0 H0], H1 as [V1 H1], H2 as [V2 H2], H3 as [V3 H3].
  apply within_cons. split; [| now apply IH].
  apply (within_tap M _ BM) in V0, V1, V2, V3.
  destruct (blend4_scalar 0 M v00 v01 v10 v11 w00 w01 w10 w11) as [L [_ U]];
    trivial.
  unfold Imin64.intaddup4. lia.
Qed.

Lemma within_blend3_64 (M : Z) (n : nat) (a b c : Q) (p q r : pixel_t) :
  M <= 2 ^ 32 ->
  weight a -> weight b -> weight c -> unit_sum (a + b + c) ->
  within M p = true -> within M q = true -> within M r = true ->
  within M (map3 Imin64.intaddup3 (map_fmul p (repeat a n))
              (map_fmul q (repeat b n)) (map_fmul r (repeat c n)))
  = true.
Proof.
  intros BM A B C S. revert p q r.
  induction n as [| n IH]; intros [| u p] [| v q] [| w r] H0 H1 H2; trivial.
  cbn [repeat map_fmul map3].
  apply within_cons in H0, H1, H2.
  destruct H0 as [V0 H0], H1 as [V1 H1], H2 as [V2 H2].
  apply within_cons. split; [| now apply IH].
  apply (within_tap M _ BM) in V0, V1, V2.
  destruct (blend3_scalar 0 M u v w a b c) as [L [_ U]]; trivial.
  unfold Imin64.intaddup3. lia.
Qed.

Lemma close_blend4_64 (n : nat) (w00 w01 w10 w11 : Q) (p : pixel_t) :
  weight w00 -> weight w01 -> weight w10 -> weight w11 ->
  unit_sum (w00 + w01 + w10 + w11) ->
  List.length p = n -> within (2 ^ 32) p = true ->
  close_below p
    (map4 Imin64.intaddup4
       (map_fmul p (repeat w00 n)) (map_fmul p (repeat w01 n))
       (map_fmul p (repeat w10 n)) (map_fmul p (repeat w11 n)))
  = true.
Proof.
  intros A B C D S. revert n. induction p as [| v p IH]; intros n L H.
  - now destruct n.
  - destruct n as [| n]; [discriminate |].
    cbn [repeat map_fmul map4 close_below].
    apply within_cons in H. destruct H as [V H].
    assert (T : tap v v v) by (unfold tap; lia).
    destruct (blend4_scalar v v v v v v w00 w01 w10 w11) as [_ [Lo Hi]];
      trivial.
    unfold Imin64.intaddup4.
    rewrite IH by (trivial; now injection L).
    rewrite andb_true_r, andb_true_iff, !Z.leb_le. lia.
Qed.

Lemma close_blend3_64 (n : nat) (a b c : Q) (p : pixel_t) :
  weight a -> weight b -> weight c -> unit_sum (a + b + c) ->
  List.length p = n -> within (2 ^ 32) p = true ->
  close_below p
    (map3 Imin64.intaddup3 (map_fmul p (repeat a n))
       (map_fmul p (repeat b n)) (map_fmul p (repeat c n)))
  = true.
Proof.
  intros A B C S. revert n. induction p as [| v p IH]; intros n L H.
  - now destruct n.
  - destruct n as [| n]; [discriminate |].
    cbn [repeat map_fmul map3 close_below].
    apply within_cons in H. destruct H as [V H].
    assert (T : tap v v v) by (unfold tap; lia).
    destruct (blend3_scalar v v v v v a b c) as [_ [Lo Hi]]; trivial.
    unfold Imin64.intaddup3.
    rewrite IH by (trivial; now injection L).
    rewrite andb_true_r, andb_true_iff, !Z.leb_le. lia.
Qed.

(** [Imin64.baryc] off a direct hit: a blend of three of the corners, with
    the weights of a triangle. *)
Lemma baryc64_blend (img : image) (x y : Q) (edge : pyarg)
  (p1 p2 p3 p4 : pixel_t) :
  (Qabs x <= 2 ^ 52)%Q -> (Qabs y <= 2 ^ 52)%Q ->
  corners img x y edge = Ok (p1, p2, p3, p4) ->
  direct_hit x y = false ->
  exists (q0 q1 q2 : pixel_t) (u0 u1 u2 : Q),
    In q0 [p1; p2; p3; p4] /\ In q1 [p1; p2; p3; p4] /\
    In q2 [p1; p2; p3; p4] /\
    weight u0 /\ weight u1 /\ weight u2 /\ unit_sum (u0 + u1 + u2) /\
    Imin64.baryc img x y edge
    = Ok (map3 Imin64.intaddup3
            (map_fmul q0 (tuple_of u0 (channels img)))
            (map_fmul q1 (tuple_of u1 (channels img)))
            (map_fmul q2 (tuple_of u2 (channels img)))).
Proof.
  intros Bx By H D. apply corners_inv in H. destruct H as (H1 & H2 & H3 & H4).
  destruct (sample_first_pixel _ _ _ _ _ H1) as (px0 & pxs & rows & ->).
  unfold sample in *. unfold Imin64.baryc.
  rewrite index_head. unfold bind at 1. rewrite index_head. unfold bind at 1.
  cbv zeta. rewrite H1. unfold bind at 1.
  fold (direct_hit x y). rewrite D.
  rewrite H2, H3, H4. unfold bind. rewrite first_pixel_channels.
  destruct (axis_weights x Bx) as (Na & Nb & Ea & Eb).
  destruct (axis_weights y By) as (Nc & Nd & Ec & Ed).
  set (a1 := fsub (float (lower_cell x + 1)) x) in *.
  set (a0 := fsub x (float (lower_cell x))) in *.
  set (b1 := fsub (float (lower_cell y + 1)) y) in *.
  set (b0 := fsub y (float (lower_cell y))) in *.
  assert (Tr : forall a b : Q,
             (0 <= a)%Q -> (0 <= b)%Q ->
             (a + b <= 1 + (1 # 281474976710656))%Q ->
             weight a /\ weight b /\ weight (fsub 1 (fadd a b)) /\
             unit_sum (a + b + fsub 1 (fadd a b)))
    by exact triangle_weights.
  assert (Fin : forall (q0 q1 q2 : pixel_t) (u0 u1 u2 : Q) (r : pixel_t),
             In q0 [p1; p2; p3; p4] -> In q1 [p1; p2; p3; p4] ->
             In q2 [p1; p2; p3; p4] ->
             weight u0 -> weight u1 -> weight u2 -> unit_sum (u0 + u1 + u2) ->
             r = map3 Imin64.intaddup3
                   (map_fmul q0 (tuple_of u0 (len px0)))
                   (map_fmul q1 (tuple_of u1 (len px0)))
                   (map_fmul q2 (tuple_of u2 (len px0))) ->
             exists (q0 q1 q2 : pixel_t) (u0 u1 u2 : Q),
               In q0 [p1; p2; p3; p4] /\ In q1 [p1; p2; p3; p4] /\
               In q2 [p1; p2; p3; p4] /\
               weight u0 /\ weight u1 /\ weight u2 /\
               unit_sum (u0 + u1 + u2) /\
               Ok r
               = Ok (map3 Imin64.intaddup3
                       (map_fmul q0 (tuple_of u0 (len px0)))
                       (map_fmul q1 (tuple_of u1 (len px0)))
                       (map_fmul q2 (tuple_of u2 (len px0))))).
  { intros q0 q1 q2 u0 u1 u2 r I0 I1 I2 W0 W1 W2 S ->.
    exists q0, q1, q2, u0, u1, u2. tauto. }
  destruct (_ <? _).
  - destruct (Qltb a0 b0) eqn:T;
      [apply Qltb_lt in T | apply Qltb_ge in T].
    + destruct (Tr a0 b1) as (Wa & Wb & Wc & S); trivial; [lra |].
      apply (Fin p1 p3 p4 b1 a0 (fsub 1 (fadd a0 b1)));
        simpl; auto 6. unfold unit_sum in *. lra.
    + destruct (Tr a1 b0) as (Wa & Wb & Wc & S); trivial; [lra |].
      apply (Fin p1 p3 p2 a1 b0 (fsub 1 (fadd a1 b0)));
        simpl; auto 6.
  - destruct (Qltb a0 b1) eqn:T;
      [apply Qltb_lt in T | apply Qltb_ge in T].
    + destruct (Tr a0 b0) as (Wa & Wb & Wc & S); trivial; [lra |].
      apply (Fin p1 p2 p4 (fsub 1 (fadd a0 b0)) a0 b0);
        simpl; auto 6. unfold unit_sum in *. lra.
    + destruct (Tr a1 b1) as (Wa & Wb & Wc & S); trivial; [lra |].
      apply (Fin p2 p3 p4 b1 (fsub 1 (fadd a1 b1)) a1);
        simpl; auto 6. unfold unit_sum in *. lra.
Qed.

Lemma length_map_fmul (p : list Z) (w : Q) (n : nat) :
  List.length p = n -> List.length (map_fmul p (repeat w n)) = n.
Proof.
  revert n. induction p as [| v p IH]; intros n H; simpl in *; subst; trivial.
  simpl. now rewrite IH.
Qed.

Lemma len_blend64 (Zn : Z) (f : Q -> Q -> Q -> Z) (q0 q1 q2 : pixel_t)
  (u0 u1 u2 : Q) :
  0 <= Zn -> len q0 = Zn -> len q1 = Zn -> len q2 = Zn ->
  len (map3 f (map_fmul q0 (tuple_of u0 Zn)) (map_fmul q1 (tuple_of u1 Zn))
         (map_fmul q2 (tuple_of u2 Zn))) = Zn.
Proof.
  intros H A B C. apply length_len; trivial. unfold tuple_of.
  apply length_map3; apply length_map_fmul; now apply len_length.
Qed.

Lemma In_corners (P : pixel_t -> Prop) (p1 p2 p3 p4 q : pixel_t) :
  P p1 -> P p2 -> P p3 -> P p4 -> In q [p1; p2; p3; p4] -> P q.
Proof. intros A B C D [<- | [<- | [<- | [<- | []]]]]; trivial. Qed.

Lemma baryc64_hit (img : image) (x y : Q) (edge : pyarg)
  (p1 p2 p3 p4 : pixel_t) :
  corners img x y edge = Ok (p1, p2, p3, p4) ->
  direct_hit x y = true ->
  Imin64.baryc img x y edge = Ok p1.
Proof.
  intros H D. apply corners_inv in H. destruct H as (H1 & _).
  destruct (sample_first_pixel _ _ _ _ _ H1) as (px0 & pxs & rows & ->).
  unfold sample in *. unfold Imin64.baryc.
  rewrite index_head. unfold bind at 1. rewrite index_head. unfold bind at 1.
  cbv zeta. rewrite H1. unfold bind at 1.
  fold (direct_hit x y). now rewrite D.
Qed.

(** The kernels in binary64 keep the samples in their range. *)
Lemma kernels64_within (M : Z) (img : image) (x y : Q) (edge : pyarg) :
  well_formed img = true -> samples_within M img = true -> M <= 2 ^ 32 ->
  (Qabs x <= 2 ^ 52)%Q -> (Qabs y <= 2 ^ 52)%Q ->
  (exists p, Imin64.blin img x y edge = Ok p /\ within M p = true /\
             len p = channels img) /\
  (exists p, Imin64.baryc img x y edge = Ok p /\ within M p = true /\
             len p = channels img).
Proof.
  intros W S BM Bx By. pose proof (within_resolve M img) as R.
  pose proof (corners_resolve img x y edge W) as C.
  pose proof (fun a b => proj2 (src_resolve img a b edge W)) as L.
  pose proof (channels_nonneg img) as N.
  split.
  - rewrite (blin64_corners _ _ _ _ _ _ _ _ C). eexists. split; [reflexivity |].
    destruct (direct_hit x y); [split; [now apply R | apply L] |].
    pose proof (blin_weights64_bounds x y Bx By) as Wt.
    destruct (blin_weights64 x y) as [[[w00 w01] w10] w11].
    destruct Wt as (_ & W0 & W1 & W2 & W3 & Sm).
    unfold blend4_64, tuple_of. split.
    + apply within_blend4_64; trivial; now apply R.
    + apply length_len; trivial.
      apply length_map4; apply length_map_fmul; apply len_length, L.
  - destruct (direct_hit x y) eqn:D.
    + rewrite (baryc64_hit _ _ _ _ _ _ _ _ C D). eexists.
      split; [reflexivity |]. split; [now apply R | apply L].
    + destruct (baryc64_blend img x y edge _ _ _ _ Bx By C D)
        as (q0 & q1 & q2 & u0 & u1 & u2 & I0 & I1 & I2 & W0 & W1 & W2 & Sm & E).
      rewrite E. eexists. split; [reflexivity |].
      assert (Wq : forall q, In q [resolve img (inject_Z (lower_cell x))
                                     (inject_Z (lower_cell y)) edge;
                                   resolve img (inject_Z (lower_cell x + 1))
                                     (inject_Z (lower_cell y)) edge;
                                   resolve img (inject_Z (lower_cell x + 1))
                                     (inject_Z (lower_cell y + 1)) edge;
                                   resolve img (inject_Z (lower_cell x))
                                     (inject_Z (lower_cell y + 1)) edge] ->
                             within M q = true /\ len q = channels img).
      { intros q Iq.
        refine (In_corners (fun q => within M q = true /\ len q = channels img)
                  _ _ _ _ q _ _ _ _ Iq);
          (split; [now apply R | apply L]). }
      destruct (Wq q0 I0), (Wq q1 I1), (Wq q2 I2). split.
      * unfold tuple_of. now apply within_blend3_64.
      * now apply len_blend64.
Qed.

(** Four equal corners: every sample comes back as it is or one lower. *)
Lemma kernels64_close (img : image) (x y : Q) (edge : pyarg) (p : pixel_t) :
  well_formed img = true -> within (2 ^ 32) p = true ->
  (Qabs x <= 2 ^ 52)%Q -> (Qabs y <= 2 ^ 52)%Q ->
  corners img x y edge = Ok (p, p, p, p) ->
  (exists q, Imin64.blin img x y edge = Ok q /\ close_below p q = true) /\
  (exists q, Imin64.baryc img x y edge = Ok q /\ close_below p q = true).
Proof.
  intros W H Bx By C.
  pose proof (corner_length img x y edge p p p p W C) as L.
  apply len_length in L.
  split.
  - rewrite (blin64_corners _ _ _ _ _ _ _ _ C). eexists. split; [reflexivity |].
    destruct (direct_hit x y); [apply close_below_refl |].
    pose proof (blin_weights64_bounds x y Bx By) as Wt.
    destruct (blin_weights64 x y) as [[[w00 w01] w10] w11].
    destruct Wt as (_ & W0 & W1 & W2 & W3 & Sm).
    unfold blend4_64, tuple_of. now apply close_blend4_64.
  - destruct (direct_hit x y) eqn:D.
    + rewrite (baryc64_hit _ _ _ _ _ _ _ _ C D). eexists.
      split; [reflexivity | apply close_below_refl].
    + destruct (baryc64_blend img x y edge _ _ _ _ Bx By C D)
        as (q0 & q1 & q2 & u0 & u1 & u2 & I0 & I1 & I2 & W0 & W1 & W2 & Sm & E).
      rewrite E. eexists. split; [reflexivity |].
      assert (Q : forall q, In q [p; p; p; p] -> q = p).
      { intros q Iq.
        refine (In_corners (fun q => q = p) _ _ _ _ q _ _ _ _ Iq); reflexivity. }
      rewrite (Q q0 I0), (Q q1 I1), (Q q2 I2).
      unfold tuple_of. now apply close_blend3_64.
Qed.





(** X6: in binary64, when the four corners of the square hold the same
    pixel [p] (samples in [0, 2^32]), the bilinear and the barycentric
    kernel return, at every coordinate of magnitude up to 2^52, the pixel
    [p] with each sample kept or lowered by one; and a sample is lowered:
    on the all-[7, 9] image [blin] gives [6, 9] at (2/3, 1/2) and [baryc]
    at (1/3, 1/3). *)
Theorem equal_corners_lose_at_most_one :
  (forall (img : image) (x y : Q) (edge : pyarg) (p : pixel_t),
     well_formed img = true -> within (2 ^ 32) p = true ->
     (Qabs x <= 2 ^ 52)%Q -> (Qabs y <= 2 ^ 52)%Q ->
     corners img x y edge = Ok (p, p, p, p) ->
     (exists q, Imin64.blin img x y edge = Ok q /\ close_below p q = true) /\
     (exists q, Imin64.baryc img x y edge = Ok q /\ close_below p q = true)) /\
  Imin64.blin img_flat (binary64 (2 # 3)) (1 # 2) (PyInt 1) = Ok [6; 9] /\
  Imin64.baryc img_flat (binary64 (1 # 3)) (binary64 (1 # 3)) (PyInt 1)
  = Ok [6; 9].
Proof.
  split; [exact kernels64_close | split; vm_compute; reflexivity].
Qed.

Lemma equal_corners_lose_at_most_one_witness :
  exists q,
    Imin64.baryc img_flat (binary64 (1 # 3)) (binary64 (1 # 3)) (PyInt 1)
    = Ok q /\
    close_below [7; 9] q = true.
Proof.
  apply (proj1 equal_corners_lose_at_most_one img_flat (binary64 (1 # 3))
           (binary64 (1 # 3)) (PyInt 1) [7; 9]);
    try reflexivity; apply Qle_bool_iff; reflexivity.
Defined.


(** ** The drivers in binary64 *)

Lemma Displace64_blin_eq (img : image) (x y : Q) (edge : pyarg) :
  (exists px0 pxs rows, img = (px0 :: pxs) :: rows) ->
  Displace64._blin img (channels img) x y edge = Imin64.blin img x y edge.
Proof.
  intros (px0 & pxs & rows & ->). unfold Imin64.blin.
  rewrite index_head. unfold bind at 1. rewrite index_head. unfold bind at 1.
  reflexivity.
Qed.

Lemma Displace64_baryc_eq (img : image) (x y : Q) (edge : pyarg) :
  (exists px0 pxs rows, img = (px0 :: pxs) :: rows) ->
  Displace64._baryc img (channels img) x y edge = Imin64.baryc img x y edge.
Proof.
  intros (px0 & pxs & rows & ->). unfold Imin64.baryc.
  rewrite index_head. unfold bind at 1. rewrite index_head. unfold bind at 1.
  reflexivity.
Qed.

Lemma Rescale64_baryc_eq (img : image) (x y : Q) (edge : pyarg) :
  (exists px0 pxs rows, img = (px0 :: pxs) :: rows) ->
  Rescale64._baryc img (channels img) x y edge = Imin64.baryc img x y edge.
Proof.
  intros (px0 & pxs & rows & ->). unfold Imin64.baryc.
  rewrite index_head. unfold bind at 1. rewrite index_head. unfold bind at 1.
  reflexivity.
Qed.

Lemma displace64_dispatch (img : image) (fx fy : Z -> Z -> Q) (XNEW YNEW : Z)
  (edge method : pyarg) :
  has_pixel img = true ->
  driver_method method = true ->
  Displace64.displace img fx fy XNEW YNEW edge method
  = comprehension
      (fun y => comprehension
                  (fun x => if is_bilinear method
                            then Imin64.blin img (fx x y) (fy x y) edge
                            else Imin64.baryc img (fx x y) (fy x y) edge)
                  (range XNEW))
      (range YNEW).
Proof.
  intros P M. pose proof (has_pixel_spec img P) as F.
  unfold driver_method in M. unfold Displace64.displace.
  fold (is_bilinear method). fold (is_barycentric method).
  destruct F as (px0 & pxs & rows & E).
  assert (F : exists px0 pxs rows, img = (px0 :: pxs) :: rows)
    by (now exists px0, pxs, rows).
  destruct (is_bilinear method).
  - unfold Displace64.bilinear. rewrite E at 1.
    rewrite index_head. unfold bind at 1. rewrite index_head. unfold bind at 1.
    rewrite <- (first_pixel_channels px0 pxs rows), <- E.
    apply comprehension_eq. intros y. apply comprehension_eq. intros x.
    now apply Displace64_blin_eq.
  - simpl in M. rewrite M.
    unfold Displace64.barycentric. rewrite E at 1.
    rewrite index_head. unfold bind at 1. rewrite index_head. unfold bind at 1.
    rewrite <- (first_pixel_channels px0 pxs rows), <- E.
    apply comprehension_eq. intros y. apply comprehension_eq. intros x.
    now apply Displace64_baryc_eq.
Qed.

(** A grid of pixels that all satisfy [P] and have [Zn] channels. *)
Lemma grid_of (P : pixel_t -> Prop) (f : Z -> Z -> result pixel_t)
  (XNEW YNEW Zn : Z) :
  0 <= XNEW -> 0 <= YNEW ->
  (forall x y, 0 <= x < XNEW -> 0 <= y < YNEW ->
               exists p, f x y = Ok p /\ P p /\ len p = Zn) ->
  exists out,
    comprehension (fun y => comprehension (fun x => f x y) (range XNEW))
      (range YNEW) = Ok out /\
    has_shape out YNEW XNEW Zn = true /\
    (forall row p, In row out -> In p row -> P p).
Proof.
  intros HX HY T.
  destruct (grid_total f XNEW YNEW) as [out E].
  { intros x y Hx Hy. destruct (T x y Hx Hy) as [p [Ep _]]. now exists p. }
  exists out. split; [exact E |]. split.
  - apply grid_shape with (Zn := Zn) in E; trivial.
    intros x y p Hx Hy Ep. destruct (T x y Hx Hy) as [q [Eq [_ L]]]. congruence.
  - apply (grid_pixels P _ _ _ _) with (2 := E).
    intros x y p Hx Hy Ep. destruct (T x y Hx Hy) as [q [Eq [Pq _]]]. congruence.
Qed.

(** X9: in binary64 [displace] keeps the samples in their range: on a
    well-formed image whose samples all lie in [0, M], with M <= 2^32, for
    coordinate functions of magnitude up to 2^52 on the target grid, every
    edge value and both methods, it returns an image of YNEW rows of XNEW
    pixels whose samples all lie in [0, M]. *)
Theorem displace64_stays_in_range (M : Z) (img : image)
  (fx fy : Z -> Z -> Q) (XNEW YNEW : Z) (edge method : pyarg) :
  well_formed img = true -> samples_within M img = true -> M <= 2 ^ 32 ->
  0 <= XNEW -> 0 <= YNEW ->
  (forall x y, 0 <= x < XNEW -> 0 <= y < YNEW ->
               (Qabs (fx x y) <= 2 ^ 52)%Q /\ (Qabs (fy x y) <= 2 ^ 52)%Q) ->
  driver_method method = true ->
  exists out,
    Displace64.displace img fx fy XNEW YNEW edge method = Ok out /\
    has_shape out YNEW XNEW (channels img) = true /\
    samples_within M out = true.
Proof.
  intros W S BM HX HY B Me.
  rewrite (displace64_dispatch img fx fy XNEW YNEW edge method
             (well_formed_has_pixel img W) Me).
  destruct (grid_of (fun p => within M p = true)
              (fun x y => if is_bilinear method
                          then Imin64.blin img (fx x y) (fy x y) edge
                          else Imin64.baryc img (fx x y) (fy x y) edge)
              XNEW YNEW (channels img) HX HY) as (out & E & Sh & Wi).
  { intros x y Hx Hy. destruct (B x y Hx Hy) as [Bx By].
    destruct (kernels64_within M img (fx x y) (fy x y) edge W S BM Bx By)
      as (K1 & K2).
    now destruct (is_bilinear method). }
  exists out. repeat split; trivial. now apply samples_within_spec.
Qed.

(** The coordinate [x_resize * x] of the rescaling drivers. *)
Lemma fdiv_ok (a b : Z) :
  b <> 0 -> fdiv a b = Ok (binary64 (inject_Z a / inject_Z b)).
Proof. intros H. unfold fdiv. now rewrite (proj2 (Z.eqb_neq b 0) H). Qed.

Lemma resize_coordinate (a b n : Z) :
  0 <= a <= 2 ^ 32 -> 1 <= b -> 0 <= n <= b -> n <= 2 ^ 32 ->
  let c := fmul (binary64 (inject_Z a / inject_Z b)) (float n) in
  (0 <= c)%Q /\ (Qabs c <= 2 ^ 52)%Q.
Proof.
  intros [A0 A1] B [N0 N1] N2 c.
  change (2 ^ 32) with 4294967296 in *.
  assert (F : (float n == inject_Z n)%Q)
    by (apply float_exact; change (2 ^ 53) with 9007199254740992; lia).
  set (r := (inject_Z a / inject_Z b)%Q) in *.
  assert (Qa : (0 <= inject_Z a <= 4294967296)%Q).
  { change 0%Q with (inject_Z 0).
    change 4294967296%Q with (inject_Z 4294967296).
    rewrite <- !Zle_Qle. lia. }
  assert (Qb : (1 <= inject_Z b)%Q)
    by (change 1%Q with (inject_Z 1); rewrite <- Zle_Qle; lia).
  assert (Qn : (0 <= inject_Z n <= inject_Z b)%Q).
  { change 0%Q with (inject_Z 0). rewrite <- !Zle_Qle. lia. }
  assert (Qn' : (inject_Z n <= 4294967296)%Q).
  { change 4294967296%Q with (inject_Z 4294967296). rewrite <- Zle_Qle. lia. }
  assert (R : (r * inject_Z b == inject_Z a)%Q) by (unfold r; field; lra).
  assert (R0 : (0 <= r)%Q).
  { unfold r. apply Qle_shift_div_l; lra. }
  assert (R1 : (r <= 4294967296)%Q) by nra.
  assert (X0 : (0 <= binary64 r)%Q) by now apply binary64_nonneg.
  assert (X1 : (r - (1 # 32768) <= binary64 r <= r + (1 # 32768))%Q)
    by (apply near_sample, Qabs_between; lra).
  set (xr := binary64 r) in *. clearbody xr.
  assert (P0 : (0 <= xr * float n)%Q) by (rewrite F; nra).
  assert (P1 : (xr * float n <= 8589934592)%Q) by (rewrite F; nra).
  assert (C0 : (0 <= c)%Q) by now apply binary64_nonneg.
  assert (C1 : (xr * float n - (1 # 32768) <= c
                <= xr * float n + (1 # 32768))%Q)
    by (apply near_sample, Qabs_between; lra).
  split; trivial. apply Qabs_between;
    change (2 ^ 52)%Q with 4503599627370496%Q; lra.
Qed.

Lemma within_blend2_64 (M : Z) (n : nat) (a b : Q) (p q : pixel_t) :
  M <= 2 ^ 32 ->
  weight a -> weight b -> unit_sum (a + b) ->
  within M p = true -> within M q = true ->
  within M (map2 Rescale64._intaddup2 (map_fmul p (repeat a n))
              (map_fmul q (repeat b n)))
  = true.
Proof.
  intros BM A B S. revert p q.
  induction n as [| n IH]; intros [| u p] [| v q] H0 H1; trivial.
  cbn [repeat map_fmul map2].
  apply within_cons in H0, H1.
  destruct H0 as [V0 H0], H1 as [V1 H1].
  apply within_cons. split; [| now apply IH].
  apply (within_tap M _ BM) in V0, V1.
  destruct (blend2_scalar 0 M u v a b) as [L [_ U]]; trivial.
  unfold Rescale64._intaddup2. lia.
Qed.

Lemma axis_weights_unit (x : Q) :
  (Qabs x <= 2 ^ 52)%Q ->
  let a := fsub (float (lower_cell x + 1)) x in
  let b := fsub x (float (lower_cell x)) in
  weight a /\ weight b /\ unit_sum (a + b).
Proof.
  intros B a b. destruct (axis_weights x B) as (Na & Nb & Ea & Eb).
  pose proof (lower_cell_below x). pose proof (lower_cell_above x).
  fold a in Na, Ea. fold b in Nb, Eb. clearbody a b.
  unfold weight, unit_sum. repeat split; lra.
Qed.

Lemma xlin64_within (M : Z) (img : image) (x : Q) (y : Z) (edge : pyarg) :
  well_formed img = true -> samples_within M img = true -> M <= 2 ^ 32 ->
  (0 <= x)%Q -> (Qabs x <= 2 ^ 52)%Q ->
  exists p, Rescale64._xlin img (channels img) x y edge = Ok p /\
            within M p = true /\ len p = channels img.
Proof.
  intros W S BM H B. pose proof (within_resolve M img) as R.
  pose proof (fun a b => proj2 (src_resolve img a b edge W)) as L.
  destruct (axis_weights_unit x B) as (Wa & Wb & Sm).
  unfold Rescale64._xlin, Rescale._pixel_1.
  change Rescale._src with Imin.src. cbv zeta.
  rewrite <- (lower_cell_int x H).
  rewrite !(proj1 (src_resolve img _ _ edge W)).
  destruct (Qeq_bool _ _); unfold bind; eexists; (split; [reflexivity |]).
  - split; [now apply R | apply L].
  - split.
    + unfold tuple_of. apply within_blend2_64; trivial; now apply R.
    + apply length_len; [apply channels_nonneg |]. unfold tuple_of.
      apply length_map2; apply length_map_fmul; apply len_length, L.
Qed.

Lemma ylin64_within (M : Z) (img : image) (x : Z) (y : Q) (edge : pyarg) :
  well_formed img = true -> samples_within M img = true -> M <= 2 ^ 32 ->
  (0 <= y)%Q -> (Qabs y <= 2 ^ 52)%Q ->
  exists p, Rescale64._ylin img (channels img) x y edge = Ok p /\
            within M p = true /\ len p = channels img.
Proof.
  intros W S BM H B. pose proof (within_resolve M img) as R.
  pose proof (fun a b => proj2 (src_resolve img a b edge W)) as L.
  destruct (axis_weights_unit y B) as (Wa & Wb & Sm).
  unfold Rescale64._ylin, Rescale._pixel_2.
  change Rescale._src with Imin.src. cbv zeta.
  rewrite <- (lower_cell_int y H).
  rewrite !(proj1 (src_resolve img _ _ edge W)).
  destruct (Qeq_bool _ _); unfold bind; eexists; (split; [reflexivity |]).
  - split; [now apply R | apply L].
  - split.
    + unfold tuple_of. apply within_blend2_64; trivial; now apply R.
    + apply length_len; [apply channels_nonneg |]. unfold tuple_of.
      apply length_map2; apply length_map_fmul; apply len_length, L.
Qed.

Lemma bilinear64_unfold (img : image) (XNEW YNEW : Z) (edge : pyarg) :
  has_pixel img = true ->
  Rescale64.bilinear img XNEW YNEW edge =
  x_resize <- fdiv (width img - 1) (XNEW - 1) ;;
  y_resize <- fdiv (height img - 1) (YNEW - 1) ;;
  intermediate_image <-
    (if XNEW =? width img then Ok img
     else comprehension
            (fun y => comprehension
                        (fun x => Rescale64._xlin img (channels img)
                                    (fmul x_resize (float x)) y edge)
                        (range XNEW))
            (range (height img))) ;;
  if YNEW =? height img then Ok intermediate_image
  else comprehension
         (fun y => comprehension
                     (fun x => Rescale64._ylin intermediate_image (channels img)
                                 x (fmul y_resize (float y)) edge)
                     (range XNEW))
         (range YNEW).
Proof.
  intros P. destruct (has_pixel_spec img P) as (px0 & pxs & rows & ->).
  unfold Rescale64.bilinear.
  rewrite index_head. unfold bind at 1. rewrite index_head. unfold bind at 1.
  reflexivity.
Qed.

Lemma barycentric64_unfold (img : image) (XNEW YNEW : Z) (edge : pyarg) :
  has_pixel img = true ->
  Rescale64.barycentric img XNEW YNEW edge =
  x_resize <- fdiv (width img - 1) (XNEW - 1) ;;
  y_resize <- fdiv (height img - 1) (YNEW - 1) ;;
  comprehension
    (fun y => comprehension
                (fun x => Rescale64._baryc img (channels img)
                            (fmul x_resize (float x))
                            (fmul y_resize (float y)) edge)
                (range XNEW))
    (range YNEW).
Proof.
  intros P. destruct (has_pixel_spec img P) as (px0 & pxs & rows & ->).
  unfold Rescale64.barycentric.
  rewrite index_head. unfold bind at 1. rewrite index_head. unfold bind at 1.
  reflexivity.
Qed.

Lemma rescale64_dispatch (img : image) (XNEW YNEW : Z) (edge method : pyarg) :
  driver_method method = true ->
  Rescale64.rescale img XNEW YNEW edge method
  = if is_bilinear method then Rescale64.bilinear img XNEW YNEW edge
    else Rescale64.barycentric img XNEW YNEW edge.
Proof.
  unfold driver_method, Rescale64.rescale. fold (is_bilinear method).
  fold (is_barycentric method). intros M.
  destruct (is_bilinear method); trivial. simpl in M. now rewrite M.
Qed.

(** X10: in binary64 [rescale] keeps the samples in their range: on a
    well-formed image whose samples all lie in [0, M], with M and the four
    sizes at most 2^32 and target sizes of at least 2, for every edge value
    and both methods it returns an image of YNEW rows of XNEW pixels whose
    samples all lie in [0, M]. *)
Theorem rescale64_stays_in_range (M : Z) (img : image) (XNEW YNEW : Z)
  (edge method : pyarg) :
  well_formed img = true -> samples_within M img = true -> M <= 2 ^ 32 ->
  width img <= 2 ^ 32 -> height img <= 2 ^ 32 ->
  2 <= XNEW <= 2 ^ 32 -> 2 <= YNEW <= 2 ^ 32 ->
  driver_method method = true ->
  exists out,
    Rescale64.rescale img XNEW YNEW edge method = Ok out /\
    has_shape out YNEW XNEW (channels img) = true /\
    samples_within M out = true.
Proof.
  intros W S BM BW BH [HX BX] [HY BY] Me.
  pose proof (well_formed_has_pixel img W) as P.
  pose proof W as W'. apply well_formed_spec in W'.
  destruct W' as (H1 & H2 & H3 & _).
  rewrite (rescale64_dispatch img XNEW YNEW edge method Me).
  assert (Cx : forall x, 0 <= x < XNEW ->
             let c := fmul (binary64 (inject_Z (width img - 1)
                                      / inject_Z (XNEW - 1))) (float x) in
             (0 <= c)%Q /\ (Qabs c <= 2 ^ 52)%Q).
  { intros x Hx. apply resize_coordinate; lia. }
  assert (Cy : forall y, 0 <= y < YNEW ->
             let c := fmul (binary64 (inject_Z (height img - 1)
                                      / inject_Z (YNEW - 1))) (float y) in
             (0 <= c)%Q /\ (Qabs c <= 2 ^ 52)%Q).
  { intros y Hy. apply resize_coordinate; lia. }
  destruct (is_bilinear method).
  - rewrite (bilinear64_unfold img XNEW YNEW edge P).
    rewrite !fdiv_ok by lia. unfold bind at 1 2.
    set (x_resize := binary64 (inject_Z (width img - 1) / inject_Z (XNEW - 1)))
      in *.
    set (y_resize := binary64 (inject_Z (height img - 1) / inject_Z (YNEW - 1)))
      in *.
    assert (I : exists im,
               (if XNEW =? width img then Ok img
                else comprehension
                       (fun y => comprehension
                                   (fun x => Rescale64._xlin img (channels img)
                                               (fmul x_resize (float x)) y edge)
                                   (range XNEW))
                       (range (height img))) = Ok im /\
               has_shape im (height img) XNEW (channels img) = true /\
               samples_within M im = true).
    { destruct (Z.eqb_spec XNEW (width img)) as [-> | N].
      - exists img. repeat split; trivial. now apply well_formed_shape.
      - destruct (grid_of (fun p => within M p = true)
                    (fun x y => Rescale64._xlin img (channels img)
                                  (fmul x_resize (float x)) y edge)
                    XNEW (height img) (channels img)) as (im & E & Sh & Wi);
          try lia.
        + intros x y Hx _. destruct (Cx x Hx) as [C0 C1].
          now apply xlin64_within.
        + exists im. repeat split; trivial. now apply samples_within_spec. }
    destruct I as [im [-> [Sh Si]]]. unfold bind.
    destruct (Z.eqb_spec YNEW (height img)) as [-> | N].
    + now exists im.
    + destruct (shape_well_formed im (height img) XNEW (channels img) Sh)
        as (Wm & _ & _ & Cm); try lia.
      destruct (grid_of (fun p => within M p = true)
                  (fun x y => Rescale64._ylin im (channels img) x
                                (fmul y_resize (float y)) edge)
                  XNEW YNEW (channels img)) as (out & E & So & Wo);
        try lia.
      * intros x y _ Hy. destruct (Cy y Hy) as [C0 C1].
        rewrite <- Cm. apply ylin64_within; trivial.
      * exists out. repeat split; trivial. now apply samples_within_spec.
  - rewrite (barycentric64_unfold img XNEW YNEW edge P).
    rewrite !fdiv_ok by lia. unfold bind.
    set (x_resize := binary64 (inject_Z (width img - 1) / inject_Z (XNEW - 1)))
      in *.
    set (y_resize := binary64 (inject_Z (height img - 1) / inject_Z (YNEW - 1)))
      in *.
    destruct (grid_of (fun p => within M p = true)
                (fun x y => Rescale64._baryc img (channels img)
                              (fmul x_resize (float x))
                              (fmul y_resize (float y)) edge)
                XNEW YNEW (channels img)) as (out & E & So & Wo);
      try lia.
    + intros x y Hx Hy. rewrite Rescale64_baryc_eq by now apply has_pixel_spec.
      destruct (Cx x Hx) as [_ C1]. destruct (Cy y Hy) as [_ C2].
      now destruct (kernels64_within M img _ _ edge W S BM C1 C2) as (_ & K).
    + exists out. repeat split; trivial. now apply samples_within_spec.
Qed.

Lemma rescale64_stays_in_range_witness :
  exists out,
    Rescale64.rescale img22 5 3 (PyInt 0) (PyInt 2) = Ok out /\
    has_shape out 3 5 (channels img22) = true /\
    samples_within 255 out = true.
Proof.
  apply rescale64_stays_in_range; try reflexivity;
    unfold width, height, len; simpl; lia.
Defined.

Lemma displace64_stays_in_range_witness :
  exists out,
    Displace64.displace img22 (fun x y => binary64 (inject_Z x / 3))
      (fun x y => binary64 (inject_Z (x - y) * (5 # 7))) 4 3 (PyInt 2) (PyInt 1)
    = Ok out /\
    has_shape out 3 4 (channels img22) = true /\
    samples_within 255 out = true.
Proof.
  apply displace64_stays_in_range; try reflexivity; try (simpl; lia).
  intros x y Hx Hy.
  assert (x = 0 \/ x = 1 \/ x = 2 \/ x = 3) as X by lia.
  assert (y = 0 \/ y = 1 \/ y = 2) as Y by lia.
  destruct X as [-> | [-> | [-> | ->]]]; destruct Y as [-> | [-> | ->]];
    split; apply Qle_bool_iff; vm_compute; reflexivity.
Defined.
